(** * TactiCast Viewpoint: the baseline recommendation engine

    A shallow embedding of the deterministic baseline of
    [tacticast_viewpoint]: frame canonicalisation ([core/canonicalize.py]),
    pseudo-time and velocities ([core/timebase.py]), geometry
    ([core/geometry.py]), the proximity graph ([baseline/graph.py]), candidate
    generation ([baseline/candidates.py]), scoring ([baseline/scoring.py]),
    temporal smoothing ([baseline/smoothing.py]) and the policy orchestrator
    ([baseline/policy.py]).

    Conventions.
    - A Python [float] is an IEEE-754 binary64 number: Rocq's primitive
      [float].  The parts of the code that only add, negate and compare
      scores (smoothing, final assembly) are written once over the interface
      [Num], with the binary64 instance used by the pipeline and an exact
      instance used to state order-theoretic facts without rounding.
    - A Python [dict] is an insertion-ordered association list ([dict K V]);
      a well-formed one has no repeated key ([NoDup (dkeys d)]).
    - A Python exception is a value of [exn]; code that can raise returns a
      [result].  The two [while] loops of the open-space grid search take a
      bound on their number of iterations ([fuel]); running out of it is
      [OutOfFuel], never a value. *)

From Stdlib Require Import List String Ascii Bool Arith ZArith Lia.
From Stdlib Require Import Permutation Sorted Floats DecimalString.
Import ListNotations.

Set Warnings "-inexact-float".

Open Scope string_scope.
Open Scope list_scope.

(* ================================================================== *)
(** * Python dictionaries as insertion-ordered association lists *)
(* ================================================================== *)

(** Keys with a decidable equality ([str] and [int] keys in the source). *)
Class Key (K : Type) := {
  keqb : K -> K -> bool;
  keqb_eq : forall a b, keqb a b = true <-> a = b
}.

#[export] Instance string_Key : Key string :=
  {| keqb := String.eqb; keqb_eq := String.eqb_eq |}.

#[export] Instance nat_Key : Key nat :=
  {| keqb := Nat.eqb; keqb_eq := Nat.eqb_eq |}.

Definition dict (K V : Type) := list (K * V).

Section Dict.
Context {K V : Type} `{Key K}.

(** [d.get(k)]: the value stored under [k], if any. *)
Fixpoint dget (k : K) (d : dict K V) : option V :=
  match d with
  | [] => None
  | (k', v) :: r => if keqb k k' then Some v else dget k r
  end.

(** [k in d]. *)
Definition dmem (k : K) (d : dict K V) : bool :=
  match dget k d with Some _ => true | None => false end.

(** [d[k] = v]: an existing key keeps its place, a new key goes last. *)
Fixpoint dset (k : K) (v : V) (d : dict K V) : dict K V :=
  match d with
  | [] => [(k, v)]
  | (k', v') :: r => if keqb k k' then (k', v) :: r else (k', v') :: dset k v r
  end.

(** [list(d.keys())]. *)
Definition dkeys (d : dict K V) : list K := map fst d.
End Dict.

(* ================================================================== *)
(** * Exceptions and results *)
(* ================================================================== *)

Inductive exn : Type :=
| ValueError (msg : string)
| KeyError (key : string)
| IndexError
| ZeroDivisionError.

Inductive result (A : Type) : Type :=
| Ok (a : A)
| Raise (e : exn)
| OutOfFuel.

Arguments Ok {A} a.
Arguments Raise {A} e.
Arguments OutOfFuel {A}.

Definition bind {A B} (m : result A) (k : A -> result B) : result B :=
  match m with
  | Ok a => k a
  | Raise e => Raise e
  | OutOfFuel => OutOfFuel
  end.

Notation "x <- m ;; k" := (bind m (fun x => k))
  (at level 61, m at next level, right associativity).
Notation "' p <- m ;; k" := (bind m (fun x => match x with p => k end))
  (at level 61, p pattern, m at next level, right associativity).

(** A [for] loop whose body can raise, collecting one value per element. *)
Fixpoint mapM {A B} (f : A -> result B) (l : list A) : result (list B) :=
  match l with
  | [] => Ok []
  | a :: r => b <- f a ;; bs <- mapM f r ;; Ok (b :: bs)
  end.

(** A [for] loop whose body can raise, threading a state. *)
Fixpoint foldM {A S} (f : S -> A -> result S) (s : S) (l : list A) : result S :=
  match l with
  | [] => Ok s
  | a :: r => s' <- f s a ;; foldM f s' r
  end.

(** [str(n)] for a non-negative [int]. *)
Definition show_nat (n : nat) : string :=
  NilEmpty.string_of_uint (Nat.to_uint n).

(** [d[k]] on a [str]-keyed dict: [KeyError] when the key is missing. *)
Definition lookup {V} (k : string) (d : dict string V) : result V :=
  match dget k d with Some v => Ok v | None => Raise (KeyError k) end.

(** [d[i]] on an [int]-keyed dict. *)
Definition lookup_idx {V} (i : nat) (d : dict nat V) : result V :=
  match dget i d with Some v => Ok v | None => Raise (KeyError (show_nat i)) end.

(** [l[i]] on a list: [IndexError] out of range. *)
Definition index {A} (i : nat) (l : list A) : result A :=
  match nth_error l i with Some a => Ok a | None => Raise IndexError end.

(* ================================================================== *)
(** * Numbers *)
(* ================================================================== *)

(** The arithmetic that smoothing and the final assembly perform on scores
    and anchors: [0.0], the literal [1e-3], [+], [-], unary minus, [abs],
    [<] and [<=]. *)
Class Num (F : Type) := {
  nzero : F;
  ntol : F;
  nadd : F -> F -> F;
  nsub : F -> F -> F;
  nopp : F -> F;
  nabs : F -> F;
  nltb : F -> F -> bool;
  nleb : F -> F -> bool
}.

(** Python floats: IEEE-754 binary64. *)
#[export] Instance float_Num : Num float := {|
  nzero := 0%float;
  ntol := 0.001%float;
  nadd := PrimFloat.add;
  nsub := PrimFloat.sub;
  nopp := PrimFloat.opp;
  nabs := PrimFloat.abs;
  nltb := PrimFloat.ltb;
  nleb := PrimFloat.leb
|}.

(** Exact scores: integers counting thousandths, so that [1e-3] is [1]. *)
#[export] Instance Z_Num : Num Z := {|
  nzero := 0%Z;
  ntol := 1%Z;
  nadd := Z.add;
  nsub := Z.sub;
  nopp := Z.opp;
  nabs := Z.abs;
  nltb := Z.ltb;
  nleb := Z.leb
|}.

(** The laws of exact arithmetic that the hysteresis argument uses: [<] is a
    strict total order decided by [nltb], and [+] is a group operation that
    preserves it.  Binary64 arithmetic rounds and does not satisfy them. *)
Class ExactNum (F : Type) {N : Num F} : Prop := {
  nltb_irrefl : forall a, nltb a a = false;
  nltb_trans : forall a b c, nltb a b = true -> nltb b c = true -> nltb a c = true;
  nltb_total : forall a b, nltb a b = false -> nltb b a = false -> a = b;
  nadd_comm : forall a b, nadd a b = nadd b a;
  nadd_assoc : forall a b c, nadd a (nadd b c) = nadd (nadd a b) c;
  nadd_zero : forall a, nadd a nzero = a;
  nadd_opp : forall a, nadd a (nopp a) = nzero;
  nsub_def : forall a b, nsub a b = nadd a (nopp b);
  nadd_lt : forall a b c, nltb a b = true -> nltb (nadd a c) (nadd b c) = true
}.

#[export] Instance Z_ExactNum : ExactNum Z.
Proof.
  constructor; simpl; intros;
    repeat match goal with
           | H : Z.ltb _ _ = true |- _ => apply Z.ltb_lt in H
           | H : Z.ltb _ _ = false |- _ => apply Z.ltb_ge in H
           | |- Z.ltb _ _ = true => apply Z.ltb_lt
           | |- Z.ltb _ _ = false => apply Z.ltb_ge
           end; lia.
Qed.

(** What sorting by score needs of [<]: on the numbers that can be compared
    (all of them in exact arithmetic, all but NaN in binary64) it is
    asymmetric and "not below" is transitive. *)
Class ScoreOrder (F : Type) {N : Num F} := {
  comparable : F -> Prop;
  nltb_asym : forall a b,
    comparable a -> comparable b -> nltb a b = true -> nltb b a = false;
  nge_trans : forall a b c,
    comparable a -> comparable b -> comparable c ->
    nltb a b = false -> nltb b c = false -> nltb a c = false
}.

(* ================================================================== *)
(** * Data model ([types.py], [config.py]) *)
(* ================================================================== *)

Section Types.
Context {F : Type}.

Definition Vec2 : Type := (F * F)%type.

Record Pitch := mkPitch { pitch_length : F; pitch_width : F }.

Record PlayerMeta := mkPlayerMeta {
  pm_id : string; pm_team : string; pm_label : string; pm_role : string }.

Record RawBall := mkRawBall {
  ball_x : option F; ball_y : option F; owner_id : option string }.

Record RawFrame := mkRawFrame {
  rf_id : string;
  player_pos : dict string Vec2;
  ball : RawBall;
  rf_note : string }.

Record Frame := mkFrame {
  frame_idx : nat;
  players : dict string Vec2;
  ball_pos : Vec2;
  ball_owner_id : option string;
  note : string }.

Inductive FocusTargetType := BALL | PLAYER | ZONE | GOAL.

Record FocusTarget := mkFocusTarget {
  target_type : FocusTargetType;
  anchor : Vec2;
  target_player_id : option string;
  tag : option string }.

Record CandidateEvent := mkCandidateEvent {
  ce_name : string;
  ce_focus : FocusTarget;
  features : dict string F;
  ce_meta : dict string string }.

Record ScoredEvent := mkScoredEvent {
  name : string;
  score : F;
  focus : FocusTarget;
  reasons : list string;
  meta : dict string string }.

Record PlayerFocusRecommendation := mkPlayerFocusRecommendation {
  player_id : string;
  rec_frame_idx : nat;
  t_rel : F;
  primary : FocusTarget;
  primary_score : F;
  rationale : list string;
  top_k : list ScoredEvent }.

Record AlgoConfig := mkAlgoConfig {
  cfg_top_k : Z;
  attacking_team : string;
  attack_direction : Z;
  max_player_speed : F;
  min_dt : F;
  teammate_radius : F;
  opponent_radius : F;
  enable_ball_focus : bool;
  enable_pass_targets : bool;
  enable_marking_threats : bool;
  enable_space_targets : bool;
  enable_goal_focus : bool;
  space_grid_dx : F;
  space_grid_dy : F;
  min_space_clearance : F;
  w_ball_distance : F;
  w_ball_motion : F;
  w_pass_likelihood : F;
  w_opponent_pressure : F;
  w_teammate_support : F;
  w_space_value : F;
  w_goal_proximity : F;
  w_role_prior : F;
  switch_penalty : F;
  persistence_bonus : F;
  clamp_scores : bool;
  score_min : F;
  score_max : F }.
End Types.

Arguments Vec2 : clear implicits.
Arguments Pitch : clear implicits.
Arguments RawBall : clear implicits.
Arguments RawFrame : clear implicits.
Arguments Frame : clear implicits.
Arguments FocusTarget : clear implicits.
Arguments CandidateEvent : clear implicits.
Arguments ScoredEvent : clear implicits.
Arguments PlayerFocusRecommendation : clear implicits.
Arguments AlgoConfig : clear implicits.

(* ================================================================== *)
(** * Frame canonicalisation ([core/canonicalize.py]) *)
(* ================================================================== *)

Section Canonicalize.
Context {F : Type}.

Definition msg_no_frames : string := "No frames provided.".

Definition msg_player_missing (pid : string) (idx : nat) : string :=
  "Player " ++ pid ++ " missing at frame " ++ show_nat idx
    ++ " and no previous position to fill.".

Definition msg_ball_missing (idx : nat) : string :=
  "Ball position missing at frame " ++ show_nat idx
    ++ " and cannot be inferred.".

(** The [for pid in valid_player_ids] loop of one frame: the frame's
    [players] dict and the updated [last_positions]. *)
Fixpoint fill_players (idx : nat) (rf_pos : dict string (Vec2 F))
    (pids : list string) (players last_positions : dict string (Vec2 F))
  : result (dict string (Vec2 F) * dict string (Vec2 F)) :=
  match pids with
  | [] => Ok (players, last_positions)
  | pid :: rest =>
      match dget pid rf_pos with
      | Some pos =>
          fill_players idx rf_pos rest (dset pid pos players)
            (dset pid pos last_positions)
      | None =>
          match dget pid last_positions with
          | None => Raise (ValueError (msg_player_missing pid idx))
          | Some pos =>
              fill_players idx rf_pos rest (dset pid pos players)
                last_positions
          end
      end
  end.

(** The ball part of one frame: the new [last_ball_pos] and
    [last_ball_owner]. *)
Definition fill_ball (idx : nat) (b : RawBall F)
    (last_ball_pos : option (Vec2 F)) (last_ball_owner : option string)
  : result (Vec2 F * option string) :=
  match ball_x b, ball_y b with
  | Some bx, Some by_ => Ok ((bx, by_), owner_id b)
  | _, _ =>
      match last_ball_pos with
      | None => Raise (ValueError (msg_ball_missing idx))
      | Some p => Ok (p, last_ball_owner)
      end
  end.

(** The [for idx, rf in enumerate(raw_frames)] loop, from frame [idx] on. *)
Fixpoint canon_loop (valid_player_ids : list string) (idx : nat)
    (raw_frames : list (RawFrame F))
    (last_positions : dict string (Vec2 F))
    (last_ball_pos : option (Vec2 F)) (last_ball_owner : option string)
  : result (list (Frame F)) :=
  match raw_frames with
  | [] => Ok []
  | rf :: rest =>
      '(players, last_positions') <-
        fill_players idx (player_pos rf) valid_player_ids [] last_positions ;;
      '(bpos, bowner) <- fill_ball idx (ball rf) last_ball_pos last_ball_owner ;;
      frames <- canon_loop valid_player_ids (S idx) rest last_positions'
                  (Some bpos) bowner ;;
      Ok (mkFrame idx players bpos bowner (rf_note rf) :: frames)
  end.

(** [canonicalize_frames].  (The set [valid_set] that the source builds
    from [valid_player_ids] is never read, so no set is iterated.) *)
Definition canonicalize_frames (raw_frames : list (RawFrame F))
  : result (list (Frame F) * list string) :=
  match raw_frames with
  | [] => Raise (ValueError msg_no_frames)
  | frame0 :: _ =>
      let valid_player_ids := dkeys (player_pos frame0) in
      frames <- canon_loop valid_player_ids 0 raw_frames [] None None ;;
      Ok (frames, valid_player_ids)
  end.
End Canonicalize.

(* ================================================================== *)
(** * Temporal smoothing ([baseline/smoothing.py]) *)
(* ================================================================== *)

Section Smoothing.
Context {F : Type} {N : Num F}.

Definition FocusTargetType_eqb (a b : FocusTargetType) : bool :=
  match a, b with
  | BALL, BALL | PLAYER, PLAYER | ZONE, ZONE | GOAL, GOAL => true
  | _, _ => false
  end.

(** [==] on [Optional[str]]. *)
Definition option_string_eqb (a b : option string) : bool :=
  match a, b with
  | None, None => true
  | Some s, Some t => String.eqb s t
  | _, _ => false
  end.

Definition _same_focus (a b : ScoredEvent F) : bool :=
  if negb (FocusTargetType_eqb (target_type (focus a)) (target_type (focus b)))
  then false
  else if negb (option_string_eqb (target_player_id (focus a))
                                  (target_player_id (focus b)))
  then false
  else
    let '(ax, ay) := anchor (focus a) in
    let '(bx, by_) := anchor (focus b) in
    nleb (nabs (nsub ax bx)) ntol && nleb (nabs (nsub ay by_)) ntol.

(** [list.sort(key=lambda e: e.score, reverse=True)]: a stable sort by
    descending score.  An event goes in front of the first later event whose
    score it is not below, so events of equal score keep their order.  This
    is the list that [list.sort] gives whenever the scores can be compared;
    with a NaN among them the comparisons are inconsistent, [list.sort]
    still gives a reordering, but which one depends on its algorithm. *)
Fixpoint insert_desc (e : ScoredEvent F) (l : list (ScoredEvent F))
  : list (ScoredEvent F) :=
  match l with
  | [] => [e]
  | x :: r => if nltb (score e) (score x) then x :: insert_desc e r else e :: l
  end.

Definition sort_desc (l : list (ScoredEvent F)) : list (ScoredEvent F) :=
  fold_right insert_desc [] l.

(** [sorted(scored_by_frame.keys())], each key with its value
    [scored_by_frame[i]]. *)
Fixpoint insert_key {V} (kv : nat * V) (l : list (nat * V)) : list (nat * V) :=
  match l with
  | [] => [kv]
  | x :: r => if Nat.ltb (fst x) (fst kv) then x :: insert_key kv r else kv :: l
  end.

Definition sorted_items {V} (d : dict nat V) : list (nat * V) :=
  fold_right insert_key [] d.

(** The new [ScoredEvent] built for [ev] in the loop over [events]. *)
Definition adjust (cfg : AlgoConfig F) (prev_primary ev : ScoredEvent F)
  : ScoredEvent F :=
  let delta :=
    if _same_focus ev prev_primary then persistence_bonus cfg
    else nopp (switch_penalty cfg) in
  mkScoredEvent (name ev) (nadd (score ev) delta) (focus ev)
    (reasons ev ++ [if nltb nzero delta then "persist_bonus"
                    else "switch_penalty"])
    (meta ev).

(** One iteration of the loop over frames: the value stored in [out[i]] and
    the new [prev_primary]. *)
Definition smooth_frame (cfg : AlgoConfig F)
    (prev_primary : option (ScoredEvent F)) (events : list (ScoredEvent F))
  : list (ScoredEvent F) * option (ScoredEvent F) :=
  match events with
  | [] => ([], prev_primary)
  | e0 :: _ =>
      match prev_primary with
      | None => (events, Some e0)
      | Some prev =>
          let adjusted := sort_desc (map (adjust cfg prev) events) in
          (adjusted, hd_error adjusted)
      end
  end.

Fixpoint smooth_loop (cfg : AlgoConfig F)
    (items : list (nat * list (ScoredEvent F)))
    (prev_primary : option (ScoredEvent F))
    (out : dict nat (list (ScoredEvent F)))
  : dict nat (list (ScoredEvent F)) :=
  match items with
  | [] => out
  | (i, events) :: rest =>
      let '(o, prev') := smooth_frame cfg prev_primary events in
      smooth_loop cfg rest prev' (dset i o out)
  end.

Definition apply_temporal_smoothing
    (scored_by_frame : dict nat (list (ScoredEvent F))) (cfg : AlgoConfig F)
  : dict nat (list (ScoredEvent F)) :=
  match scored_by_frame with
  | [] => scored_by_frame
  | _ => smooth_loop cfg (sorted_items scored_by_frame) None []
  end.

End Smoothing.

(* ================================================================== *)
(** * Final recommendations ([baseline/policy.py], lines 77-117) *)
(* ================================================================== *)

Section Recommend.
Context {F : Type} {N : Num F}.

Definition _fallback_focus (fr : Frame F) : FocusTarget F :=
  mkFocusTarget BALL (ball_pos fr) None (Some "ball").

(** [d.get(k, default)]. *)
Definition dget_default {K V} `{Key K} (k : K) (default : V) (d : dict K V) : V :=
  match dget k d with Some v => v | None => default end.

(** The body of the loop [for i in range(len(frames))]: the recommendation
    appended to [out[pid]]. *)
Definition recommend_at (cfg : AlgoConfig F) (frames : list (Frame F))
    (t_rel_list : list F)
    (scored_per_player : dict string (dict nat (list (ScoredEvent F))))
    (pid : string) (i : nat) : result (PlayerFocusRecommendation F) :=
  scored <- lookup pid scored_per_player ;;
  let ranked := dget_default i [] scored in
  match ranked with
  | [] =>
      fr <- index i frames ;;
      t <- index i t_rel_list ;;
      Ok (mkPlayerFocusRecommendation pid i t (_fallback_focus fr) nzero
            ["fallback_ball"] [])
  | primary_ev :: _ =>
      let topk := firstn (Z.to_nat (Z.max 1 (cfg_top_k cfg))) ranked in
      t <- index i t_rel_list ;;
      prim <- match topk with
              | e :: _ => Ok (focus e)
              | [] => fr <- index i frames ;; Ok (_fallback_focus fr)
              end ;;
      Ok (mkPlayerFocusRecommendation pid i t prim (score primary_ev)
            (reasons primary_ev) topk)
  end.

(** The loop [for pid in player_ids: for i in range(len(frames))], filling
    [out], which starts as [{pid: [] for pid in player_ids}]. *)
Definition final_recommendations (cfg : AlgoConfig F) (frames : list (Frame F))
    (t_rel_list : list F)
    (scored_per_player : dict string (dict nat (list (ScoredEvent F))))
    (player_ids : list string)
  : result (dict string (list (PlayerFocusRecommendation F))) :=
  let out0 := fold_left (fun d pid => dset pid [] d) player_ids [] in
  foldM (fun out pid =>
           recs <- mapM (recommend_at cfg frames t_rel_list scored_per_player pid)
                        (seq 0 (List.length frames)) ;;
           cur <- lookup pid out ;;
           Ok (dset pid (cur ++ recs) out))
        out0 player_ids.

End Recommend.

(* ================================================================== *)
(** * Python float and string primitives *)
(* ================================================================== *)

Open Scope float_scope.

(** The builtin [min(a, b)]: [b] when [b < a], else [a]. *)
Definition pymin (a b : float) : float := if b <? a then b else a.

(** The builtin [max(a, b)]: [b] when [b > a], else [a]. *)
Definition pymax (a b : float) : float := if a <? b then b else a.

(** [a / b]: [ZeroDivisionError] when [b] is [0.0] or [-0.0]. *)
Definition pydiv (a b : float) : result float :=
  if b =? 0 then Raise ZeroDivisionError else Ok (a / b).

(** [float(n)] for an [int], and the conversion of the [int] operand of a
    mixed product: the nearest binary64 number, ties to even.  Python raises
    [OverflowError] from about [2**1024] on, where this gives an infinity. *)
Definition float_of_Z (z : Z) : float :=
  match z with
  | Z0 => 0
  | _ => SF2Prim (SpecFloat.binary_normalize FloatOps.prec FloatOps.emax z 0
                    false)
  end.

(** [str(n)] for a non-negative integer. *)
Definition show_N (n : N) : string := NilEmpty.string_of_uint (N.to_uint n).

Fixpoint zeros (n : nat) : string :=
  match n with O => EmptyString | S k => String "0" (zeros k) end.

(** The digits of [q] with a decimal point in front of the last [digits]
    ones: [q / 10**digits] printed with [digits] decimals. *)
Definition fixed_digits (digits : nat) (q : N) : string :=
  let s := show_N q in
  let s := (zeros (S digits - String.length s) ++ s)%string in
  let k := (String.length s - digits)%nat in
  match digits with
  | O => s
  | _ => (substring 0 k s ++ "." ++ substring k digits s)%string
  end.

(** [m * 2**e * 10**digits] rounded to the nearest integer, ties to even. *)
Definition scaled_round (digits : nat) (m : positive) (e : Z) : N :=
  let num := (Zpos m * 10 ^ Z.of_nat digits)%Z in
  match e with
  | Zneg p =>
      let den := (2 ^ Zpos p)%Z in
      let q := (num / den)%Z in
      let r := (num mod den)%Z in
      let up := orb (2 * r >? den)%Z (andb (2 * r =? den)%Z (Z.odd q)) in
      Z.to_N (if up then q + 1 else q)
  | _ => Z.to_N (num * 2 ^ e)
  end.

(** [format(v, ".<digits>f")], and [format(v, "+.<digits>f")] when [plus]. *)
Definition format_f (plus : bool) (digits : nat) (v : float) : string :=
  let sign (neg : bool) := if neg then "-" else if plus then "+" else "" in
  match Prim2SF v with
  | S754_nan => (sign false ++ "nan")%string
  | S754_infinity s => (sign s ++ "inf")%string
  | S754_zero s => (sign s ++ fixed_digits digits 0)%string
  | S754_finite s m e => (sign s ++ fixed_digits digits (scaled_round digits m e))%string
  end.

(** [str.upper] and [str.strip] on ASCII strings: a string is its list of
    bytes, and characters outside ASCII, which Python treats as Unicode, are
    left alone. *)
Definition upper_ascii (c : ascii) : ascii :=
  let n := nat_of_ascii c in
  if ((97 <=? n) && (n <=? 122))%nat then ascii_of_nat (n - 32) else c.

Fixpoint upper (s : string) : string :=
  match s with
  | EmptyString => EmptyString
  | String c r => String (upper_ascii c) (upper r)
  end.

Definition is_space (c : ascii) : bool :=
  let n := nat_of_ascii c in
  (((9 <=? n) && (n <=? 13)) || ((28 <=? n) && (n <=? 32)))%nat.

Fixpoint lstrip (s : string) : string :=
  match s with
  | EmptyString => EmptyString
  | String c r => if is_space c then lstrip r else s
  end.

Fixpoint rstrip (s : string) : string :=
  match s with
  | EmptyString => EmptyString
  | String c r =>
      match rstrip r with
      | EmptyString => if is_space c then EmptyString else String c EmptyString
      | r' => String c r'
      end
  end.

Definition strip (s : string) : string := rstrip (lstrip s).

(** [enumerate(l)]. *)
Definition enumerate {A} (l : list A) : list (nat * A) :=
  combine (seq 0 (List.length l)) l.

(* ================================================================== *)
(** * Geometry ([core/geometry.py]) *)
(* ================================================================== *)

Module Geometry.

(** [(dx * dx + dy * dy) ** 0.5].  The power [** 0.5] is taken as the
    correctly rounded square root; the C library's [pow], which Python
    calls, may differ from it in the last bit on some arguments. *)
Definition dist (a b : Vec2 float) : float :=
  let dx := fst a - fst b in
  let dy := snd a - snd b in
  sqrt (dx * dx + dy * dy).

Definition norm (v : Vec2 float) : float :=
  sqrt (fst v * fst v + snd v * snd v).

Definition sub (a b : Vec2 float) : Vec2 float :=
  (fst a - fst b, snd a - snd b).

Definition dot (a b : Vec2 float) : float :=
  fst a * fst b + snd a * snd b.

Definition unit (v : Vec2 float) : Vec2 float :=
  let n := norm v in
  if n <? 1e-6 then (0, 0) else (fst v / n, snd v / n).

Definition attacking_goal_center (pitch : Pitch float) (attack_direction : Z)
  : Vec2 float :=
  let x := if (attack_direction >? 0)%Z then pitch_length pitch else 0 in
  let y := pitch_width pitch * 0.5 in
  (x, y).

Definition is_ahead (a b : Vec2 float) (attack_direction : Z) : bool :=
  0 <? (fst a - fst b) * float_of_Z attack_direction.

Definition in_forward_cone (origin target : Vec2 float) (attack_direction : Z)
    (cos_threshold : float) : bool :=
  let forward := (float_of_Z attack_direction, 0) in
  let v := sub target origin in
  let v_hat := unit v in
  cos_threshold <=? dot v_hat forward.

End Geometry.

Import Geometry.

(* ================================================================== *)
(** * Pseudo-time and velocities ([core/timebase.py]) *)
(* ================================================================== *)

(** The inner loop of [infer_pseudotime]: the largest displacement between
    [prev] and [cur]. *)
Definition max_displacement (prev cur : Frame float) : result float :=
  foldM (fun dmax '(pid, (x, y)) =>
           '(x0, y0) <- lookup pid (players prev) ;;
           let dx := x - x0 in
           let dy := y - y0 in
           let d := sqrt (dx * dx + dy * dy) in
           Ok (if dmax <? d then d else dmax))
        0 (players cur).

(** The loop [for i in range(1, n)] of [infer_pseudotime], from the frame
    after [prev] on, with [t_prev = t[i - 1]]. *)
Fixpoint pseudotime_loop (cfg : AlgoConfig float) (prev : Frame float)
    (t_prev : float) (rest : list (Frame float))
  : result (list float * list float) :=
  match rest with
  | [] => Ok ([], [])
  | cur :: more =>
      dmax <- max_displacement prev cur ;;
      let raw_dt := dmax / pymax (max_player_speed cfg) 1e-6 in
      let dt_i := pymax (min_dt cfg) raw_dt in
      let t_i := t_prev + dt_i in
      '(dts, ts) <- pseudotime_loop cfg cur t_i more ;;
      Ok (dt_i :: dts, t_i :: ts)
  end.

Definition infer_pseudotime (frames : list (Frame float)) (cfg : AlgoConfig float)
  : result (list float * list float) :=
  match frames with
  | [] => Raise (ValueError "No frames provided.")
  | f0 :: rest =>
      '(dts, ts) <- pseudotime_loop cfg f0 0 rest ;;
      Ok (0 :: dts, 0 :: ts)
  end.

(** The dict [v_i] of one frame. *)
Definition frame_velocities (prev cur : Frame float) (denom : float)
  : result (dict string (Vec2 float)) :=
  foldM (fun v_i '(pid, (x, y)) =>
           '(x0, y0) <- lookup pid (players prev) ;;
           Ok (dset pid ((x - x0) / denom, (y - y0) / denom) v_i))
        [] (players cur).

(** The loop [for i in range(1, n)] of [compute_velocities]. *)
Fixpoint velocities_loop (i : nat) (prev : Frame float)
    (rest : list (Frame float)) (dt : list float)
    (v_by_frame : dict nat (dict string (Vec2 float)))
  : result (dict nat (dict string (Vec2 float))) :=
  match rest with
  | [] => Ok v_by_frame
  | cur :: more =>
      dt_i <- index i dt ;;
      let denom := pymax dt_i 1e-6 in
      v_i <- frame_velocities prev cur denom ;;
      velocities_loop (S i) cur more dt (dset i v_i v_by_frame)
  end.

Definition compute_velocities (frames : list (Frame float)) (dt : list float)
  : result (dict nat (dict string (Vec2 float))) :=
  if negb (List.length frames =? List.length dt)%nat
  then Raise (ValueError "frames and dt must have same length.")
  else
    match frames with
    | [] => Raise IndexError
    | f0 :: rest =>
        let v0 := fold_left (fun d pid => dset pid (0, 0) d)
                    (dkeys (players f0)) [] in
        velocities_loop 1 f0 rest dt (dset 0%nat v0 [])
    end.

(* ================================================================== *)
(** * Proximity graph ([baseline/graph.py]) *)
(* ================================================================== *)

Record GraphNode := mkGraphNode {
  node_id : string;
  node_team : string;
  node_role : string;
  node_pos : Vec2 float;
  node_vel : Vec2 float }.

Inductive EdgeType := TEAM_NEAR | OPP_NEAR | BALL_LINK.

Record GraphEdge := mkGraphEdge {
  src : string;
  dst : string;
  etype : EdgeType;
  edge_features : dict string float }.

Record FrameGraph := mkFrameGraph {
  graph_frame_idx : nat;
  nodes : dict string GraphNode;
  edges : list GraphEdge;
  graph_ball_pos : Vec2 float;
  graph_t_rel : float }.

(** The per-player summary dict, with its five fixed keys. *)
Record Summary := mkSummary {
  pressure_n : float;
  min_opp_d : float;
  support_n : float;
  min_team_d : float;
  ball_d : float }.

(** The pairwise proximity edges of one frame; [pids[a]] and
    [fr.players[pids[a]]] are the [a]-th item of [fr.players]. *)
Definition proximity_edges (cfg : AlgoConfig float)
    (player_team : dict string string) (items : list (string * Vec2 float))
  : list GraphEdge :=
  flat_map (fun '(a, (pa, posa)) =>
    let ta := dget_default pa "A"%string player_team in
    flat_map (fun '(b, (pb, posb)) =>
      if (a =? b)%nat then []
      else
        let tb := dget_default pb "A"%string player_team in
        let d := dist posa posb in
        if String.eqb ta tb then
          if d <=? teammate_radius cfg
          then [mkGraphEdge pa pb TEAM_NEAR [("d"%string, d)]]
          else []
        else
          if d <=? opponent_radius cfg
          then [mkGraphEdge pa pb OPP_NEAR [("d"%string, d)]]
          else [])
      (enumerate items))
    (enumerate items).

Definition ball_link_edges (fr : Frame float) : list GraphEdge :=
  let '(bx, by_) := ball_pos fr in
  map (fun '(pid, p) =>
         let d := dist p (bx, by_) in
         mkGraphEdge pid pid BALL_LINK
           [("ball_d"%string, d); ("ball_x"%string, bx); ("ball_y"%string, by_)])
      (players fr).

(** The body of the loop [for fr in frames] of [build_frame_graphs]. *)
Definition build_frame_graph (t_rel_list : list float)
    (v_by_frame : dict nat (dict string (Vec2 float)))
    (player_team player_role : dict string string) (cfg : AlgoConfig float)
    (fr : Frame float) : result FrameGraph :=
  let i := frame_idx fr in
  nodes <- foldM (fun nodes '(pid, p) =>
                    let team := dget_default pid "A"%string player_team in
                    let role := dget_default pid ""%string player_role in
                    v_i <- lookup_idx i v_by_frame ;;
                    vel <- lookup pid v_i ;;
                    Ok (dset pid (mkGraphNode pid team role p vel) nodes))
                 [] (players fr) ;;
  let edges := proximity_edges cfg player_team (players fr)
               ++ ball_link_edges fr in
  t <- index i t_rel_list ;;
  Ok (mkFrameGraph i nodes edges (ball_pos fr) t).

Definition build_frame_graphs (frames : list (Frame float))
    (t_rel_list : list float)
    (v_by_frame : dict nat (dict string (Vec2 float)))
    (player_team player_role : dict string string) (cfg : AlgoConfig float)
  : result (list FrameGraph) :=
  mapM (build_frame_graph t_rel_list v_by_frame player_team player_role cfg)
       frames.

(** The body of the loop [for e in graph.edges] of
    [summarize_pressure_support]. *)
Definition scan_edge (out : dict string Summary) (e : GraphEdge)
  : result (dict string Summary) :=
  match etype e with
  | OPP_NEAR =>
      d <- lookup "d" (edge_features e) ;;
      s <- lookup (src e) out ;;
      let s1 := mkSummary (pressure_n s + 1) (min_opp_d s) (support_n s)
                  (min_team_d s) (ball_d s) in
      let s2 := if d <? min_opp_d s1
                then mkSummary (pressure_n s1) d (support_n s1)
                       (min_team_d s1) (ball_d s1)
                else s1 in
      Ok (dset (src e) s2 out)
  | TEAM_NEAR =>
      d <- lookup "d" (edge_features e) ;;
      s <- lookup (src e) out ;;
      let s1 := mkSummary (pressure_n s) (min_opp_d s) (support_n s + 1)
                  (min_team_d s) (ball_d s) in
      let s2 := if d <? min_team_d s1
                then mkSummary (pressure_n s1) (min_opp_d s1) (support_n s1)
                       d (ball_d s1)
                else s1 in
      Ok (dset (src e) s2 out)
  | BALL_LINK =>
      bd <- lookup "ball_d" (edge_features e) ;;
      s <- lookup (src e) out ;;
      Ok (dset (src e)
            (mkSummary (pressure_n s) (min_opp_d s) (support_n s)
               (min_team_d s) bd) out)
  end.

Definition summarize_pressure_support (graph : FrameGraph)
    (cfg : AlgoConfig float) : result (dict string Summary) :=
  let out0 :=
    fold_left (fun out '(pid, n) =>
                 dset pid (mkSummary 0 infinity 0 infinity
                             (dist (node_pos n) (graph_ball_pos graph))) out)
              (nodes graph) [] in
  foldM scan_edge out0 (edges graph).

(* ================================================================== *)
(** * Candidate generation ([baseline/candidates.py]) *)
(* ================================================================== *)

Definition _nearest_opponent (graph : FrameGraph) (player_id : string)
    (player_team : dict string string) : result (option string * float) :=
  let team := dget_default player_id "A"%string player_team in
  node <- lookup player_id (nodes graph) ;;
  let pos := node_pos node in
  Ok (fold_left
        (fun '(best_id, best_d) '(other_id, n) =>
           if String.eqb other_id player_id then (best_id, best_d)
           else if String.eqb (dget_default other_id "A"%string player_team) team
           then (best_id, best_d)
           else
             let d := dist pos (node_pos n) in
             if d <? best_d then (Some other_id, d) else (best_id, best_d))
        (nodes graph) (None, infinity)).

Definition _best_support_teammate (graph : FrameGraph) (player_id : string)
    (player_team : dict string string) (cfg : AlgoConfig float)
  : result (option string * float) :=
  let team := dget_default player_id "A"%string player_team in
  node <- lookup player_id (nodes graph) ;;
  let pos := node_pos node in
  Ok (fold_left
        (fun '(best_id, best_score) '(other_id, n) =>
           if String.eqb other_id player_id then (best_id, best_score)
           else if negb (String.eqb (dget_default other_id "A"%string player_team)
                                    team)
           then (best_id, best_score)
           else
             let d := dist pos (node_pos n) in
             let ahead :=
               if is_ahead (node_pos n) pos (attack_direction cfg) then 1 else 0 in
             let cone :=
               if in_forward_cone pos (node_pos n) (attack_direction cfg) 0.3
               then 1 else 0 in
             let score := 2.0 * ahead + 1.0 * cone - 0.15 * d in
             if best_score <? score then (Some other_id, score)
             else (best_id, best_score))
        (nodes graph) (None, -1e9)).

(** The clearance of [anchor]: the distance to the nearest opponent of
    [player_id], [inf] when there is none. *)
Definition anchor_clearance (graph : FrameGraph) (player_id : string)
    (player_team : dict string string) (anchor : Vec2 float) : float :=
  fold_left
    (fun min_opp '(oid, on) =>
       if String.eqb oid player_id then min_opp
       else if String.eqb (dget_default oid "A"%string player_team)
                          (dget_default player_id "A"%string player_team)
       then min_opp
       else
         let d := dist anchor (node_pos on) in
         if d <? min_opp then d else min_opp)
    (nodes graph) infinity.

(** The inner loop [while y <= y1 + 1e-6] of the grid search at column [x];
    [best] is [(best_anchor, best_value)]. *)
Fixpoint grid_column (fuel : nat) (graph : FrameGraph) (pitch : Pitch float)
    (player_id : string) (player_team : dict string string)
    (cfg : AlgoConfig float) (pos : Vec2 float) (x y y1 : float)
    (best : option (Vec2 float) * float)
  : result (option (Vec2 float) * float) :=
  match fuel with
  | O => OutOfFuel
  | S fuel' =>
      if y <=? y1 + 1e-6 then
        let anchor := (x, y) in
        let min_opp := anchor_clearance graph player_id player_team anchor in
        if min_opp <? min_space_clearance cfg then
          grid_column fuel' graph pitch player_id player_team cfg pos x
            (y + space_grid_dy cfg) y1 best
        else
          q <- pydiv (fst anchor) (pitch_length pitch) ;;
          let forward_progress :=
            if (attack_direction cfg >? 0)%Z then q else 1.0 - q in
          let d_self := dist anchor pos in
          let value := 1.5 * min_opp + 8.0 * forward_progress - 0.25 * d_self in
          let best' := if snd best <? value then (Some anchor, value) else best in
          grid_column fuel' graph pitch player_id player_team cfg pos x
            (y + space_grid_dy cfg) y1 best'
      else Ok best
  end.

(** The outer loop [while x <= x1 + 1e-6]. *)
Fixpoint grid_rows (fuel : nat) (graph : FrameGraph) (pitch : Pitch float)
    (player_id : string) (player_team : dict string string)
    (cfg : AlgoConfig float) (pos : Vec2 float) (x x1 y0 y1 : float)
    (best : option (Vec2 float) * float)
  : result (option (Vec2 float) * float) :=
  match fuel with
  | O => OutOfFuel
  | S fuel' =>
      if x <=? x1 + 1e-6 then
        best' <- grid_column fuel graph pitch player_id player_team cfg pos
                   x y0 y1 best ;;
        grid_rows fuel' graph pitch player_id player_team cfg pos
          (x + space_grid_dx cfg) x1 y0 y1 best'
      else Ok best
  end.

Definition _best_open_space_anchor (fuel : nat) (graph : FrameGraph)
    (pitch : Pitch float) (player_id : string)
    (player_team : dict string string) (cfg : AlgoConfig float)
  : result (option (Vec2 float) * float) :=
  node <- lookup player_id (nodes graph) ;;
  let pos := node_pos node in
  let '(px, py) := pos in
  let L := 24.0 in
  let '(x0, x1) :=
    if (attack_direction cfg >? 0)%Z
    then (px, pymin (pitch_length pitch) (px + L))
    else (pymax 0.0 (px - L), px) in
  let '(y0, y1) := (pymax 0.0 (py - 18.0), pymin (pitch_width pitch) (py + 18.0)) in
  '(best_anchor, best_value) <-
    grid_rows fuel graph pitch player_id player_team cfg pos x0 x1 y0 y1
      (None, -1e9) ;;
  match best_anchor with
  | None => Ok (None, -1e9)
  | Some a => Ok (Some a, best_value)
  end.

Definition generate_candidates_for_player (fuel : nat) (graph : FrameGraph)
    (pitch : Pitch float) (player_id : string)
    (player_team : dict string string) (cfg : AlgoConfig float)
    (summaries : dict string Summary) : result (list (CandidateEvent float)) :=
  if negb (dmem player_id (nodes graph)) then Ok []
  else
    node <- lookup player_id (nodes graph) ;;
    let pos := node_pos node in
    let '(bx, by_) := graph_ball_pos graph in
    (* 1) Ball focus *)
    out1 <-
      (if enable_ball_focus cfg then
         s <- lookup player_id summaries ;;
         Ok [mkCandidateEvent "BALL_NEARBY"
               (mkFocusTarget BALL (bx, by_) None (Some "ball"%string))
               [("ball_d"%string, ball_d s)] []]
       else Ok []) ;;
    (* 2) Nearest opponent pressure *)
    out2 <-
      (if enable_marking_threats cfg then
         '(opp_id, opp_d) <- _nearest_opponent graph player_id player_team ;;
         match opp_id with
         | Some oid =>
             on <- lookup oid (nodes graph) ;;
             s <- lookup player_id summaries ;;
             Ok [mkCandidateEvent "OPP_PRESSURE"
                   (mkFocusTarget PLAYER (node_pos on) (Some oid)
                      (Some "press"%string))
                   [("opp_d"%string, opp_d); ("pressure_n"%string, pressure_n s)]
                   [("opponent_id"%string, oid)]]
         | None => Ok []
         end
       else Ok []) ;;
    (* 3) Best teammate support option *)
    out3 <-
      (if enable_pass_targets cfg then
         '(mate_id, mate_score) <-
           _best_support_teammate graph player_id player_team cfg ;;
         match mate_id with
         | Some mid =>
             mn <- lookup mid (nodes graph) ;;
             s <- lookup player_id summaries ;;
             Ok [mkCandidateEvent "TEAM_SUPPORT"
                   (mkFocusTarget PLAYER (node_pos mn) (Some mid)
                      (Some "support"%string))
                   [("mate_score"%string, mate_score);
                    ("support_n"%string, support_n s)]
                   [("teammate_id"%string, mid)]]
         | None => Ok []
         end
       else Ok []) ;;
    (* 4) Open forward space target *)
    out4 <-
      (if enable_space_targets cfg then
         '(space_anchor, space_value) <-
           _best_open_space_anchor fuel graph pitch player_id player_team cfg ;;
         match space_anchor with
         | Some a =>
             Ok [mkCandidateEvent "OPEN_SPACE"
                   (mkFocusTarget ZONE a None (Some "space"%string))
                   [("space_value"%string, space_value)] []]
         | None => Ok []
         end
       else Ok []) ;;
    (* 5) Goal focus *)
    let out5 :=
      if enable_goal_focus cfg then
        let goal := attacking_goal_center pitch (attack_direction cfg) in
        [mkCandidateEvent "GOAL"
           (mkFocusTarget GOAL goal None (Some "goal"%string))
           [("goal_d"%string, dist pos goal)] []]
      else [] in
    Ok (out1 ++ out2 ++ out3 ++ out4 ++ out5).

(* ================================================================== *)
(** * Scoring ([baseline/scoring.py]) *)
(* ================================================================== *)

(** [r in {...}] for a set of string literals. *)
Definition str_in (r : string) (l : list string) : bool :=
  existsb (String.eqb r) l.

Definition _role_prior (role candidate_name : string) : float :=
  let r := strip (upper role) in
  if String.eqb candidate_name "OPP_PRESSURE"
     && str_in r ["GK"; "CB"; "LB"; "RB"]%string then 0.8
  else if String.eqb candidate_name "OPP_PRESSURE"
          && str_in r ["ST"; "LW"; "RW"]%string then 0.2
  else if String.eqb candidate_name "TEAM_SUPPORT"
          && str_in r ["CM"; "CDM"]%string then 0.7
  else if String.eqb candidate_name "OPEN_SPACE"
          && str_in r ["ST"; "LW"; "RW"; "CM"]%string then 0.5
  else if String.eqb candidate_name "GOAL"
          && str_in r ["ST"; "LW"; "RW"]%string then 0.8
  else 0.0.

Definition _score_one (graph : FrameGraph) (player_id : string)
    (pos : Vec2 float) (c : CandidateEvent float)
    (summaries : dict string Summary) (cfg : AlgoConfig float) (role : string)
  : result (float * list string) :=
  let s := 0.0 in
  let reasons : list string := [] in
  (* Shared context *)
  sm <- lookup player_id summaries ;;
  let ball_d := ball_d sm in
  let pressure_n := pressure_n sm in
  let min_opp_d := min_opp_d sm in
  let support_n := support_n sm in
  (* Role prior *)
  let role_prior := _role_prior role (ce_name c) in
  let '(s, reasons) :=
    if negb (role_prior =? 0.0)
    then (s + w_role_prior cfg * role_prior,
          reasons ++ [("role_prior(" ++ role ++ ")="
                       ++ format_f true 2 role_prior)%string])
    else (s, reasons) in
  (* Candidate-specific scoring *)
  if String.eqb (ce_name c) "BALL_NEARBY" then
    let s := s + w_ball_distance cfg * ball_d in
    let reasons := reasons ++ [("ball_d=" ++ format_f false 2 ball_d)%string] in
    if in_forward_cone pos (graph_ball_pos graph) (attack_direction cfg) 0.0
    then Ok (s + w_ball_motion cfg * 0.6,
             reasons ++ ["ball_in_forward_half"%string])
    else Ok (s, reasons)
  else if String.eqb (ce_name c) "OPP_PRESSURE" then
    let opp_d := dget_default "opp_d"%string min_opp_d (features c) in
    let '(s, reasons) :=
      if opp_d <? infinity
      then (s + w_opponent_pressure cfg * (1.0 / pymax opp_d 0.5),
            reasons ++ [("opp_d=" ++ format_f false 2 opp_d)%string])
      else (s, reasons) in
    let s := s + w_opponent_pressure cfg * 0.2 * pressure_n in
    Ok (s, reasons ++ [("pressure_n=" ++ format_f false 0 pressure_n)%string])
  else if String.eqb (ce_name c) "TEAM_SUPPORT" then
    let mate_score := dget_default "mate_score"%string 0.0 (features c) in
    let s := s + w_teammate_support cfg * mate_score in
    let reasons :=
      reasons ++ [("mate_score=" ++ format_f false 2 mate_score)%string] in
    let s := s + w_teammate_support cfg * 0.1 * support_n in
    let reasons :=
      reasons ++ [("support_n=" ++ format_f false 0 support_n)%string] in
    if ball_d <? 18.0
    then Ok (s + w_pass_likelihood cfg * (1.0 - ball_d / 18.0),
             reasons ++ ["ball_close_boost_for_pass"%string])
    else Ok (s, reasons)
  else if String.eqb (ce_name c) "OPEN_SPACE" then
    let space_value := dget_default "space_value"%string 0.0 (features c) in
    let s := s + w_space_value cfg * space_value in
    let reasons :=
      reasons ++ [("space_value=" ++ format_f false 2 space_value)%string] in
    if is_ahead (anchor (ce_focus c)) pos (attack_direction cfg)
    then Ok (s + w_space_value cfg * 0.5,
             reasons ++ ["space_ahead_bonus"%string])
    else Ok (s, reasons)
  else if String.eqb (ce_name c) "GOAL" then
    let goal_d :=
      dget_default "goal_d"%string (dist pos (anchor (ce_focus c)))
        (features c) in
    let s := s + w_goal_proximity cfg * (1.0 / pymax goal_d 1.0) in
    let reasons := reasons ++ [("goal_d=" ++ format_f false 2 goal_d)%string] in
    if ball_d <? 25.0
    then Ok (s + w_goal_proximity cfg * 0.4,
             reasons ++ ["ball_close_goal_bonus"%string])
    else Ok (s, reasons)
  else
    Ok (s, reasons ++ ["unknown_candidate"%string]).

(** [max(cfg.score_min, min(cfg.score_max, s))]. *)
Definition clamp_score (cfg : AlgoConfig float) (s : float) : float :=
  pymax (score_min cfg) (pymin (score_max cfg) s).

(** The body of the loop [for c in candidates] of [score_candidates]. *)
Definition score_event (graph : FrameGraph) (player_id : string)
    (pos : Vec2 float) (summaries : dict string Summary)
    (cfg : AlgoConfig float) (role : string) (c : CandidateEvent float)
  : result (ScoredEvent float) :=
  '(s, reasons) <- _score_one graph player_id pos c summaries cfg role ;;
  let s := if clamp_scores cfg then clamp_score cfg s else s in
  Ok (mkScoredEvent (ce_name c) s (ce_focus c) reasons (ce_meta c)).

Definition score_candidates (graph : FrameGraph) (player_id : string)
    (candidates : list (CandidateEvent float))
    (summaries : dict string Summary) (cfg : AlgoConfig float) (role : string)
  : result (list (ScoredEvent float)) :=
  if negb (dmem player_id (nodes graph)) then Ok []
  else
    node <- lookup player_id (nodes graph) ;;
    let pos := node_pos node in
    scored <- mapM (score_event graph player_id pos summaries cfg role)
                candidates ;;
    Ok (sort_desc scored).

(* ================================================================== *)
(** * Policy orchestrator ([baseline/policy.py]) and public API ([api.py]) *)
(* ================================================================== *)

(** The body of the loop [for g in graphs]: score every player at [g]. *)
Definition score_frame (fuel : nat) (pitch : Pitch float)
    (player_team player_role : dict string string) (cfg : AlgoConfig float)
    (player_ids : list string)
    (scored_per_player : dict string (dict nat (list (ScoredEvent float))))
    (g : FrameGraph)
  : result (dict string (dict nat (list (ScoredEvent float)))) :=
  summaries <- summarize_pressure_support g cfg ;;
  foldM (fun spp pid =>
           let role := dget_default pid ""%string player_role in
           cands <- generate_candidates_for_player fuel g pitch pid player_team
                      cfg summaries ;;
           scored <- score_candidates g pid cands summaries cfg role ;;
           inner <- lookup pid spp ;;
           Ok (dset pid (dset (graph_frame_idx g) scored inner) spp))
        scored_per_player player_ids.

Definition run_baseline_policy (fuel : nat) (frames : list (Frame float))
    (pitch : Pitch float) (player_team player_role : dict string string)
    (cfg : AlgoConfig float)
  : result (dict string (list (PlayerFocusRecommendation float))) :=
  '(dt, t_rel) <- infer_pseudotime frames cfg ;;
  v_by_frame <- compute_velocities frames dt ;;
  graphs <- build_frame_graphs frames t_rel v_by_frame player_team player_role
              cfg ;;
  (* Prepare per-player per-frame scored events *)
  f0 <- index 0 frames ;;
  let player_ids := dkeys (players f0) in
  let scored_per_player :=
    fold_left (fun d pid => dset pid [] d) player_ids [] in
  scored_per_player <-
    foldM (score_frame fuel pitch player_team player_role cfg player_ids)
          scored_per_player graphs ;;
  (* Smoothing per player *)
  scored_per_player <-
    foldM (fun spp pid =>
             inner <- lookup pid spp ;;
             Ok (dset pid (apply_temporal_smoothing inner cfg) spp))
          scored_per_player player_ids ;;
  (* Final recommendations *)
  final_recommendations cfg frames t_rel scored_per_player player_ids.

(** The parsed tactic metadata that the pipeline reads: the pitch and the
    player table. *)
Record TacticMeta := mkTacticMeta {
  tm_pitch : Pitch float;
  tm_players : dict string PlayerMeta }.

(** The loop [for pid in valid_player_ids] that builds [player_team] and
    [player_role]; a player missing from the metadata is of team A, with no
    role. *)
Definition player_tables (meta : TacticMeta) (valid_player_ids : list string)
  : dict string string * dict string string :=
  fold_left
    (fun '(player_team, player_role) pid =>
       match dget pid (tm_players meta) with
       | None => (dset pid "A"%string player_team,
                  dset pid ""%string player_role)
       | Some pmeta => (dset pid (pm_team pmeta) player_team,
                        dset pid (pm_role pmeta) player_role)
       end)
    valid_player_ids ([], []).

Definition msg_no_frames_parsed : string :=
  "No frames parsed from tactic data.".

(** [recommend_player_focus] from the parsed metadata and from the list that
    the loop of [_parse_raw_frames] has built (tactic selection, schema check
    and the reading of JSON values are the caller's).  The check of the
    empty list is the last statement of [_parse_raw_frames]. *)
Definition recommend_player_focus (fuel : nat) (meta : TacticMeta)
    (raw_frames : list (RawFrame float)) (cfg : AlgoConfig float)
  : result (dict string (list (PlayerFocusRecommendation float))) :=
  match raw_frames with
  | [] => Raise (ValueError msg_no_frames_parsed)
  | _ :: _ =>
      '(frames, valid_player_ids) <- canonicalize_frames raw_frames ;;
      let '(player_team, player_role) := player_tables meta valid_player_ids in
      run_baseline_policy fuel frames (tm_pitch meta) player_team player_role
        cfg
  end.

(** The defaults of [AlgoConfig]. *)
Definition default_config : AlgoConfig float := {|
  cfg_top_k := 1;
  attacking_team := "A";
  attack_direction := 1;
  max_player_speed := 8.0;
  min_dt := 0.2;
  teammate_radius := 12.0;
  opponent_radius := 10.0;
  enable_ball_focus := true;
  enable_pass_targets := true;
  enable_marking_threats := true;
  enable_space_targets := true;
  enable_goal_focus := true;
  space_grid_dx := 6.0;
  space_grid_dy := 6.0;
  min_space_clearance := 4.0;
  w_ball_distance := -1.0;
  w_ball_motion := 1.5;
  w_pass_likelihood := 3.0;
  w_opponent_pressure := 2.0;
  w_teammate_support := 0.8;
  w_space_value := 1.2;
  w_goal_proximity := 2.5;
  w_role_prior := 1.0;
  switch_penalty := 1.5;
  persistence_bonus := 0.8;
  clamp_scores := true;
  score_min := -10.0;
  score_max := 10.0
|}.

(* ================================================================== *)
(** * Properties stated about the pipeline *)
(* ================================================================== *)

Close Scope float_scope.

Section CanonProps.
Context {F : Type}.

(** The position the canonicaliser gives [pid]: the raw frame's when it
    has one, else the one remembered in [last]. *)
Definition fill_value (rf_pos last : dict string (Vec2 F)) (pid : string)
  : option (Vec2 F) :=
  match dget pid rf_pos with
  | Some p => Some p
  | None => dget pid last
  end.

(** The raw ball has no usable position: [x] or [y] is [None]. *)
Definition ball_missing (rf : RawFrame F) : bool :=
  match ball_x (ball rf), ball_y (ball rf) with
  | Some _, Some _ => false
  | _, _ => true
  end.

(** The player set [P]: the keys of raw frame 0. *)
Definition frame0_players (raw_frames : list (RawFrame F)) : list string :=
  match raw_frames with
  | [] => []
  | frame0 :: _ => dkeys (player_pos frame0)
  end.

(** Player [pid] of [P] has no position at frame [i] and no earlier frame
    supplied one. *)
Definition player_unfillable (raw_frames : list (RawFrame F)) (pid : string)
    (i : nat) : Prop :=
  In pid (frame0_players raw_frames) /\ i < List.length raw_frames /\
  forall j rf, j <= i -> nth_error raw_frames j = Some rf ->
               dget pid (player_pos rf) = None.

(** The ball position is missing at frame [i] and no earlier frame
    established one. *)
Definition ball_unresolved (raw_frames : list (RawFrame F)) (i : nat) : Prop :=
  i < List.length raw_frames /\
  forall j rf, j <= i -> nth_error raw_frames j = Some rf ->
               ball_missing rf = true.

Definition bad_shape (raw_frames : list (RawFrame F)) : Prop :=
  raw_frames = []
  \/ (exists pid i, player_unfillable raw_frames pid i)
  \/ (exists i, ball_unresolved raw_frames i).

(** What a validation error says about the input it was raised on. *)
Definition identifies (raw_frames : list (RawFrame F)) (e : exn) : Prop :=
  (raw_frames = [] /\ e = ValueError msg_no_frames)
  \/ (exists pid i, player_unfillable raw_frames pid i
                    /\ e = ValueError (msg_player_missing pid i))
  \/ (exists i, ball_unresolved raw_frames i
                /\ e = ValueError (msg_ball_missing i)).

End CanonProps.

Section SmoothingProps.
Context {F : Type} {N : Num F}.

(** [ev'] is a smoothed version of [ev]: same name, focus target and
    metadata; score and reasons either unchanged, or the score moved by
    exactly [+persistence_bonus] or [-switch_penalty] and one tag appended
    to the reasons. *)
Definition smoothed_version (cfg : AlgoConfig F) (ev ev' : ScoredEvent F)
  : Prop :=
  name ev' = name ev /\ focus ev' = focus ev /\ meta ev' = meta ev
  /\ ((score ev' = score ev /\ reasons ev' = reasons ev)
      \/ (exists tag,
            (tag = "persist_bonus" \/ tag = "switch_penalty")
            /\ reasons ev' = reasons ev ++ [tag]
            /\ (score ev' = nadd (score ev) (persistence_bonus cfg)
                \/ score ev' = nadd (score ev) (nopp (switch_penalty cfg))))).

(** As [smoothed_version], the unchanged case left out. *)
Definition adjusted_version (cfg : AlgoConfig F) (ev ev' : ScoredEvent F)
  : Prop :=
  name ev' = name ev /\ focus ev' = focus ev /\ meta ev' = meta ev
  /\ exists tag,
      (tag = "persist_bonus" \/ tag = "switch_penalty")
      /\ reasons ev' = reasons ev ++ [tag]
      /\ (score ev' = nadd (score ev) (persistence_bonus cfg)
          \/ score ev' = nadd (score ev) (nopp (switch_penalty cfg))).

(** [a] and [b] look at the same thing, as [_same_focus] tests it: same
    target type, same target player, and anchors within [1e-3] of each
    other in both coordinates. *)
Definition same_target (a b : ScoredEvent F) : Prop :=
  target_type (focus a) = target_type (focus b)
  /\ target_player_id (focus a) = target_player_id (focus b)
  /\ nleb (nabs (nsub (fst (anchor (focus a))) (fst (anchor (focus b)))))
          ntol = true
  /\ nleb (nabs (nsub (snd (anchor (focus a))) (snd (anchor (focus b)))))
          ntol = true.

(** [ev'] is [ev] as the smoother leaves it when the carried primary is [p]:
    name, focus target and metadata kept; the score moved by
    [+persistence_bonus] when [ev] has the target of [p] and by
    [-switch_penalty] when it has not; one tag appended to the reasons,
    ["persist_bonus"] when the amount added is positive and
    ["switch_penalty"] otherwise. *)
Definition adjusted_against (cfg : AlgoConfig F) (p ev ev' : ScoredEvent F)
  : Prop :=
  name ev' = name ev /\ focus ev' = focus ev /\ meta ev' = meta ev
  /\ exists delta,
      (same_target ev p -> delta = persistence_bonus cfg)
      /\ (~ same_target ev p -> delta = nopp (switch_penalty cfg))
      /\ score ev' = nadd (score ev) delta
      /\ reasons ev'
         = reasons ev ++ [if nltb nzero delta then "persist_bonus"
                          else "switch_penalty"].

(** Every frame of [d] before [i] has an empty event list. *)
Definition all_empty_before (d : dict nat (list (ScoredEvent F))) (i : nat)
  : Prop :=
  forall j evs, j < i -> dget j d = Some evs -> evs = [].

(** Every frame of [d] strictly between [i0] and [i1] has an empty event
    list. *)
Definition all_empty_between (d : dict nat (list (ScoredEvent F)))
    (i0 i1 : nat) : Prop :=
  forall j evs, i0 < j -> j < i1 -> dget j d = Some evs -> evs = [].

(** The carried [prev_primary] after the loop has run over [items]. *)
Definition carried (cfg : AlgoConfig F)
    (prev_primary : option (ScoredEvent F))
    (items : list (nat * list (ScoredEvent F))) : option (ScoredEvent F) :=
  fold_left (fun p kv => snd (smooth_frame cfg p (snd kv))) items prev_primary.

End SmoothingProps.

(** [c] lies in the closed interval [[score_min, score_max]]. *)
Definition in_clamp_range (cfg : AlgoConfig float) (c : float) : Prop :=
  PrimFloat.leb (score_min cfg) c = true
  /\ PrimFloat.leb c (score_max cfg) = true.

(** [x] is a clamped score as the smoother leaves it: unchanged, plus
    [persistence_bonus], or minus [switch_penalty]. *)
Definition clamped_then_smoothed (cfg : AlgoConfig float) (x : float) : Prop :=
  exists c,
    in_clamp_range cfg c
    /\ (x = c
        \/ x = PrimFloat.add c (persistence_bonus cfg)
        \/ x = PrimFloat.add c (PrimFloat.opp (switch_penalty cfg))).

(** Every value of the dict satisfies [Q]. *)
Definition dvalues_all {K V} (Q : V -> Prop) (d : dict K V) : Prop :=
  forall k v, In (k, v) d -> Q v.

(* ================================================================== *)
(** * The order of binary64 scores *)
(* ================================================================== *)

(** A key that orders the binary64 numbers other than NaN as [SFcompare]
    does: the class (infinities, negative, zero, positive), then exponent and
    mantissa, both negated for negative numbers. *)
Definition sf_key (f : spec_float) : Z * Z * Z :=
  match f with
  | S754_nan => (0, 0, 0)%Z
  | S754_infinity true => (-2, 0, 0)%Z
  | S754_infinity false => (2, 0, 0)%Z
  | S754_zero _ => (0, 0, 0)%Z
  | S754_finite true m e => (-1, - e, - Zpos m)%Z
  | S754_finite false m e => (1, e, Zpos m)%Z
  end.

Definition key_lt (a b : Z * Z * Z) : Prop :=
  let '(c1, e1, m1) := a in
  let '(c2, e2, m2) := b in
  (c1 < c2 \/ (c1 = c2 /\ (e1 < e2 \/ (e1 = e2 /\ m1 < m2))))%Z.

(** A binary64 number is comparable when it is not NaN: [x <= x]. *)
Definition not_nan (x : float) : Prop := PrimFloat.leb x x = true.

(* ================================================================== *)
(** * What can keep the pipeline from returning *)
(* ================================================================== *)

(** Frame [j] has velocities for every player of [P]. *)
Definition has_velocities (P : list string)
    (v : dict nat (dict string (Vec2 float))) (j : nat) : Prop :=
  exists v_j, dget j v = Some v_j /\ forall pid, In pid P -> In pid (dkeys v_j).

(** A graph whose edges start at a node and carry the feature that
    [summarize_pressure_support] reads. *)
Definition edge_ok (ks : list string) (e : GraphEdge) : Prop :=
  In (src e) ks
  /\ match etype e with
     | BALL_LINK => In "ball_d" (dkeys (edge_features e))
     | _ => In "d" (dkeys (edge_features e))
     end.

Definition graph_ok (g : FrameGraph) : Prop :=
  Forall (edge_ok (dkeys (nodes g))) (edges g).

(** Every node has a summary. *)
Definition summaries_cover (g : FrameGraph) (s : dict string Summary) : Prop :=
  forall pid, In pid (dkeys (nodes g)) -> In pid (dkeys s).

(** The grid search of the open-space generator is the one part of the
    pipeline that can fail on canonical frames: its [while] loops need not
    end, and it divides by the pitch length. *)
Definition space_failure {A} (r : result A) : Prop :=
  r = OutOfFuel \/ r = Raise ZeroDivisionError.

(** A step of the pipeline returns, or the open-space generator, enabled,
    has failed. *)
Definition returns_or_space_fails {A} (cfg : AlgoConfig float)
    (r : result A) (Q : A -> Prop) : Prop :=
  (exists a, r = Ok a /\ Q a)
  \/ (enable_space_targets cfg = true /\ space_failure r).

(* ================================================================== *)
(** * When the grid search ends *)
(* ================================================================== *)





(* ================================================================== *)
(** * The stable sort, as a specification *)
(* ================================================================== *)

(** [a] and [b] are tied: neither is below the other. *)
Definition tiedb {F} {N : Num F} (a b : F) : bool :=
  negb (nltb a b) && negb (nltb b a).

(** [l'] is [l] after a stable sort by descending score, as
    [list.sort(key=lambda e: e.score, reverse=True)] is specified: a
    reordering of [l] in which no event is below a later one and tied
    events keep the order they had in [l]. *)
Definition stable_sort_desc {F} {N : Num F} {O : ScoreOrder F}
    (l l' : list (ScoredEvent F)) : Prop :=
  Permutation l' l
  /\ StronglySorted (fun a b => nltb (score a) (score b) = false) l'
  /\ forall k, comparable k ->
       filter (fun e => tiedb k (score e)) l'
       = filter (fun e => tiedb k (score e)) l.

(* ================================================================== *)
(** * Inputs that are equal as Python values *)
(* ================================================================== *)

(** [d == d'] for two dicts: the same value under every key, whatever the
    order in which the keys were inserted. *)
Definition same_dict {K V} `{Key K} (d d' : dict K V) : Prop :=
  forall k, dget k d = dget k d'.

(** Two raw frames with equal positions, ball and note (the [id] of a raw
    frame is not read by the pipeline). *)
Definition same_raw_frame {F} (rf rf' : RawFrame F) : Prop :=
  same_dict (player_pos rf) (player_pos rf')
  /\ ball rf = ball rf' /\ rf_note rf = rf_note rf'.

(** Two inputs of the pipeline that are equal as Python values and list the
    players of frame 0 in the same order. *)
Definition same_input (meta meta' : TacticMeta)
    (raw_frames raw_frames' : list (RawFrame float)) : Prop :=
  tm_pitch meta = tm_pitch meta'
  /\ same_dict (tm_players meta) (tm_players meta')
  /\ frame0_players raw_frames = frame0_players raw_frames'
  /\ Forall2 same_raw_frame raw_frames raw_frames'.

(* ================================================================== *)
(** * Test scenarios *)
(* ================================================================== *)

Section Scenarios.
Open Scope float_scope.

(** Scenario A: two players of the same team (no opponents), a 105 x 68
    pitch, three frames, the ball stationary at (50, 34), the default
    configuration with all five generators enabled.  Player p1 stands still
    for two frames and then moves; player p2 moves every frame. *)
Definition scenario_A_frame (fid : string) (p1 p2 : Vec2 float)
  : RawFrame float :=
  mkRawFrame fid [("p1"%string, p1); ("p2"%string, p2)]
    (mkRawBall (Some 50) (Some 34) None) "".

Definition scenario_A_frames : list (RawFrame float) :=
  [ scenario_A_frame "f0" (45, 30) (60, 40);
    scenario_A_frame "f1" (45, 30) (62, 41);
    scenario_A_frame "f2" (47, 31) (64, 42) ].

Definition scenario_A_meta : TacticMeta :=
  mkTacticMeta (mkPitch 105 68)
    [ ("p1"%string, mkPlayerMeta "p1" "A" "8" "CM");
      ("p2"%string, mkPlayerMeta "p2" "A" "9" "ST") ].

(** Scenario A again, as other Python values equal to it: frames 1 and 2
    and the player table list p2 before p1, and the frames have other
    ids. *)
Definition scenario_A_frames_reordered : list (RawFrame float) :=
  [ scenario_A_frame "f0" (45, 30) (60, 40);
    mkRawFrame "g1" [("p2"%string, (62, 41)); ("p1"%string, (45, 30))]
      (mkRawBall (Some 50) (Some 34) None) "";
    mkRawFrame "g2" [("p2"%string, (64, 42)); ("p1"%string, (47, 31))]
      (mkRawBall (Some 50) (Some 34) None) "" ].

Definition scenario_A_meta_reordered : TacticMeta :=
  mkTacticMeta (mkPitch 105 68)
    [ ("p2"%string, mkPlayerMeta "p2" "A" "9" "ST");
      ("p1"%string, mkPlayerMeta "p1" "A" "8" "CM") ].

(** Scenario D: Scenario A with all five generators disabled. *)
Definition no_generators_config : AlgoConfig float :=
  let c := default_config in
  mkAlgoConfig (cfg_top_k c) (attacking_team c) (attack_direction c)
    (max_player_speed c) (min_dt c) (teammate_radius c) (opponent_radius c)
    false false false false false
    (space_grid_dx c) (space_grid_dy c) (min_space_clearance c)
    (w_ball_distance c) (w_ball_motion c) (w_pass_likelihood c)
    (w_opponent_pressure c) (w_teammate_support c) (w_space_value c)
    (w_goal_proximity c) (w_role_prior c) (switch_penalty c)
    (persistence_bonus c) (clamp_scores c) (score_min c) (score_max c).


(** Sparse keyframes: p2 is missing from the second frame, the ball from
    the second and third, and a player q outside frame 0 shows up later. *)
Definition sparse_frames : list (RawFrame float) :=
  [ mkRawFrame "k0" [("p1"%string, (10, 10)); ("p2"%string, (20, 20))]
      (mkRawBall (Some 50) (Some 34) (Some "p1"%string)) "";
    mkRawFrame "k1" [("p1"%string, (12, 10)); ("q"%string, (1, 1))]
      (mkRawBall None None None) "";
    mkRawFrame "k2" [("p2"%string, (22, 21))]
      (mkRawBall (Some 51) None None) "" ].

(** The primary focus targets of an output, player by player. *)
Definition primaries {F} (out : dict string (list (PlayerFocusRecommendation F)))
  : list (string * list (FocusTarget F)) :=
  map (fun '(pid, recs) => (pid, map primary recs)) out.

(** The candidate names behind the primaries: the name of the first top-k
    event of every recommendation. *)
Definition primary_names {F}
    (out : dict string (list (PlayerFocusRecommendation F)))
  : list (string * list (option string)) :=
  map (fun '(pid, recs) =>
         (pid, map (fun r => option_map name (hd_error (top_k r))) recs))
      out.

(** The canonical frames and the output of Scenario A, as the pipeline
    computes them. *)
Definition scenario_A_canonical : list (Frame float) :=
  Eval vm_compute in
    match canonicalize_frames scenario_A_frames with
    | Ok (frames, _) => frames
    | _ => []
    end.

Definition scenario_A_output
  : dict string (list (PlayerFocusRecommendation float)) :=
  Eval vm_compute in
    match recommend_player_focus 100 scenario_A_meta scenario_A_frames
            default_config with
    | Ok out => out
    | _ => []
    end.

Definition sparse_canonical : list (Frame float) :=
  Eval vm_compute in
    match canonicalize_frames sparse_frames with
    | Ok (frames, _) => frames
    | _ => []
    end.

(** The OPEN_SPACE zone target anchored at [a]. *)
Definition space_target (a : Vec2 float) : FocusTarget float :=
  mkFocusTarget ZONE a None (Some "space"%string).

(** The BALL_NEARBY target of Scenario A. *)
Definition ball_target_A : FocusTarget float :=
  mkFocusTarget BALL (50, 34) None (Some "ball"%string).

End Scenarios.

Section ExactScenario.
Open Scope Z_scope.

(** The default configuration in exact thousandths. *)
Definition exact_config : AlgoConfig Z := {|
  cfg_top_k := 1;
  attacking_team := "A";
  attack_direction := 1;
  max_player_speed := 8000;
  min_dt := 200;
  teammate_radius := 12000;
  opponent_radius := 10000;
  enable_ball_focus := true;
  enable_pass_targets := true;
  enable_marking_threats := true;
  enable_space_targets := true;
  enable_goal_focus := true;
  space_grid_dx := 6000;
  space_grid_dy := 6000;
  min_space_clearance := 4000;
  w_ball_distance := -1000;
  w_ball_motion := 1500;
  w_pass_likelihood := 3000;
  w_opponent_pressure := 2000;
  w_teammate_support := 800;
  w_space_value := 1200;
  w_goal_proximity := 2500;
  w_role_prior := 1000;
  switch_penalty := 1500;
  persistence_bonus := 800;
  clamp_scores := true;
  score_min := -10000;
  score_max := 10000
|}.

Definition exact_ball (s : Z) : ScoredEvent Z :=
  mkScoredEvent "BALL_NEARBY" s
    (mkFocusTarget BALL (50000, 34000) None (Some "ball"%string))
    ["ball_d=5.00"%string] [].

Definition exact_goal (s : Z) : ScoredEvent Z :=
  mkScoredEvent "GOAL" s
    (mkFocusTarget GOAL (105000, 34000) None (Some "goal"%string))
    ["goal_d=55.00"%string] [].

(** Scored events of one player over four frames: nothing at frames 0 and
    2; the ball ahead of the goal at frame 1; at frame 3 the goal ahead of
    the ball by 2.0, less than [switch_penalty + persistence_bonus = 2.3]. *)
Definition exact_scored : dict nat (list (ScoredEvent Z)) :=
  [ (0%nat, []);
    (1%nat, [exact_ball 5000; exact_goal 3000]);
    (2%nat, []);
    (3%nat, [exact_goal 6000; exact_ball 4000]) ].

End ExactScenario.

Section LagScenario.
Open Scope float_scope.

Definition float_ball (s : float) : ScoredEvent float :=
  mkScoredEvent "BALL_NEARBY" s
    (mkFocusTarget BALL (50, 34) None (Some "ball"%string))
    ["ball_d=5.00"%string] [].

Definition float_goal (s : float) : ScoredEvent float :=
  mkScoredEvent "GOAL" s
    (mkFocusTarget GOAL (105, 34) None (Some "goal"%string))
    ["goal_d=55.00"%string] [].

(** Two frames of one player: the ball alone, then the goal ahead of the
    ball by 2.0, less than [switch_penalty + persistence_bonus = 2.3]. *)
Definition lag_scored : dict nat (list (ScoredEvent float)) :=
  [ (0%nat, [float_ball 5]);
    (1%nat, [float_goal 6; float_ball 4]) ].

(** Two frames where the goal is ahead of the ball by 2.2999999999999994,
    still less than 2.3, and both adjusted scores round to the same
    binary64 number. *)
Definition tie_ball_score : float := -4.898619485211566.
Definition tie_goal_score : float := -2.5986194852115667.

Definition tie_scored : dict nat (list (ScoredEvent float)) :=
  [ (0%nat, [float_ball tie_ball_score]);
    (1%nat, [float_goal tie_goal_score; float_ball tie_ball_score]) ].

(** Four frames of one player, the first and the third without events. *)
Definition gap_scored : dict nat (list (ScoredEvent float)) :=
  [ (0%nat, []);
    (1%nat, [float_ball 5; float_goal 3]);
    (2%nat, []);
    (3%nat, [float_goal 6; float_ball 4]) ].

End LagScenario.

(* ================================================================== *)
(** * Tactic selection and schema check ([core/select.py], [io.py]) *)
(* ================================================================== *)

(** A value as [json.load] gives it.  A dict is the list of its items in
    order; the first binding of a key counts. *)
#[warnings="-register-all"] Inductive json : Type :=
| JNull : json
| JBool : bool -> json
| JInt : Z -> json
| JFloat : float -> json
| JStr : string -> json
| JList : list json -> json
| JDict : list (string * json) -> json.

(** [str(n)] for an [int]. *)
Definition show_Z (z : Z) : string := NilEmpty.string_of_int (Z.to_int z).

Definition msg_empty_list : string := "Tactic JSON is an empty list.".

Definition msg_id_not_found (tactic_id : string) : string :=
  "tactic_id '" ++ tactic_id ++ "' not found in tactic list.".

Definition msg_index_out_of_range (idx : Z) (len : nat) : string :=
  "tactic_index " ++ show_Z idx ++ " out of range (len=" ++ show_nat len
    ++ ").".

Definition msg_not_a_dict (idx : Z) : string :=
  "tactic_data[" ++ show_Z idx ++ "] is not a dict.".

Definition msg_bad_tactic_json : string :=
  "Tactic JSON must be a dict (single tactic) or list (tactic DB export).".

Section Select.
(** The builtin [str] on parsed JSON values; on a string it is the
    identity. *)
Variable py_str : json -> string.

(** The test of the loop [for t in obj]: [t] is a dict whose ["meta"] is a
    dict with [str(meta.get("tactic_id", "")) == tid]. *)
Definition has_tactic_id (tid : string) (t : json) : bool :=
  match t with
  | JDict d =>
      match dget "meta" d with
      | Some (JDict m) =>
          String.eqb (py_str (dget_default "tactic_id" (JStr "") m)) tid
      | _ => false
      end
  | _ => false
  end.

Definition select_tactic (obj : json) (tactic_id : option string)
    (tactic_index : Z) : result json :=
  match obj with
  | JDict _ => Ok obj
  | JList l =>
      match l with
      | [] => Raise (ValueError msg_empty_list)
      | _ =>
          match tactic_id with
          | Some tid =>
              match find (has_tactic_id tid) l with
              | Some t => Ok t
              | None => Raise (ValueError (msg_id_not_found tid))
              end
          | None =>
              let idx := tactic_index in
              if ((idx <? 0) || (idx >=? Z.of_nat (List.length l)))%Z
              then Raise (ValueError
                            (msg_index_out_of_range idx (List.length l)))
              else
                t <- index (Z.to_nat idx) l ;;
                match t with
                | JDict _ => Ok t
                | _ => Raise (ValueError (msg_not_a_dict idx))
                end
          end
      end
  | _ => Raise (ValueError msg_bad_tactic_json)
  end.

End Select.

(** [ensure_tactic_schema]: returns [None] or raises. *)
Definition ensure_tactic_schema (tactic : json) : result Datatypes.unit :=
  match tactic with
  | JDict d =>
      match dget "meta" d with
      | Some (JDict _) =>
          match dget "frames" d with
          | Some (JList _) => Ok tt
          | _ => Raise (ValueError "Tactic missing 'frames' list.")
          end
      | _ => Raise (ValueError "Tactic missing 'meta' dict.")
      end
  | _ => Raise (ValueError "Tactic must be a dict.")
  end.

Definition is_dict (j : json) : Prop := exists d, j = JDict d.

(* ================================================================== *)
(** * Vocabulary of the further properties *)
(* ================================================================== *)

(** The team of a player as the graph and the generators read it:
    [player_team.get(pid, "A")]. *)
Definition team_of (player_team : dict string string) (pid : string) : string :=
  dget_default pid "A" player_team.

(** The proximity edge from [pa] at [posa] to [pb] at [posb], if the two are
    close enough: TEAM_NEAR within [teammate_radius] for teammates, OPP_NEAR
    within [opponent_radius] for opponents. *)
Definition proximity_edge (cfg : AlgoConfig float)
    (player_team : dict string string)
    (pa : string) (posa : Vec2 float) (pb : string) (posb : Vec2 float)
  : option GraphEdge :=
  let d := dist posa posb in
  if String.eqb (team_of player_team pa) (team_of player_team pb) then
    if PrimFloat.leb d (teammate_radius cfg)
    then Some (mkGraphEdge pa pb TEAM_NEAR [("d", d)]) else None
  else
    if PrimFloat.leb d (opponent_radius cfg)
    then Some (mkGraphEdge pa pb OPP_NEAR [("d", d)]) else None.

(** The number of edges of type [t] that leave [pid]. *)
Definition EdgeType_eqb (a b : EdgeType) : bool :=
  match a, b with
  | TEAM_NEAR, TEAM_NEAR | OPP_NEAR, OPP_NEAR | BALL_LINK, BALL_LINK => true
  | _, _ => false
  end.

Definition edges_from (t : EdgeType) (pid : string) (es : list GraphEdge)
  : nat :=
  List.length
    (filter (fun e => EdgeType_eqb (etype e) t && String.eqb (src e) pid) es).

(** [k] times [+= 1.0], from [x]. *)
Definition add_ones (k : nat) (x : float) : float :=
  Nat.iter k (fun y => PrimFloat.add y 1) x.

(** The names that a run of the generators can give, in their order. *)
Definition candidate_names (ball opp mate space goal : bool) : list string :=
  (if ball then ["BALL_NEARBY"] else [])
  ++ (if opp then ["OPP_PRESSURE"] else [])
  ++ (if mate then ["TEAM_SUPPORT"] else [])
  ++ (if space then ["OPEN_SPACE"] else [])
  ++ (if goal then ["GOAL"] else []).

(** What the focus target of a candidate named [nm] must be. *)
Definition target_as_named (g : FrameGraph) (pitch : Pitch float)
    (pid : string) (player_team : dict string string) (cfg : AlgoConfig float)
    (c : CandidateEvent float) : Prop :=
  let f := ce_focus c in
  if String.eqb (ce_name c) "BALL_NEARBY" then
    f = mkFocusTarget BALL (graph_ball_pos g) None (Some "ball")
  else if String.eqb (ce_name c) "OPP_PRESSURE" then
    exists oid n,
      f = mkFocusTarget PLAYER (node_pos n) (Some oid) (Some "press")
      /\ dget oid (nodes g) = Some n /\ oid <> pid
      /\ team_of player_team oid <> team_of player_team pid
  else if String.eqb (ce_name c) "TEAM_SUPPORT" then
    exists mid n,
      f = mkFocusTarget PLAYER (node_pos n) (Some mid) (Some "support")
      /\ dget mid (nodes g) = Some n /\ mid <> pid
      /\ team_of player_team mid = team_of player_team pid
  else if String.eqb (ce_name c) "OPEN_SPACE" then
    exists a, f = mkFocusTarget ZONE a None (Some "space")
  else
    f = mkFocusTarget GOAL
          (attacking_goal_center pitch (attack_direction cfg)) None
          (Some "goal").

(** The value that the grid search gives the anchor [a] for a player at
    [pos]: clearance, forward progress and distance from the player. *)
Definition space_value (g : FrameGraph) (pitch : Pitch float) (pid : string)
    (player_team : dict string string) (cfg : AlgoConfig float)
    (pos a : Vec2 float) : float :=
  let min_opp := anchor_clearance g pid player_team a in
  let q := PrimFloat.div (fst a) (pitch_length pitch) in
  let forward_progress :=
    if (attack_direction cfg >? 0)%Z then q else PrimFloat.sub 1 q in
  PrimFloat.sub
    (PrimFloat.add (PrimFloat.mul 1.5 min_opp)
       (PrimFloat.mul 8 forward_progress))
    (PrimFloat.mul 0.25 (dist a pos)).

(** What holds of the best anchor so far, and of the best anchor
    returned. *)
Definition space_best_ok (g : FrameGraph) (pitch : Pitch float) (pid : string)
    (player_team : dict string string) (cfg : AlgoConfig float)
    (pos : Vec2 float) (best : option (Vec2 float) * float) : Prop :=
  match fst best with
  | None => snd best = (-1e9)%float
  | Some a =>
      PrimFloat.ltb (anchor_clearance g pid player_team a)
        (min_space_clearance cfg) = false
      /\ snd best = space_value g pitch pid player_team cfg pos a
      /\ PrimFloat.ltb (-1e9) (snd best) = true
      /\ PrimFloat.eqb (pitch_length pitch) 0 = false
  end.

(** The node [n] listed under [oid] is an opponent of [pid]. *)
Definition opponent_of (player_team : dict string string) (pid oid : string)
  : Prop :=
  oid <> pid /\ team_of player_team oid <> team_of player_team pid.

(** The node listed under [mid] is a teammate of [pid], other than
    [pid]. *)
Definition teammate_of (player_team : dict string string) (pid mid : string)
  : Prop :=
  mid <> pid /\ team_of player_team mid = team_of player_team pid.

(** The support score that [_best_support_teammate] gives a teammate at
    [q] seen from [pos]. *)
Definition support_score (cfg : AlgoConfig float) (pos q : Vec2 float)
  : float :=
  let d := dist pos q in
  let ahead := (if is_ahead q pos (attack_direction cfg) then 1 else 0)%float in
  let cone :=
    (if in_forward_cone pos q (attack_direction cfg) 0.3 then 1 else 0)%float in
  (2.0 * ahead + 1.0 * cone - 0.15 * d)%float.

(** The scored event [e] is the candidate [c] with a score and reasons. *)
Definition scores_candidate (c : CandidateEvent float) (e : ScoredEvent float)
  : Prop :=
  name e = ce_name c /\ focus e = ce_focus c /\ meta e = ce_meta c.

(** A recommendation is led by its first top-k event, or is a fallback. *)
Definition led_by_top_event {F} {N : Num F} (cfg : AlgoConfig F)
    (r : PlayerFocusRecommendation F) : Prop :=
  match top_k r with
  | [] => rationale r = ["fallback_ball"] /\ primary_score r = nzero
  | e :: _ =>
      primary r = focus e /\ primary_score r = score e
      /\ rationale r = reasons e
      /\ List.length (top_k r) <= Z.to_nat (Z.max 1 (cfg_top_k cfg))
  end.

(** A recommendation is the fallback on the ball of its frame. *)
Definition is_fallback {F} {N : Num F} (frames : list (Frame F))
    (r : PlayerFocusRecommendation F) : Prop :=
  exists fr,
    nth_error frames (rec_frame_idx r) = Some fr
    /\ primary r = mkFocusTarget BALL (ball_pos fr) None (Some "ball")
    /\ primary_score r = nzero
    /\ rationale r = ["fallback_ball"]
    /\ top_k r = [].

(** All five generators are disabled. *)
Definition all_generators_off {F} (cfg : AlgoConfig F) : Prop :=
  enable_ball_focus cfg = false /\ enable_pass_targets cfg = false
  /\ enable_marking_threats cfg = false /\ enable_space_targets cfg = false
  /\ enable_goal_focus cfg = false.

(** The characters of [s] are ASCII. *)
Definition is_ascii (s : string) : Prop :=
  Forall (fun c => nat_of_ascii c < 128) (list_ascii_of_string s).


(** The event comes with at least one reason. *)
Definition explained {F} (e : ScoredEvent F) : Prop := reasons e <> [].

(** [run_baseline_policy] up to and including the smoothing per player
    ([baseline/policy.py], lines 32-74): the pseudo-times [t_rel] and the
    table [scored_per_player] of smoothed, ranked events that the final
    loop reads. *)
Definition smoothed_scores (fuel : nat) (frames : list (Frame float))
    (pitch : Pitch float) (player_team player_role : dict string string)
    (cfg : AlgoConfig float)
  : result (list float * dict string (dict nat (list (ScoredEvent float)))) :=
  '(dt, t_rel) <- infer_pseudotime frames cfg ;;
  v_by_frame <- compute_velocities frames dt ;;
  graphs <- build_frame_graphs frames t_rel v_by_frame player_team player_role
              cfg ;;
  f0 <- index 0 frames ;;
  let player_ids := dkeys (players f0) in
  let scored_per_player :=
    fold_left (fun d pid => dset pid [] d) player_ids [] in
  scored_per_player <-
    foldM (score_frame fuel pitch player_team player_role cfg player_ids)
          scored_per_player graphs ;;
  scored_per_player <-
    foldM (fun spp pid =>
             inner <- lookup pid spp ;;
             Ok (dset pid (apply_temporal_smoothing inner cfg) spp))
          scored_per_player player_ids ;;
  Ok (t_rel, scored_per_player).

(* ================================================================== *)
(** * More test data *)
(* ================================================================== *)

Section MoreScenarios.
Open Scope float_scope.

(** One frame of a duel: two players of team A and one of team B, the ball
    at the feet of a1. *)
Definition duel_frame : Frame float :=
  mkFrame 0
    [("a1"%string, (40, 30)); ("a2"%string, (46, 32)); ("b1"%string, (44, 31))]
    (42, 30) (Some "a1"%string) "".

Definition duel_teams : dict string string :=
  [("a1", "A"); ("a2", "A"); ("b1", "B")]%string.

Definition duel_roles : dict string string :=
  [("a1", "CM"); ("a2", " st "); ("b1", "CB")]%string.

Definition duel_velocities : dict nat (dict string (Vec2 float)) :=
  [(0%nat,
    [("a1"%string, (0, 0)); ("a2"%string, (0, 0)); ("b1"%string, (0, 0))])].

Definition duel_pitch : Pitch float := mkPitch 105 68.

Definition empty_graph : FrameGraph := mkFrameGraph 0 [] [] (0, 0) 0.

(** The graph and the summaries of the duel, as the code computes them. *)
Definition duel_graph : FrameGraph :=
  Eval vm_compute in
    match build_frame_graph [0] duel_velocities duel_teams duel_roles
            default_config duel_frame with
    | Ok g => g
    | _ => empty_graph
    end.

Definition duel_summaries : dict string Summary :=
  Eval vm_compute in
    match summarize_pressure_support duel_graph default_config with
    | Ok s => s
    | _ => []
    end.

(** An OPEN_SPACE candidate whose feature is infinite, as the grid search
    gives it when no opponent is on the pitch. *)
Definition unbounded_space : CandidateEvent float :=
  mkCandidateEvent "OPEN_SPACE"
    (mkFocusTarget ZONE (46, 12) None (Some "space"%string))
    [("space_value"%string, infinity)] [].

End MoreScenarios.

(** A tactic database of four entries, the first of which is not a
    tactic and the last of which repeats the id of the second. *)
Definition demo_tactic (tactic_id : string) : json :=
  JDict [("meta", JDict [("tactic_id", JStr tactic_id)]);
         ("frames", JList [JDict []])].

Definition demo_db : list json :=
  [JInt 7; demo_tactic "t1"; demo_tactic "t2"; demo_tactic "t1"].

(** [str] on the scalars that a tactic id can be: a string is itself, an
    [int] is written in decimal, [True], [False] and [None] by their names.
    (Floats, lists and dicts are no ids of [demo_db]; they are sent to the
    empty string.) *)
Definition str_on_strings (j : json) : string :=
  match j with
  | JStr s => s
  | JInt z => show_Z z
  | JBool true => "True"
  | JBool false => "False"
  | JNull => "None"
  | _ => ""
  end.

(* ================================================================== *)
(** * Facts about dictionaries and the result monad *)
(* ================================================================== *)

Section DictFacts.
Context {K V : Type} `{Key K}.

Lemma keqb_refl (k : K) : keqb k k = true.
Proof. now apply keqb_eq. Qed.

Lemma keqb_neq {a b : K} : a <> b -> keqb a b = false.
Proof.
  intros Hne. destruct (keqb a b) eqn:E; [|reflexivity].
  apply keqb_eq in E. contradiction.
Qed.

Lemma keqb_dec (a b : K) : {a = b} + {a <> b}.
Proof.
  destruct (keqb a b) eqn:E.
  - left. now apply keqb_eq.
  - right. intros ->. rewrite keqb_refl in E. discriminate.
Qed.

Lemma dget_dset_eq (k : K) (v : V) (d : dict K V) :
  dget k (dset k v d) = Some v.
Proof.
  induction d as [|[k' v'] d IH]; simpl.
  - now rewrite keqb_refl.
  - destruct (keqb k k') eqn:E; simpl; rewrite E; auto.
Qed.

Lemma dget_dset_neq (k k' : K) (v : V) (d : dict K V) :
  k <> k' -> dget k (dset k' v d) = dget k d.
Proof.
  intros Hne. induction d as [|[k2 v2] d IH]; simpl.
  - now rewrite (keqb_neq Hne).
  - destruct (keqb k' k2) eqn:E; simpl.
    + apply keqb_eq in E. subst k2. now rewrite (keqb_neq Hne).
    + now rewrite IH.
Qed.

Lemma dget_dset (k k' : K) (v : V) (d : dict K V) :
  dget k (dset k' v d) = if keqb k k' then Some v else dget k d.
Proof.
  destruct (keqb k k') eqn:E.
  - apply keqb_eq in E. subst. apply dget_dset_eq.
  - apply dget_dset_neq. intros ->. rewrite keqb_refl in E. discriminate.
Qed.

Lemma dget_None_keys (k : K) (d : dict K V) :
  dget k d = None <-> ~ In k (dkeys d).
Proof.
  induction d as [|[k' v'] d IH]; simpl.
  - tauto.
  - destruct (keqb k k') eqn:E.
    + apply keqb_eq in E. subst. split; [discriminate | tauto].
    + rewrite IH. split.
      * intros Hn [->|Hin]; [rewrite keqb_refl in E; discriminate | tauto].
      * tauto.
Qed.

Lemma dget_Some_keys (k : K) (d : dict K V) :
  In k (dkeys d) <-> exists v, dget k d = Some v.
Proof.
  destruct (dget k d) as [v|] eqn:E.
  - split; [eauto|]. intros _.
    destruct (in_dec keqb_dec k (dkeys d)) as [Hin|Hn]; [assumption|].
    apply dget_None_keys in Hn. congruence.
  - apply dget_None_keys in E. split; [tauto|]. intros [v Hv]. discriminate.
Qed.

Lemma dget_In (k : K) (v : V) (d : dict K V) : dget k d = Some v -> In (k, v) d.
Proof.
  induction d as [|[k' v'] d IH]; simpl; [discriminate|].
  destruct (keqb k k') eqn:E.
  - apply keqb_eq in E. subst. intros [= ->]. now left.
  - intros Hg. right. auto.
Qed.

Lemma In_dget (k : K) (v : V) (d : dict K V) :
  NoDup (dkeys d) -> In (k, v) d -> dget k d = Some v.
Proof.
  induction d as [|[k' v'] d IH]; simpl; [tauto|].
  intros Hnd [Heq|Hin].
  - inversion Heq; subst. now rewrite keqb_refl.
  - inversion Hnd as [|? ? Hni Hnd']; subst.
    destruct (keqb k k') eqn:E.
    + apply keqb_eq in E. subst. exfalso. apply Hni.
      change (In (fst (k', v)) (map fst d)). now apply in_map.
    + auto.
Qed.

Lemma dkeys_dset_in (k : K) (v : V) (d : dict K V) :
  In k (dkeys d) -> dkeys (dset k v d) = dkeys d.
Proof.
  induction d as [|[k' v'] d IH]; simpl; [tauto|].
  intros Hin. destruct (keqb k k') eqn:E; simpl; [reflexivity|].
  f_equal. apply IH. destruct Hin as [->|Hin]; [|assumption].
  rewrite keqb_refl in E. discriminate.
Qed.

Lemma dkeys_dset_notin (k : K) (v : V) (d : dict K V) :
  ~ In k (dkeys d) -> dkeys (dset k v d) = dkeys d ++ [k].
Proof.
  induction d as [|[k' v'] d IH]; simpl; [reflexivity|].
  intros Hn. destruct (keqb k k') eqn:E; simpl.
  - apply keqb_eq in E. subst. tauto.
  - f_equal. apply IH. tauto.
Qed.

Lemma dmem_true (k : K) (d : dict K V) : dmem k d = true <-> In k (dkeys d).
Proof.
  unfold dmem. rewrite dget_Some_keys.
  destruct (dget k d); split; try discriminate; eauto.
  intros [v Hv]. discriminate.
Qed.

(** The keys of [{k: v for k in ks}] built by successive assignment. *)
Lemma dkeys_fold_dset (f : K -> V) (ks : list K) (d : dict K V) :
  NoDup (dkeys d ++ ks) ->
  dkeys (fold_left (fun d k => dset k (f k) d) ks d) = dkeys d ++ ks.
Proof.
  revert d. induction ks as [|k ks IH]; intros d Hnd; simpl.
  - now rewrite app_nil_r.
  - assert (Hni : ~ In k (dkeys d)).
    { intros Hin. apply NoDup_remove_2 in Hnd. apply Hnd.
      apply in_or_app. now left. }
    rewrite IH; rewrite dkeys_dset_notin by assumption.
    + now rewrite <- app_assoc.
    + rewrite <- app_assoc. exact Hnd.
Qed.

Lemma dget_fold_dset (f : K -> V) (ks : list K) (d : dict K V) (k : K) :
  dget k (fold_left (fun d k => dset k (f k) d) ks d)
  = if in_dec keqb_dec k ks then Some (f k) else dget k d.
Proof.
  revert d. induction ks as [|k0 ks IH]; intros d; simpl; [reflexivity|].
  rewrite IH. destruct (in_dec keqb_dec k ks) as [Hin|Hn].
  - destruct (keqb_dec k0 k); reflexivity.
  - rewrite dget_dset. destruct (keqb_dec k0 k) as [->|Hne].
    + now rewrite keqb_refl.
    + rewrite keqb_neq by congruence. reflexivity.
Qed.

End DictFacts.

Lemma bind_Ok {A B} (m : result A) (k : A -> result B) (b : B) :
  bind m k = Ok b -> exists a, m = Ok a /\ k a = Ok b.
Proof. destruct m; simpl; intros E; try discriminate. eauto. Qed.

Lemma mapM_length {A B} (f : A -> result B) (l : list A) (bs : list B) :
  mapM f l = Ok bs -> List.length bs = List.length l.
Proof.
  revert bs. induction l as [|a l IH]; simpl; intros bs E.
  - now inversion E.
  - apply bind_Ok in E as (b & _ & E). apply bind_Ok in E as (bs' & E1 & E).
    inversion E; subst. simpl. f_equal. auto.
Qed.

Lemma mapM_nth {A B} (f : A -> result B) (l : list A) (bs : list B) :
  mapM f l = Ok bs ->
  forall i b, nth_error bs i = Some b ->
  exists a, nth_error l i = Some a /\ f a = Ok b.
Proof.
  revert bs. induction l as [|a l IH]; simpl; intros bs E i b Hi.
  - inversion E; subst. destruct i; discriminate.
  - apply bind_Ok in E as (b0 & E0 & E). apply bind_Ok in E as (bs' & E1 & E).
    inversion E; subst. destruct i as [|i]; simpl in *.
    + inversion Hi; subst. eauto.
    + eauto.
Qed.

(** Splitting a successful [bind]: [H : bind m k = Ok b] becomes
    [E : m = Ok a] and [H : k a = Ok b]. *)
Tactic Notation "bind_ok" hyp(H) "as" simple_intropattern(a) ident(E) :=
  apply bind_Ok in H as (a & E & H).

(* ================================================================== *)
(** * Frame canonicalisation: forward fill and validation errors *)
(* ================================================================== *)

Section CanonFacts.
Context {F : Type}.

Lemma fill_value_dset_present (rf_pos last : dict string (Vec2 F))
    (pid0 pid : string) (p : Vec2 F) :
  dget pid0 rf_pos <> None ->
  fill_value rf_pos (dset pid0 p last) pid = fill_value rf_pos last pid.
Proof.
  intros Hp. unfold fill_value. destruct (dget pid rf_pos) eqn:E; [reflexivity|].
  apply dget_dset_neq. intros ->. contradiction.
Qed.

Lemma fill_players_spec (idx : nat) (rf_pos : dict string (Vec2 F))
    (pids : list string) :
  forall players last players' last',
    fill_players idx rf_pos pids players last = Ok (players', last') ->
    (forall pid, In pid pids ->
       dget pid players' = fill_value rf_pos last pid
       /\ dget pid last' = fill_value rf_pos last pid
       /\ fill_value rf_pos last pid <> None)
    /\ (forall pid, ~ In pid pids ->
          dget pid players' = dget pid players
          /\ dget pid last' = dget pid last).
Proof.
  induction pids as [|pid0 rest IH]; intros players last players' last' E;
    simpl in E.
  - inversion E; subst. split; [intros pid []|]. auto.
  - destruct (dget pid0 rf_pos) as [p|] eqn:Hraw.
    + apply IH in E as [Hin Hout].
      assert (Hfv : forall pid, fill_value rf_pos (dset pid0 p last) pid
                                = fill_value rf_pos last pid).
      { intros pid. apply fill_value_dset_present. congruence. }
      assert (H0 : fill_value rf_pos last pid0 = Some p).
      { unfold fill_value. now rewrite Hraw. }
      split.
      * intros pid Hp. destruct (in_dec string_dec pid rest) as [Hr|Hr].
        -- rewrite <- Hfv. auto.
        -- destruct Hp as [<-|Hp]; [|contradiction].
           destruct (Hout pid0 Hr) as [E1 E2].
           rewrite E1, E2, !dget_dset_eq, H0. repeat split; congruence.
      * intros pid Hp. assert (Hne : pid <> pid0) by (intros ->; apply Hp; now left).
        assert (Hr : ~ In pid rest) by (intros Hi; apply Hp; now right).
        destruct (Hout pid Hr) as [E1 E2].
        rewrite E1, E2, !dget_dset_neq by assumption. auto.
    + destruct (dget pid0 last) as [p|] eqn:Hlast; [|discriminate].
      apply IH in E as [Hin Hout].
      assert (H0 : fill_value rf_pos last pid0 = Some p).
      { unfold fill_value. now rewrite Hraw. }
      split.
      * intros pid Hp. destruct (in_dec string_dec pid rest) as [Hr|Hr]; [auto|].
        destruct Hp as [<-|Hp]; [|contradiction].
        destruct (Hout pid0 Hr) as [E1 E2].
        rewrite E1, E2, dget_dset_eq, H0, Hlast. repeat split; congruence.
      * intros pid Hp. assert (Hne : pid <> pid0) by (intros ->; apply Hp; now left).
        assert (Hr : ~ In pid rest) by (intros Hi; apply Hp; now right).
        destruct (Hout pid Hr) as [E1 E2].
        rewrite E1, E2, dget_dset_neq by assumption. auto.
Qed.

(** The frame's [players] dict has the keys of [P], in order. *)
Lemma fill_players_keys (idx : nat) (rf_pos : dict string (Vec2 F))
    (pids : list string) :
  forall players last players' last',
    NoDup (dkeys players ++ pids) ->
    fill_players idx rf_pos pids players last = Ok (players', last') ->
    dkeys players' = dkeys players ++ pids.
Proof.
  induction pids as [|pid0 rest IH]; intros players last players' last' Hnd E;
    simpl in E.
  - inversion E; subst. now rewrite app_nil_r.
  - assert (Hni : ~ In pid0 (dkeys players)).
    { intros Hin. apply NoDup_remove_2 in Hnd. apply Hnd.
      apply in_or_app. now left. }
    assert (Hstep : forall p, dkeys (dset pid0 p players) ++ rest
                              = dkeys players ++ pid0 :: rest).
    { intros p. rewrite dkeys_dset_notin by assumption.
      now rewrite <- app_assoc. }
    destruct (dget pid0 rf_pos) as [p|].
    + apply IH in E; rewrite Hstep in *; assumption.
    + destruct (dget pid0 last) as [p|]; [|discriminate].
      apply IH in E; rewrite Hstep in *; assumption.
Qed.

(** A frame whose players all have a raw or a remembered position fills. *)
Lemma fill_players_ok (idx : nat) (rf_pos : dict string (Vec2 F))
    (pids : list string) :
  forall players last,
    (forall pid, In pid pids -> fill_value rf_pos last pid <> None) ->
    exists players' last',
      fill_players idx rf_pos pids players last = Ok (players', last').
Proof.
  induction pids as [|pid0 rest IH]; intros players last Hfill; simpl.
  - eauto.
  - pose proof (Hfill pid0 (or_introl eq_refl)) as H0. unfold fill_value in H0.
    destruct (dget pid0 rf_pos) as [p|] eqn:Hraw.
    + apply IH. intros pid Hp. rewrite fill_value_dset_present by congruence.
      apply Hfill. now right.
    + destruct (dget pid0 last) as [p|] eqn:Hlast; [|congruence].
      apply IH. intros pid Hp. apply Hfill. now right.
Qed.

Lemma canon_loop_spec (P : list string) :
  forall raws idx last lb lo frames,
    canon_loop P idx raws last lb lo = Ok frames ->
    List.length frames = List.length raws
    /\ (forall (rf : RawFrame F) (fr : Frame F),
        nth_error raws 0 = Some rf -> nth_error frames 0 = Some fr ->
        forall pid, In pid P ->
          dget pid (players fr) = fill_value (player_pos rf) last pid
          /\ dget pid (players fr) <> None)
    /\ (forall i (rf : RawFrame F) (fr fr' : Frame F),
          nth_error raws (S i) = Some rf -> nth_error frames (S i) = Some fr ->
          nth_error frames i = Some fr' ->
          forall pid, In pid P ->
            dget pid (players fr) = fill_value (player_pos rf) (players fr') pid
            /\ dget pid (players fr) <> None).
Proof.
  induction raws as [|rf0 raws IH]; intros idx last lb lo frames E; simpl in E.
  - inversion E; subst. split; [reflexivity|].
    split; [intros rf fr H0; discriminate | intros i rf fr fr' H0; discriminate].
  - bind_ok E as [pl last'] Efill. bind_ok E as [bpos bowner] Eball.
    bind_ok E as frames' Eloop. inversion E; subst; clear E.
    apply fill_players_spec in Efill as [Hin _].
    apply IH in Eloop as (Hlen & Hfirst & Hnext).
    split; [simpl; congruence|]. split.
    + intros rf fr [= <-] [= <-] pid Hp. simpl.
      destruct (Hin pid Hp) as (E1 & _ & E3). rewrite E1. auto.
    + intros [|i] rf fr fr' Hrf Hfr Hfr' pid Hp; simpl in *.
      * inversion Hfr'; subst; simpl.
        destruct (Hfirst rf fr Hrf Hfr pid Hp) as [E1 E2]. split; [|assumption].
        rewrite E1. unfold fill_value.
        destruct (dget pid (player_pos rf)); [reflexivity|].
        destruct (Hin pid Hp) as (E3 & E4 & _). congruence.
      * eauto.
Qed.

Lemma canon_loop_frames (P : list string) :
  NoDup P ->
  forall raws idx last lb lo frames,
    canon_loop P idx raws last lb lo = Ok frames ->
    forall k (fr : Frame F), nth_error frames k = Some fr ->
      frame_idx fr = idx + k /\ dkeys (players fr) = P.
Proof.
  intros HP. induction raws as [|rf0 raws IH]; intros idx last lb lo frames E;
    simpl in E.
  - inversion E; subst. intros [|k] fr; discriminate.
  - bind_ok E as [pl last'] Efill. bind_ok E as [bpos bowner] Eball.
    bind_ok E as frames' Eloop. inversion E; subst; clear E.
    apply fill_players_keys in Efill; [|exact HP]. simpl in Efill.
    intros [|k] fr Hk; simpl in Hk.
    + inversion Hk; subst fr. simpl. split; [lia | assumption].
    + destruct (IH _ _ _ _ _ Eloop k fr Hk) as [E3 E4]. split; [lia | assumption].
Qed.

(** Once every player of [P] has a remembered position and the ball has
    one, the loop cannot fail. *)
Lemma canon_loop_ok (P : list string) :
  forall (raws : list (RawFrame F)) idx last bp lo,
    (forall pid, In pid P -> dget pid last <> None) ->
    exists frames, canon_loop P idx raws last (Some bp) lo = Ok frames.
Proof.
  induction raws as [|rf0 raws IH]; intros idx last bp lo Hlast; simpl.
  - eauto.
  - destruct (fill_players_ok idx (player_pos rf0) P [] last)
      as (pl & last' & Efill).
    { intros pid Hp. unfold fill_value.
      destruct (dget pid (player_pos rf0)); [discriminate | auto]. }
    rewrite Efill. simpl.
    assert (Hlast' : forall pid, In pid P -> dget pid last' <> None).
    { intros pid Hp. apply fill_players_spec in Efill as [Hin _].
      destruct (Hin pid Hp) as (_ & E2 & E3). congruence. }
    assert (Hball : exists bp' lo',
               fill_ball idx (ball rf0) (Some bp) lo = Ok (bp', lo')).
    { unfold fill_ball. destruct (ball_x (ball rf0)), (ball_y (ball rf0)); eauto. }
    destruct Hball as (bp' & lo' & Eball). rewrite Eball. simpl.
    destruct (IH (S idx) last' bp' lo' Hlast') as [frames Eloop].
    rewrite Eloop. simpl. eauto.
Qed.

(** The exact outcome of canonicalisation: it fails on an empty list and
    on a frame 0 without a ball position, and on nothing else. *)
Lemma canonicalize_frames_outcome (raw_frames : list (RawFrame F)) :
  match raw_frames with
  | [] => canonicalize_frames raw_frames = Raise (ValueError msg_no_frames)
  | frame0 :: _ =>
      if ball_missing frame0
      then canonicalize_frames raw_frames = Raise (ValueError (msg_ball_missing 0))
      else exists frames,
          canonicalize_frames raw_frames
          = Ok (frames, dkeys (player_pos frame0))
  end.
Proof.
  destruct raw_frames as [|frame0 rest]; [reflexivity|].
  unfold canonicalize_frames. simpl.
  destruct (fill_players_ok 0 (player_pos frame0) (dkeys (player_pos frame0))
              [] []) as (pl & last' & Efill).
  { intros pid Hp. unfold fill_value. apply dget_Some_keys in Hp as [v ->].
    discriminate. }
  rewrite Efill. simpl.
  unfold ball_missing, fill_ball.
  destruct (ball_x (ball frame0)) as [bx|], (ball_y (ball frame0)) as [by_|];
    simpl; try reflexivity.
  destruct (canon_loop_ok (dkeys (player_pos frame0)) rest 1 last' (bx, by_)
              (owner_id (ball frame0))) as [frames Eloop].
  { intros pid Hp. apply fill_players_spec in Efill as [Hin _].
    destruct (Hin pid Hp) as (_ & E2 & E3). congruence. }
  rewrite Eloop. simpl. eauto.
Qed.

Lemma player_unfillable_never (raw_frames : list (RawFrame F)) pid i :
  ~ player_unfillable raw_frames pid i.
Proof.
  intros (Hp & Hi & Hnone). destruct raw_frames as [|frame0 rest].
  - destruct Hp.
  - simpl in Hp. apply dget_Some_keys in Hp as [v Hv].
    specialize (Hnone 0 frame0 (Nat.le_0_l i) eq_refl). congruence.
Qed.

Lemma ball_unresolved_iff (frame0 : RawFrame F) rest :
  (exists i, ball_unresolved (frame0 :: rest) i) <-> ball_missing frame0 = true.
Proof.
  split.
  - intros (i & _ & Hall). exact (Hall 0 frame0 (Nat.le_0_l i) eq_refl).
  - intros Hm. exists 0. split; [simpl; lia|].
    intros j rf Hj Hn. assert (j = 0) by lia. subst. now inversion Hn; subst.
Qed.

(** C6.  Forward fill: when the raw frames canonicalise, there is one
    canonical frame per raw frame and, for every player [pid] of [P] and every
    frame index [i + 1 > 0], a player present in raw frame [i + 1] has exactly
    its raw position there, and a player absent from it has the position it
    has in canonical frame [i]. *)
Theorem forward_fill_correct (raw_frames : list (RawFrame F))
    (frames : list (Frame F)) (P : list string) :
  canonicalize_frames raw_frames = Ok (frames, P) ->
  List.length frames = List.length raw_frames
  /\ forall i (rf : RawFrame F) (fr fr_prev : Frame F) pid,
      In pid P ->
      nth_error raw_frames (S i) = Some rf ->
      nth_error frames (S i) = Some fr ->
      nth_error frames i = Some fr_prev ->
      match dget pid (player_pos rf) with
      | Some p => dget pid (players fr) = Some p
      | None => dget pid (players fr) = dget pid (players fr_prev)
                /\ dget pid (players fr) <> None
      end.
Proof.
  intros E. unfold canonicalize_frames in E.
  destruct raw_frames as [|frame0 rest]; [discriminate|].
  bind_ok E as frames' Eloop. inversion E; subst; clear E.
  apply canon_loop_spec in Eloop as (Hlen & _ & Hnext).
  split; [assumption|].
  intros i rf fr fr_prev pid Hp Hrf Hfr Hprev.
  destruct (Hnext i rf fr fr_prev Hrf Hfr Hprev pid Hp) as [E1 E2].
  unfold fill_value in E1.
  destruct (dget pid (player_pos rf)); [assumption|]. split; congruence.
Qed.

(** C7.  Validation errors: canonicalisation raises exactly on bad-shaped
    input (an empty list, a player of [P] that no frame so far positioned,
    a ball that no frame so far positioned); the error is a [ValueError]
    whose message names the offending player and frame; on every other
    input the result is the complete list of frames with [P], one frame per
    raw frame.  (The player case cannot arise: [P] is read off frame 0, which
    positions every player of [P].) *)
Theorem canonicalize_fails_iff_bad_shape (raw_frames : list (RawFrame F)) :
  (bad_shape raw_frames <-> exists e, canonicalize_frames raw_frames = Raise e)
  /\ (forall e, canonicalize_frames raw_frames = Raise e ->
                identifies raw_frames e)
  /\ (~ bad_shape raw_frames ->
      exists frames,
        canonicalize_frames raw_frames = Ok (frames, frame0_players raw_frames)
        /\ List.length frames = List.length raw_frames).
Proof.
  pose proof (canonicalize_frames_outcome raw_frames) as Hout.
  destruct raw_frames as [|frame0 rest].
  - split; [|split].
    + split; [intros _; eauto | intros _; now left].
    + intros e He. left. split; [reflexivity | congruence].
    + intros Hn. exfalso. apply Hn. now left.
  - destruct (ball_missing frame0) eqn:Hm.
    + assert (Hu : exists i, ball_unresolved (frame0 :: rest) i)
        by now apply ball_unresolved_iff.
      split; [|split].
      * split; [intros _; eauto | intros _; right; right; exact Hu].
      * intros e He. right; right. exists 0. split.
        -- split; [simpl; lia|]. intros j rf Hj Hn.
           assert (j = 0) by lia. subst. now inversion Hn; subst.
        -- congruence.
      * intros Hn. exfalso. apply Hn. right; right. exact Hu.
    + destruct Hout as [frames Hok]. split; [|split].
      * split.
        -- intros [Hnil|[(pid & i & Hp)|Hb]].
           ++ discriminate.
           ++ exfalso. exact (player_unfillable_never _ _ _ Hp).
           ++ apply ball_unresolved_iff in Hb. congruence.
        -- intros [e He]. congruence.
      * intros e He. congruence.
      * intros _. exists frames. split; [exact Hok|].
        unfold canonicalize_frames in Hok. bind_ok Hok as frames' Eloop.
        inversion Hok; subst. apply canon_loop_spec in Eloop. tauto.
Qed.

End CanonFacts.

(* ================================================================== *)
(** * Temporal smoothing *)
(* ================================================================== *)

Section SortFacts.
Context {F : Type} {N : Num F}.

Lemma insert_desc_perm (e : ScoredEvent F) l :
  Permutation (insert_desc e l) (e :: l).
Proof.
  induction l as [|x r IH]; simpl; [reflexivity|].
  destruct (nltb (score e) (score x)); [|reflexivity].
  rewrite IH. apply perm_swap.
Qed.

Lemma sort_desc_perm (l : list (ScoredEvent F)) : Permutation (sort_desc l) l.
Proof.
  induction l as [|e l IH]; simpl; [reflexivity|].
  rewrite insert_desc_perm. now constructor.
Qed.

Lemma sort_desc_nonempty (l : list (ScoredEvent F)) :
  l <> [] -> exists top rest, sort_desc l = top :: rest.
Proof.
  intros Hne. destruct (sort_desc l) as [|top rest] eqn:E; [|eauto].
  exfalso. apply Hne. apply Permutation_nil. rewrite <- E.
  apply sort_desc_perm.
Qed.

Lemma insert_key_perm {V} (kv : nat * V) l : Permutation (insert_key kv l) (kv :: l).
Proof.
  induction l as [|x r IH]; simpl; [reflexivity|].
  destruct (Nat.ltb (fst x) (fst kv)); [|reflexivity].
  rewrite IH. apply perm_swap.
Qed.

Lemma sorted_items_perm {V} (d : dict nat V) : Permutation (sorted_items d) d.
Proof.
  induction d as [|kv d IH]; simpl; [reflexivity|].
  rewrite insert_key_perm. now constructor.
Qed.

Lemma insert_key_sorted {V} (kv : nat * V) l :
  StronglySorted (fun a b => fst a <= fst b) l ->
  StronglySorted (fun a b => fst a <= fst b) (insert_key kv l).
Proof.
  induction 1 as [|x r Hs IH Hall]; simpl.
  - repeat constructor.
  - destruct (Nat.ltb (fst x) (fst kv)) eqn:E.
    + apply Nat.ltb_lt in E. constructor; [assumption|].
      apply (Permutation_Forall (Permutation_sym (insert_key_perm kv r))).
      constructor; [lia | assumption].
    + apply Nat.ltb_ge in E. constructor.
      * now constructor.
      * constructor; [assumption|].
        eapply Forall_impl; [|exact Hall]. simpl. intros; lia.
Qed.

Lemma sorted_items_sorted {V} (d : dict nat V) :
  StronglySorted (fun a b => fst a <= fst b) (sorted_items d).
Proof.
  induction d as [|kv d IH]; simpl; [constructor|].
  now apply insert_key_sorted.
Qed.

Lemma StronglySorted_app_inv {A} (R : A -> A -> Prop) (a b : list A) (x : A) :
  StronglySorted R (a ++ x :: b) ->
  Forall (fun y => R y x) a /\ Forall (R x) b.
Proof.
  induction a as [|y a IH]; simpl; intros Hs.
  - inversion Hs; subst. auto.
  - inversion Hs as [|? ? Hs' Hall]; subst. destruct (IH Hs') as [H1 H2].
    split; [|assumption]. constructor; [|assumption].
    rewrite Forall_forall in Hall. apply Hall. apply in_or_app. right. now left.
Qed.

Lemma sorted_items_In {V} (d : dict nat V) (i : nat) (v : V) :
  NoDup (dkeys d) -> (In (i, v) (sorted_items d) <-> dget i d = Some v).
Proof.
  intros Hnd. split.
  - intros Hin. apply In_dget; [assumption|].
    eapply Permutation_in; [apply sorted_items_perm | exact Hin].
  - intros Hg. apply dget_In in Hg.
    eapply Permutation_in; [symmetry; apply sorted_items_perm | exact Hg].
Qed.

Lemma sorted_items_keys_NoDup {V} (d : dict nat V) :
  NoDup (dkeys d) -> NoDup (map fst (sorted_items d)).
Proof.
  intros Hnd. eapply Permutation_NoDup; [|exact Hnd].
  apply Permutation_map. symmetry. apply sorted_items_perm.
Qed.

(** The place of frame [i] in the order of the loop: strictly after the
    smaller keys, strictly before the larger ones. *)
Lemma sorted_items_split {V} (d : dict nat V) (i : nat) (v : V) :
  NoDup (dkeys d) -> dget i d = Some v ->
  exists pre post,
    sorted_items d = pre ++ (i, v) :: post
    /\ Forall (fun kv => fst kv < i) pre
    /\ Forall (fun kv => i < fst kv) post.
Proof.
  intros Hnd Hg. apply sorted_items_In in Hg; [|assumption].
  apply in_split in Hg as (pre & post & E). exists pre, post.
  split; [assumption|].
  pose proof (sorted_items_sorted d) as Hs.
  pose proof (sorted_items_keys_NoDup d Hnd) as Hk.
  rewrite E in Hs, Hk. apply StronglySorted_app_inv in Hs as [Hpre Hpost].
  rewrite map_app in Hk. simpl in Hk.
  pose proof (NoDup_remove_2 _ _ _ Hk) as Hni.
  split; rewrite Forall_forall in *.
  - intros kv Hin. specialize (Hpre kv Hin). simpl in Hpre.
    assert (fst kv <> i); [|lia].
    intros Heq. apply Hni. apply in_or_app. left. rewrite <- Heq.
    now apply in_map.
  - intros kv Hin. specialize (Hpost kv Hin). simpl in Hpost.
    assert (fst kv <> i); [|lia].
    intros Heq. apply Hni. apply in_or_app. right. rewrite <- Heq.
    now apply in_map.
Qed.

End SortFacts.

Section SmoothFacts.
Context {F : Type} {N : Num F}.
Implicit Types (cfg : AlgoConfig F) (d out : dict nat (list (ScoredEvent F))).
Implicit Types (items pre post : list (nat * list (ScoredEvent F))).
Implicit Types (prev : option (ScoredEvent F)) (events : list (ScoredEvent F)).

Lemma smooth_loop_preserve cfg items :
  forall prev out i,
    ~ In i (map fst items) ->
    dget i (smooth_loop cfg items prev out) = dget i out.
Proof.
  induction items as [|[j evs] items IH]; intros prev out i Hni; simpl;
    [reflexivity|].
  destruct (smooth_frame cfg prev evs) as [o prev'].
  rewrite IH by (intros Hin; apply Hni; now right).
  apply dget_dset_neq. intros ->. apply Hni. now left.
Qed.

Lemma smooth_loop_get cfg pre i events post :
  forall prev out,
    ~ In i (map fst post) ->
    dget i (smooth_loop cfg (pre ++ (i, events) :: post) prev out)
    = Some (fst (smooth_frame cfg (carried cfg prev pre) events)).
Proof.
  induction pre as [|[j evs] pre IH]; intros prev out Hni; simpl.
  - destruct (smooth_frame cfg prev events) as [o prev'] eqn:E. simpl.
    rewrite smooth_loop_preserve by assumption. apply dget_dset_eq.
  - change (carried cfg prev ((j, evs) :: pre))
      with (carried cfg (snd (smooth_frame cfg prev evs)) pre).
    destruct (smooth_frame cfg prev evs) as [o prev']. simpl.
    now rewrite IH.
Qed.

Lemma smooth_loop_keys cfg items :
  forall prev out,
    NoDup (dkeys out ++ map fst items) ->
    dkeys (smooth_loop cfg items prev out) = dkeys out ++ map fst items.
Proof.
  induction items as [|[j evs] items IH]; intros prev out Hnd; simpl.
  - now rewrite app_nil_r.
  - destruct (smooth_frame cfg prev evs) as [o prev'].
    assert (Hni : ~ In j (dkeys out)).
    { intros Hin. apply NoDup_remove_2 in Hnd. apply Hnd.
      apply in_or_app. now left. }
    simpl in Hnd.
    rewrite IH; rewrite dkeys_dset_notin by assumption;
      rewrite <- app_assoc; [reflexivity | exact Hnd].
Qed.

Lemma smooth_frame_snd cfg prev events :
  events <> [] ->
  snd (smooth_frame cfg prev events)
  = hd_error (fst (smooth_frame cfg prev events)).
Proof.
  intros Hne. unfold smooth_frame.
  destruct events as [|e0 es]; [contradiction|].
  destruct prev; reflexivity.
Qed.

Lemma carried_all_empty cfg prev items :
  Forall (fun kv => snd kv = []) items -> carried cfg prev items = prev.
Proof.
  unfold carried. induction 1 as [|[j evs] items He _ IH]; simpl;
    [reflexivity|].
  simpl in He. subst evs. exact IH.
Qed.

Lemma carried_app cfg prev pre post :
  carried cfg prev (pre ++ post) = carried cfg (carried cfg prev pre) post.
Proof. apply fold_left_app. Qed.

(** With no carried primary, the loop still has none after [items] only if
    all of [items] were empty frames. *)
Lemma carried_Some cfg items :
  forall p, carried cfg (Some p) items <> None.
Proof.
  induction items as [|[k evs] items IH]; intros p; [discriminate|].
  change (carried cfg (Some p) ((k, evs) :: items))
    with (carried cfg (snd (smooth_frame cfg (Some p) evs)) items).
  destruct evs as [|e1 es1]; simpl; [apply IH|].
  destruct (@sort_desc_nonempty F N (map (adjust cfg p) (e1 :: es1)))
    as (top & rest & Es); [discriminate|].
  simpl in Es. rewrite Es. simpl. apply IH.
Qed.

Lemma carried_None_inv cfg items :
  carried cfg None items = None -> Forall (fun kv => snd kv = []) items.
Proof.
  induction items as [|[j evs] items IH]; intros E; [constructor|].
  change (carried cfg None ((j, evs) :: items))
    with (carried cfg (snd (smooth_frame cfg None evs)) items) in E.
  destruct evs as [|e0 es]; simpl in E.
  - constructor; [reflexivity | apply IH; exact E].
  - exfalso. exact (carried_Some _ _ _ E).
Qed.

(** What the smoother stores for frame [i]. *)
Lemma apply_temporal_smoothing_get cfg d i events :
  NoDup (dkeys d) -> dget i d = Some events ->
  exists pre post,
    sorted_items d = pre ++ (i, events) :: post
    /\ Forall (fun kv => fst kv < i) pre
    /\ Forall (fun kv => i < fst kv) post
    /\ dget i (apply_temporal_smoothing d cfg)
       = Some (fst (smooth_frame cfg (carried cfg None pre) events)).
Proof.
  intros Hnd Hg.
  destruct (sorted_items_split d i events Hnd Hg)
    as (pre & post & E & Hpre & Hpost).
  exists pre, post. repeat split; try assumption.
  unfold apply_temporal_smoothing. destruct d as [|kv d']; [discriminate|].
  rewrite E. apply smooth_loop_get.
  intros Hin. apply in_map_iff in Hin as (kv' & Hk & Hin).
  rewrite Forall_forall in Hpost. specialize (Hpost kv' Hin). lia.
Qed.

Lemma all_empty_before_pre d i pre x post :
  NoDup (dkeys d) -> sorted_items d = pre ++ x :: post ->
  Forall (fun kv => fst kv < i) pre ->
  all_empty_before d i -> Forall (fun kv => snd kv = []) pre.
Proof.
  intros Hnd E Hpre Hall. rewrite Forall_forall in *.
  intros [j evs] Hin. simpl. apply (Hall j evs).
  - exact (Hpre _ Hin).
  - apply sorted_items_In; [assumption|]. rewrite E. apply in_or_app. now left.
Qed.

Lemma adjust_adjusted_version cfg p ev : adjusted_version cfg ev (adjust cfg p ev).
Proof.
  unfold adjusted_version, adjust. simpl. repeat split.
  destruct (_same_focus ev p).
  - eexists. split; [|split; [reflexivity | now left]].
    destruct (nltb nzero (persistence_bonus cfg)); auto.
  - eexists. split; [|split; [reflexivity | now right]].
    destruct (nltb nzero (nopp (switch_penalty cfg))); auto.
Qed.

Lemma adjusted_smoothed cfg ev ev' :
  adjusted_version cfg ev ev' -> smoothed_version cfg ev ev'.
Proof. intros (H1 & H2 & H3 & H4). repeat split; auto. Qed.

Lemma smoothed_version_refl cfg ev : smoothed_version cfg ev ev.
Proof. repeat split; auto. Qed.

Lemma Forall2_map_r {A B} (R : A -> B -> Prop) (f : A -> B) (l : list A) :
  (forall a, R a (f a)) -> Forall2 R l (map f l).
Proof. intros Hf. induction l; simpl; constructor; auto. Qed.

End SmoothFacts.

Section SmoothClaims.
Context {F : Type} {N : Num F}.
Implicit Types (cfg : AlgoConfig F) (d : dict nat (list (ScoredEvent F))).

Lemma smoothing_keys cfg d :
  NoDup (dkeys d) ->
  Permutation (dkeys (apply_temporal_smoothing d cfg)) (dkeys d).
Proof.
  intros Hnd.
  assert (Hloop : Permutation
                    (dkeys (smooth_loop cfg (sorted_items d) None [])) (dkeys d)).
  { rewrite smooth_loop_keys.
    - apply (Permutation_map fst (sorted_items_perm d)).
    - now apply sorted_items_keys_NoDup. }
  unfold apply_temporal_smoothing. destruct d; [reflexivity | exact Hloop].
Qed.

(** With frames before [i] all empty, frame [i] is stored as it is. *)
Lemma smoothing_first_frame cfg d i events :
  NoDup (dkeys d) -> dget i d = Some events -> all_empty_before d i ->
  dget i (apply_temporal_smoothing d cfg) = Some events.
Proof.
  intros Hnd Hg Hall.
  destruct (apply_temporal_smoothing_get cfg d i _ Hnd Hg)
    as (pre & post & E & Hpre & Hpost & Hout).
  rewrite Hout, carried_all_empty
    by (eapply all_empty_before_pre; eassumption).
  destruct events; reflexivity.
Qed.

(** Frame [i1] is adjusted against the top-ranked event stored for the last
    non-empty frame [i0] before it. *)
Lemma smoothing_after_gap cfg d i0 i1 ev0 ev1 :
  NoDup (dkeys d) -> i0 < i1 ->
  dget i0 d = Some ev0 -> ev0 <> [] ->
  dget i1 d = Some ev1 -> ev1 <> [] ->
  all_empty_between d i0 i1 ->
  exists out0 p,
    dget i0 (apply_temporal_smoothing d cfg) = Some out0
    /\ hd_error out0 = Some p
    /\ dget i1 (apply_temporal_smoothing d cfg)
       = Some (sort_desc (map (adjust cfg p) ev1)).
Proof.
  intros Hnd Hlt Hg0 Hne0 Hg1 Hne1 Hgap.
  destruct (apply_temporal_smoothing_get cfg d i1 _ Hnd Hg1)
    as (pre1 & post1 & E & Hpre & Hpost & Hout1).
  assert (Hin0 : In (i0, ev0) pre1).
  { pose proof (proj2 (sorted_items_In d i0 ev0 Hnd) Hg0) as Hin.
    rewrite E in Hin. apply in_app_or in Hin as [Hin|[Heq|Hin]].
    - assumption.
    - inversion Heq. lia.
    - rewrite Forall_forall in Hpost. specialize (Hpost _ Hin). simpl in Hpost. lia. }
  apply in_split in Hin0 as (a & b & Epre). subst pre1.
  rewrite <- app_assoc in E. simpl in E.
  pose proof (sorted_items_sorted d) as Hs.
  pose proof (sorted_items_keys_NoDup d Hnd) as Hk.
  rewrite E in Hs, Hk.
  apply StronglySorted_app_inv in Hs as [_ Hafter].
  rewrite map_app in Hk. simpl in Hk. apply NoDup_remove_2 in Hk.
  (* the frames of the gap are empty *)
  assert (Hb : Forall (fun kv => snd kv = []) b).
  { rewrite Forall_forall in *. intros [j evs] Hin. simpl.
    apply (Hgap j evs).
    - assert (Hle : i0 <= j).
      { apply (Hafter (j, evs)). apply in_or_app. now left. }
      assert (j <> i0); [|lia].
      intros ->. apply Hk. apply in_or_app. right.
      rewrite map_app. apply in_or_app. left.
      change i0 with (fst (i0, evs)). now apply in_map.
    - apply (Hpre (j, evs)). apply in_or_app. right. now right.
    - apply sorted_items_In; [assumption|]. rewrite E.
      apply in_or_app. right. right. apply in_or_app. now left. }
  assert (Hout0 : dget i0 (apply_temporal_smoothing d cfg)
                  = Some (fst (smooth_frame cfg (carried cfg None a) ev0))).
  { unfold apply_temporal_smoothing. destruct d as [|kv d']; [discriminate|].
    rewrite E. apply smooth_loop_get.
    intros Hin. apply Hk. apply in_or_app. now right. }
  assert (Hc : carried cfg None (a ++ (i0, ev0) :: b)
               = hd_error (fst (smooth_frame cfg (carried cfg None a) ev0))).
  { rewrite carried_app.
    change (carried cfg (carried cfg None a) ((i0, ev0) :: b))
      with (carried cfg (snd (smooth_frame cfg (carried cfg None a) ev0)) b).
    rewrite carried_all_empty by assumption.
    now apply smooth_frame_snd. }
  rewrite Hc in Hout1.
  destruct (hd_error (fst (smooth_frame cfg (carried cfg None a) ev0)))
    as [p|] eqn:Ehd.
  - exists (fst (smooth_frame cfg (carried cfg None a) ev0)), p.
    repeat split; try assumption.
    rewrite Hout1. destruct ev1; [contradiction | reflexivity].
  - exfalso. rewrite <- smooth_frame_snd in Ehd by assumption.
    destruct ev0 as [|e0 es0]; [contradiction|].
    destruct (carried cfg None a) as [q|]; simpl in Ehd; [|discriminate].
    destruct (@sort_desc_nonempty F N (map (adjust cfg q) (e0 :: es0)))
      as (top & rest & Es); [discriminate|].
    simpl in Es. rewrite Es in Ehd. discriminate.
Qed.

(** C9.  The smoother changes only scores and reasons: the output has the
    frames of the input and, frame by frame, a list of the same length that
    is a reordering of events each keeping the name, focus target and
    metadata of its input event, with the score unchanged or moved by exactly
    [+persistence_bonus] or [-switch_penalty] and at most one tag appended to
    the reasons; the first non-empty frame is returned as it is, every later
    one has each event adjusted.  (The input is a value: nothing mutates
    it.) *)
Theorem smoothing_preserves_events cfg d :
  NoDup (dkeys d) ->
  Permutation (dkeys (apply_temporal_smoothing d cfg)) (dkeys d)
  /\ forall i events,
      dget i d = Some events ->
      exists out_i evs',
        dget i (apply_temporal_smoothing d cfg) = Some out_i
        /\ List.length out_i = List.length events
        /\ Permutation evs' out_i
        /\ Forall2 (smoothed_version cfg) events evs'
        /\ (all_empty_before d i -> out_i = events)
        /\ (~ all_empty_before d i ->
            Forall2 (adjusted_version cfg) events evs').
Proof.
  intros Hnd. split; [now apply smoothing_keys|].
  intros i events Hg.
  destruct (apply_temporal_smoothing_get cfg d i _ Hnd Hg)
    as (pre & post & E & Hpre & Hpost & Hout).
  assert (Hfirst : all_empty_before d i ->
                   fst (smooth_frame cfg (carried cfg None pre) events) = events).
  { intros Hall. pose proof (smoothing_first_frame cfg d i _ Hnd Hg Hall) as Hf.
    congruence. }
  destruct events as [|e0 es].
  { exists [], []. simpl in *. repeat split; auto; constructor. }
  destruct (carried cfg None pre) as [p|] eqn:Ec.
  - exists (sort_desc (map (adjust cfg p) (e0 :: es))),
      (map (adjust cfg p) (e0 :: es)).
    split; [exact Hout|]. split.
    { rewrite (Permutation_length (sort_desc_perm _)). apply length_map. }
    split; [symmetry; apply sort_desc_perm|]. split.
    { apply Forall2_map_r. intros ev. apply adjusted_smoothed.
      apply adjust_adjusted_version. }
    split; [exact Hfirst|].
    intros _. apply Forall2_map_r. intros ev. apply adjust_adjusted_version.
  - exists (e0 :: es), (e0 :: es).
    split; [exact Hout|]. split; [reflexivity|]. split; [reflexivity|].
    split.
    { clear. induction (e0 :: es); constructor;
        auto using smoothed_version_refl. }
    split; [reflexivity|].
    intros Hn. exfalso. apply Hn. intros j evs Hj Hgj.
    apply carried_None_inv in Ec. rewrite Forall_forall in Ec.
    apply (Ec (j, evs)).
    pose proof (proj2 (sorted_items_In d j evs Hnd) Hgj) as Hin.
    rewrite E in Hin. apply in_app_or in Hin as [Hin|[Heq|Hin]].
    + assumption.
    + inversion Heq. lia.
    + rewrite Forall_forall in Hpost. specialize (Hpost _ Hin).
      simpl in Hpost. lia.
Qed.

Lemma _same_focus_same_target (a b : ScoredEvent F) :
  _same_focus a b = true <-> same_target a b.
Proof.
  unfold _same_focus, same_target.
  destruct (anchor (focus a)) as [ax ay], (anchor (focus b)) as [bx by_].
  cbn [fst snd].
  destruct (target_type (focus a)), (target_type (focus b)); cbn;
    try (split; [discriminate | intros [H _]; discriminate]);
    (destruct (target_player_id (focus a)) as [s|],
        (target_player_id (focus b)) as [t|]; cbn;
     try (split; [discriminate | intros (_ & H & _); discriminate]);
     [destruct (String.eqb_spec s t) as [->|Hne]; cbn;
      [|split; [discriminate | intros (_ & H & _); congruence]]|];
     rewrite andb_true_iff; tauto).
Qed.

Lemma adjust_adjusted_against (cfg : AlgoConfig F) p ev :
  adjusted_against cfg p ev (adjust cfg p ev).
Proof.
  unfold adjusted_against, adjust. cbn. repeat split.
  destruct (_same_focus ev p) eqn:E.
  - exists (persistence_bonus cfg). split; [reflexivity|]. split.
    + intros Hn. exfalso. apply Hn. now apply _same_focus_same_target.
    + split; reflexivity.
  - exists (nopp (switch_penalty cfg)). split.
    + intros Hs. apply _same_focus_same_target in Hs. congruence.
    + split; [reflexivity|]. split; reflexivity.
Qed.

(** C10.  Empty frames: a frame with no scored event yields an empty list;
    as long as only empty frames came before, a frame is returned as it is
    (so the first non-empty frame passes through unchanged); and a
    non-empty frame [i1] that follows a non-empty frame [i0], with only
    empty frames between them, holds its own events, reordered, each
    adjusted against the event [p] stored first for [i0]: its score has
    [+persistence_bonus] when the event looks at the target of [p] and
    [-switch_penalty] when it does not, and the tag is appended to its
    reasons.  The gap did not reset the carried primary; and when [i0] is
    the first non-empty frame, [p] is its first input event. *)
Theorem smoothing_skips_empty_frames cfg d :
  NoDup (dkeys d) ->
  (forall i, dget i d = Some [] ->
             dget i (apply_temporal_smoothing d cfg) = Some [])
  /\ (forall i events,
        dget i d = Some events -> all_empty_before d i ->
        dget i (apply_temporal_smoothing d cfg) = Some events)
  /\ (forall i0 i1 ev0 ev1,
        i0 < i1 ->
        dget i0 d = Some ev0 -> ev0 <> [] ->
        dget i1 d = Some ev1 -> ev1 <> [] ->
        all_empty_between d i0 i1 ->
        exists out0 p out1 evs',
          dget i0 (apply_temporal_smoothing d cfg) = Some out0
          /\ hd_error out0 = Some p
          /\ (all_empty_before d i0 -> hd_error ev0 = Some p)
          /\ dget i1 (apply_temporal_smoothing d cfg) = Some out1
          /\ Permutation evs' out1
          /\ Forall2 (adjusted_against cfg p) ev1 evs').
Proof.
  intros Hnd. split; [|split].
  - intros i Hg.
    destruct (apply_temporal_smoothing_get cfg d i _ Hnd Hg)
      as (pre & post & _ & _ & _ & Hout).
    exact Hout.
  - intros i events. now apply smoothing_first_frame.
  - intros i0 i1 ev0 ev1 Hlt Hg0 Hne0 Hg1 Hne1 Hgap.
    destruct (smoothing_after_gap cfg d i0 i1 ev0 ev1 Hnd Hlt Hg0 Hne0 Hg1
                Hne1 Hgap) as (out0 & p & Ho0 & Hp & Ho1).
    exists out0, p, (sort_desc (map (adjust cfg p) ev1)),
      (map (adjust cfg p) ev1).
    split; [exact Ho0|]. split; [exact Hp|]. split.
    { intros Hall.
      pose proof (smoothing_first_frame cfg d i0 ev0 Hnd Hg0 Hall) as Hf.
      rewrite Hf in Ho0. inversion Ho0; subst. exact Hp. }
    split; [exact Ho1|]. split; [symmetry; apply sort_desc_perm|].
    apply Forall2_map_r. intros ev. apply adjust_adjusted_against.
Qed.

End SmoothClaims.

(* ================================================================== *)
(** * Hysteresis of the smoother *)
(* ================================================================== *)

(** ** The order of scores: exact numbers and binary64 *)

Section ExactOrder.
Context {F : Type} {N : Num F} {E : ExactNum F}.

Lemma exact_nltb_asym (a b : F) : nltb a b = true -> nltb b a = false.
Proof.
  intros Hab. destruct (nltb b a) eqn:Hba; [|reflexivity].
  pose proof (nltb_trans _ _ _ Hab Hba) as Haa.
  rewrite nltb_irrefl in Haa. discriminate.
Qed.

Lemma exact_nge_trans (a b c : F) :
  nltb a b = false -> nltb b c = false -> nltb a c = false.
Proof.
  intros Hab Hbc. destruct (nltb a c) eqn:Hac; [|reflexivity].
  destruct (nltb b a) eqn:Hba.
  - rewrite (nltb_trans _ _ _ Hba Hac) in Hbc. discriminate.
  - rewrite (nltb_total _ _ Hab Hba) in Hac. congruence.
Qed.

#[export] Instance exact_ScoreOrder : ScoreOrder F := {|
  comparable := fun _ => True;
  nltb_asym := fun a b _ _ => exact_nltb_asym a b;
  nge_trans := fun a b c _ _ _ => exact_nge_trans a b c
|}.

Lemma nadd_opp_l (a : F) : nadd (nopp a) a = nzero.
Proof. rewrite nadd_comm. apply nadd_opp. Qed.

(** [c - m < sp + pb] rearranged: [c - sp < m + pb]. *)
Lemma lag_arith (c m sp pb : F) :
  nltb (nsub c m) (nadd sp pb) = true ->
  nltb (nadd c (nopp sp)) (nadd m pb) = true.
Proof.
  intros H. rewrite nsub_def in H.
  apply (nadd_lt _ _ (nadd m (nopp sp))) in H.
  replace (nadd (nadd c (nopp m)) (nadd m (nopp sp)))
    with (nadd c (nopp sp)) in H.
  2:{ rewrite nadd_assoc. rewrite <- (nadd_assoc c (nopp m) m).
      now rewrite nadd_opp_l, nadd_zero. }
  replace (nadd (nadd sp pb) (nadd m (nopp sp))) with (nadd m pb) in H.
  2:{ rewrite (nadd_comm (nadd sp pb)). rewrite nadd_assoc.
      rewrite <- (nadd_assoc m (nopp sp) sp).
      now rewrite nadd_opp_l, nadd_zero. }
  exact H.
Qed.

End ExactOrder.

Section FloatOrderLaws.

Lemma SFltb_key (f1 f2 : spec_float) :
  f1 <> S754_nan -> f2 <> S754_nan ->
  (SFltb f1 f2 = true <-> key_lt (sf_key f1) (sf_key f2)).
Proof.
  intros H1 H2. unfold SFltb.
  destruct f1 as [s1|s1| |s1 m1 e1]; destruct f2 as [s2|s2| |s2 m2 e2];
    try congruence;
    try destruct s1; try destruct s2; simpl;
    try (split; [discriminate | lia]);
    try (split; [lia | reflexivity]);
    try (split; [intros _; lia | reflexivity]).
  - change (Pos.compare_cont Eq m1 m2) with (Pos.compare m1 m2).
    destruct (Z.compare_spec e1 e2); simpl;
      [destruct (Pos.compare_spec m1 m2); simpl|..];
      split; try discriminate; try lia; reflexivity.
  - change (Pos.compare_cont Eq m1 m2) with (Pos.compare m1 m2).
    destruct (Z.compare_spec e1 e2); simpl;
      [destruct (Pos.compare_spec m1 m2); simpl|..];
      split; try discriminate; try lia; reflexivity.
Qed.

Lemma not_nan_spec (x : float) : not_nan x -> Prim2SF x <> S754_nan.
Proof.
  unfold not_nan. rewrite leb_spec. intros H Hn. rewrite Hn in H.
  discriminate.
Qed.

Lemma float_ltb_key (a b : float) :
  not_nan a -> not_nan b ->
  (PrimFloat.ltb a b = true
   <-> key_lt (sf_key (Prim2SF a)) (sf_key (Prim2SF b))).
Proof.
  intros Ha Hb. rewrite ltb_spec.
  apply SFltb_key; now apply not_nan_spec.
Qed.

Lemma float_ltb_false_key (a b : float) :
  not_nan a -> not_nan b ->
  (PrimFloat.ltb a b = false
   <-> ~ key_lt (sf_key (Prim2SF a)) (sf_key (Prim2SF b))).
Proof.
  intros Ha Hb. rewrite <- (float_ltb_key a b Ha Hb).
  destruct (PrimFloat.ltb a b); split; congruence.
Qed.

Lemma float_nltb_asym (a b : float) :
  not_nan a -> not_nan b ->
  PrimFloat.ltb a b = true -> PrimFloat.ltb b a = false.
Proof.
  intros Ha Hb. rewrite (float_ltb_key a b Ha Hb), (float_ltb_false_key b a Hb Ha).
  destruct (sf_key (Prim2SF a)) as [[c1 e1] m1].
  destruct (sf_key (Prim2SF b)) as [[c2 e2] m2]. simpl. lia.
Qed.

Lemma float_nge_trans (a b c : float) :
  not_nan a -> not_nan b -> not_nan c ->
  PrimFloat.ltb a b = false -> PrimFloat.ltb b c = false ->
  PrimFloat.ltb a c = false.
Proof.
  intros Ha Hb Hc.
  rewrite (float_ltb_false_key a b Ha Hb), (float_ltb_false_key b c Hb Hc),
    (float_ltb_false_key a c Ha Hc).
  destruct (sf_key (Prim2SF a)) as [[c1 e1] m1].
  destruct (sf_key (Prim2SF b)) as [[c2 e2] m2].
  destruct (sf_key (Prim2SF c)) as [[c3 e3] m3]. simpl. lia.
Qed.

#[export] Instance float_ScoreOrder : ScoreOrder float := {|
  comparable := not_nan;
  nltb_asym := float_nltb_asym;
  nge_trans := float_nge_trans
|}.

End FloatOrderLaws.

(** ** The top of a sorted list *)

Section Lag.
Context {F : Type} {N : Num F} {O : ScoreOrder F}.
Implicit Types (cfg : AlgoConfig F) (d : dict nat (list (ScoredEvent F))).

Let ge (a b : ScoredEvent F) : Prop := nltb (score a) (score b) = false.
Let ok (e : ScoredEvent F) : Prop := comparable (score e).

Lemma insert_desc_sorted (e : ScoredEvent F) l :
  ok e -> Forall ok l ->
  StronglySorted ge l -> StronglySorted ge (insert_desc e l).
Proof.
  intros He Hl Hs. induction Hs as [|x r Hs IH Hall]; simpl.
  - repeat constructor.
  - inversion Hl as [|? ? Hx Hr]; subst.
    destruct (nltb (score e) (score x)) eqn:Hex.
    + constructor; [auto|].
      apply (Permutation_Forall (Permutation_sym (insert_desc_perm e r))).
      constructor; [|assumption].
      unfold ge. now apply nltb_asym.
    + constructor; [now constructor|].
      constructor; [assumption|].
      rewrite Forall_forall in *. intros y Hy.
      unfold ge. apply (nge_trans _ (score x)); auto.
      * apply Hr. assumption.
      * apply Hall. assumption.
Qed.

Lemma sort_desc_sorted (l : list (ScoredEvent F)) :
  Forall ok l -> StronglySorted ge (sort_desc l).
Proof.
  induction 1 as [|e l He Hl IH]; simpl; [constructor|].
  apply insert_desc_sorted; [assumption | | assumption].
  apply (Permutation_Forall (Permutation_sym (sort_desc_perm l))). assumption.
Qed.

Lemma nltb_irrefl_comparable (a : F) : comparable a -> nltb a a = false.
Proof.
  intros Ha. destruct (nltb a a) eqn:E; [|reflexivity].
  pose proof (nltb_asym a a Ha Ha E). congruence.
Qed.

(** The first event after sorting is below no event of the list. *)
Lemma sort_desc_top_max (l : list (ScoredEvent F)) top rest :
  Forall ok l ->
  sort_desc l = top :: rest ->
  forall x, In x l -> nltb (score top) (score x) = false.
Proof.
  intros Hok Es x Hin. pose proof (sort_desc_sorted l Hok) as Hs.
  rewrite Es in Hs.
  assert (Hin' : In x (top :: rest)).
  { rewrite <- Es. eapply Permutation_in; [|exact Hin].
    symmetry. apply sort_desc_perm. }
  destruct Hin' as [<-|Hin'].
  - apply nltb_irrefl_comparable. rewrite Forall_forall in Hok.
    apply Hok. eapply Permutation_in; [apply sort_desc_perm|].
    rewrite Es. now left.
  - inversion Hs as [|? ? _ Hall]; subst. rewrite Forall_forall in Hall.
    apply Hall. assumption.
Qed.

Lemma same_focus_adjust cfg (p q c : ScoredEvent F) :
  _same_focus (adjust cfg p c) q = _same_focus c q.
Proof. reflexivity. Qed.

(** One frame: a matching candidate whose adjusted score is above the
    adjusted score of every candidate that does not match keeps the top
    rank for the carried focus. *)
Lemma sort_adjusted_top_matches cfg (p m : ScoredEvent F) events :
  In m events -> _same_focus m p = true ->
  Forall (fun e => comparable (score (adjust cfg p e))) events ->
  (forall c, In c events -> _same_focus c p = false ->
     nltb (nadd (score c) (nopp (switch_penalty cfg)))
          (nadd (score m) (persistence_bonus cfg)) = true) ->
  exists top rest,
    sort_desc (map (adjust cfg p) events) = top :: rest
    /\ _same_focus top p = true.
Proof.
  intros Hm Hsame Hok Hbelow.
  destruct (@sort_desc_nonempty F N (map (adjust cfg p) events))
    as (top & rest & Es).
  { destruct events; [destruct Hm | discriminate]. }
  exists top, rest. split; [assumption|].
  assert (Htop : In top (map (adjust cfg p) events)).
  { eapply Permutation_in; [apply sort_desc_perm|]. rewrite Es. now left. }
  apply in_map_iff in Htop as (c & <- & Hc).
  rewrite same_focus_adjust.
  destruct (_same_focus c p) eqn:Hcp; [reflexivity|]. exfalso.
  assert (Hok' : Forall ok (map (adjust cfg p) events)).
  { apply Forall_map. exact Hok. }
  pose proof (sort_desc_top_max _ _ _ Hok' Es (adjust cfg p m)
                (in_map (adjust cfg p) _ _ Hm)) as Hmax.
  unfold adjust in Hmax. simpl in Hmax. rewrite Hcp, Hsame in Hmax.
  rewrite (Hbelow c Hc Hcp) in Hmax. discriminate.
Qed.

(** C4 (as amended).  Smoothing lag: let [i1] be a non-empty frame after a
    non-empty frame [i0], only empty frames between them, and [p] the
    top-ranked event stored for [i0] (the carried previous primary).  If
    frame [i1] has a candidate [m] whose focus matches [p] and, for every
    candidate [c] whose focus does not match, the adjusted score
    [score c - switch_penalty] is strictly below the adjusted score
    [score m + persistence_bonus], both as the smoother computes them and
    no adjusted score of the frame being NaN, then the top-ranked event
    stored for [i1] matches [p]: the primary does not switch.  Matching is
    [_same_focus]. *)
Theorem smoothing_lag cfg d i0 i1 ev0 ev1 out0 (p m : ScoredEvent F) :
  NoDup (dkeys d) -> i0 < i1 ->
  dget i0 d = Some ev0 -> ev0 <> [] ->
  dget i1 d = Some ev1 ->
  all_empty_between d i0 i1 ->
  dget i0 (apply_temporal_smoothing d cfg) = Some out0 ->
  hd_error out0 = Some p ->
  In m ev1 -> _same_focus m p = true ->
  Forall (fun e => comparable (score (adjust cfg p e))) ev1 ->
  (forall c, In c ev1 -> _same_focus c p = false ->
     nltb (nadd (score c) (nopp (switch_penalty cfg)))
          (nadd (score m) (persistence_bonus cfg)) = true) ->
  exists top rest,
    dget i1 (apply_temporal_smoothing d cfg) = Some (top :: rest)
    /\ _same_focus top p = true.
Proof.
  intros Hnd Hlt Hg0 Hne0 Hg1 Hgap Hout0 Hp Hm Hsame Hok Hbelow.
  assert (Hne1 : ev1 <> []) by (destruct ev1; [destruct Hm | discriminate]).
  destruct (smoothing_after_gap cfg d i0 i1 ev0 ev1 Hnd Hlt Hg0 Hne0 Hg1
              Hne1 Hgap) as (out0' & p' & Hout0' & Hp' & Hout1).
  assert (p' = p) by congruence. subst p'.
  destruct (sort_adjusted_top_matches cfg p m ev1 Hm Hsame Hok Hbelow)
    as (top & rest & Es & Htop).
  exists top, rest. split; [congruence | assumption].
Qed.

End Lag.

Section LagExact.
Context {F : Type} {N : Num F} {E : ExactNum F}.

(** In exact arithmetic the premise is the margin of the specification: no
    candidate that does not match may exceed the matching one by
    [switch_penalty + persistence_bonus] or more. *)
Lemma smoothing_lag_exact (cfg : AlgoConfig F) d i0 i1 ev0 ev1 out0
    (p m : ScoredEvent F) :
  NoDup (dkeys d) -> i0 < i1 ->
  dget i0 d = Some ev0 -> ev0 <> [] ->
  dget i1 d = Some ev1 ->
  all_empty_between d i0 i1 ->
  dget i0 (apply_temporal_smoothing d cfg) = Some out0 ->
  hd_error out0 = Some p ->
  In m ev1 -> _same_focus m p = true ->
  (forall c, In c ev1 -> _same_focus c p = false ->
     nltb (nsub (score c) (score m))
          (nadd (switch_penalty cfg) (persistence_bonus cfg)) = true) ->
  exists top rest,
    dget i1 (apply_temporal_smoothing d cfg) = Some (top :: rest)
    /\ _same_focus top p = true.
Proof.
  intros Hnd Hlt Hg0 Hne0 Hg1 Hgap Hout0 Hp Hm Hsame Hmargin.
  assert (Hne1 : ev1 <> []) by (destruct ev1; [destruct Hm | discriminate]).
  destruct (smoothing_after_gap cfg d i0 i1 ev0 ev1 Hnd Hlt Hg0 Hne0 Hg1
              Hne1 Hgap) as (out0' & p' & Hout0' & Hp' & Hout1).
  assert (p' = p) by congruence. subst p'.
  destruct (sort_adjusted_top_matches cfg p m ev1 Hm Hsame)
    as (top & rest & Es & Htop).
  - apply Forall_forall. intros e _. exact I.
  - intros c Hc Hcp. apply lag_arith. auto.
  - exists top, rest. split; [congruence | assumption].
Qed.

End LagExact.

(* ================================================================== *)
(** * Final recommendations *)
(* ================================================================== *)

Section RecommendFacts.
Context {F : Type} {N : Num F}.
Implicit Types (cfg : AlgoConfig F) (frames : list (Frame F)).
Implicit Types (spp : dict string (dict nat (list (ScoredEvent F)))).

Lemma index_Ok {A} (i : nat) (l : list A) (a : A) :
  index i l = Ok a <-> nth_error l i = Some a.
Proof.
  unfold index. destruct (nth_error l i); split; intros H; congruence.
Qed.

Lemma lookup_Ok {V} (k : string) (d : dict string V) (v : V) :
  lookup k d = Ok v <-> dget k d = Some v.
Proof.
  unfold lookup. destruct (dget k d); split; intros H; congruence.
Qed.

Lemma recommend_at_fields cfg frames t_rel_list spp pid i r :
  recommend_at cfg frames t_rel_list spp pid i = Ok r ->
  player_id r = pid /\ rec_frame_idx r = i.
Proof.
  unfold recommend_at. intros H. bind_ok H as scored Es.
  destruct (dget_default i [] scored) as [|e0 es].
  - bind_ok H as fr Ef. bind_ok H as t Et. inversion H; subst. auto.
  - bind_ok H as t Et. bind_ok H as prim Ep. inversion H; subst. auto.
Qed.

(** The loop over [player_ids]: the keys of [out] stay, the list of a
    player not yet visited is left alone, and a visited player gets one
    recommendation per frame. *)
Lemma final_loop_spec cfg frames t_rel_list spp :
  forall pids out out',
    NoDup pids ->
    (forall pid, In pid pids -> dget pid out = Some []) ->
    foldM (fun out pid =>
             recs <- mapM (recommend_at cfg frames t_rel_list spp pid)
                          (seq 0 (List.length frames)) ;;
             cur <- lookup pid out ;;
             Ok (dset pid (cur ++ recs) out))
          out pids = Ok out' ->
    dkeys out' = dkeys out
    /\ (forall pid, ~ In pid pids -> dget pid out' = dget pid out)
    /\ (forall pid, In pid pids ->
          exists recs,
            dget pid out' = Some recs
            /\ mapM (recommend_at cfg frames t_rel_list spp pid)
                    (seq 0 (List.length frames)) = Ok recs).
Proof.
  induction pids as [|pid0 pids IH]; intros out out' Hnd Hinit H; simpl in H.
  - inversion H; subst. split; [reflexivity|]. split; [auto | intros pid []].
  - bind_ok H as out1 E1. bind_ok E1 as recs Erecs. bind_ok E1 as cur Ecur.
    inversion E1; subst out1; clear E1.
    apply lookup_Ok in Ecur. rewrite (Hinit pid0 (or_introl eq_refl)) in Ecur.
    inversion Ecur; subst cur; clear Ecur. simpl in H.
    inversion Hnd as [|? ? Hni Hnd']; subst.
    apply IH in H as (Hk & Hout & Hin); [|assumption|].
    2:{ intros pid Hp. rewrite dget_dset_neq by (intros ->; contradiction).
        apply Hinit. now right. }
    split.
    { rewrite Hk. apply dkeys_dset_in. apply dget_Some_keys.
      exists []. apply Hinit. now left. }
    split.
    + intros pid Hn. rewrite Hout by (intros Hi; apply Hn; now right).
      apply dget_dset_neq. intros ->. apply Hn. now left.
    + intros pid [<-|Hp].
      * exists recs. split; [|assumption].
        rewrite Hout by assumption. apply dget_dset_eq.
      * auto.
Qed.

Lemma final_recommendations_spec cfg frames t_rel_list spp player_ids out :
  NoDup player_ids ->
  final_recommendations cfg frames t_rel_list spp player_ids = Ok out ->
  dkeys out = player_ids
  /\ forall pid, In pid player_ids ->
       exists recs,
         dget pid out = Some recs
         /\ mapM (recommend_at cfg frames t_rel_list spp pid)
                 (seq 0 (List.length frames)) = Ok recs.
Proof.
  intros Hnd H. unfold final_recommendations in H.
  apply final_loop_spec in H as (Hk & _ & Hin); [|assumption|].
  - split; [|assumption].
    rewrite Hk. apply (dkeys_fold_dset (fun _ => [])). exact Hnd.
  - intros pid Hp. rewrite (dget_fold_dset (fun _ => [])).
    destruct (in_dec keqb_dec pid player_ids); [reflexivity | contradiction].
Qed.

(** One recommendation per frame, in frame order, each for its player. *)
Lemma recommendations_shape cfg frames t_rel_list spp pid recs :
  mapM (recommend_at cfg frames t_rel_list spp pid)
       (seq 0 (List.length frames)) = Ok recs ->
  List.length recs = List.length frames
  /\ forall i r, nth_error recs i = Some r ->
       rec_frame_idx r = i /\ player_id r = pid.
Proof.
  intros H. split.
  - rewrite (mapM_length _ _ _ H). apply length_seq.
  - intros i r Hr. destruct (mapM_nth _ _ _ H i r Hr) as (a & Ha & Hrec).
    apply recommend_at_fields in Hrec as [Hp Hi].
    assert (a = i).
    { assert (Hlt : i < List.length (seq 0 (List.length frames))).
      { apply nth_error_Some. congruence. }
      rewrite length_seq in Hlt.
      rewrite nth_error_nth' with (d := 0) in Ha
        by (rewrite length_seq; exact Hlt).
      rewrite seq_nth in Ha by exact Hlt. inversion Ha. reflexivity. }
    subst a. auto.
Qed.

(** The empty branch of the loop body: with an empty ranked list (or none)
    the body returns the fallback on the ball of frame [i]. *)
Lemma recommend_at_empty cfg frames t_rel_list spp pid i scored
    (fr : Frame F) (t : F) :
  dget pid spp = Some scored ->
  dget_default i [] scored = [] ->
  nth_error frames i = Some fr ->
  nth_error t_rel_list i = Some t ->
  recommend_at cfg frames t_rel_list spp pid i
  = Ok (mkPlayerFocusRecommendation pid i t
          (mkFocusTarget BALL (ball_pos fr) None (Some "ball"))
          nzero ["fallback_ball"] []).
Proof.
  intros Hs Hr Hf Ht. unfold recommend_at, lookup, index.
  rewrite Hs. simpl. rewrite Hr, Hf. simpl. rewrite Ht. reflexivity.
Qed.

End RecommendFacts.

(* ================================================================== *)
(** * The full pipeline: shape of the output *)
(* ================================================================== *)

Lemma canonicalize_frames_shape {F} (raw_frames : list (RawFrame F)) frames P :
  NoDup P ->
  canonicalize_frames raw_frames = Ok (frames, P) ->
  List.length frames = List.length raw_frames
  /\ forall k (fr : Frame F), nth_error frames k = Some fr ->
       frame_idx fr = k /\ dkeys (players fr) = P.
Proof.
  intros HP E. unfold canonicalize_frames in E.
  destruct raw_frames as [|frame0 rest]; [discriminate|].
  bind_ok E as frames' Eloop. inversion E; subst; clear E. split.
  - apply canon_loop_spec in Eloop. tauto.
  - intros k fr Hk.
    exact (canon_loop_frames _ HP _ _ _ _ _ _ Eloop k fr Hk).
Qed.

Lemma canonicalize_frames_nonempty {F} (raw_frames : list (RawFrame F)) x :
  canonicalize_frames raw_frames = Ok x -> raw_frames <> [].
Proof. intros E ->. discriminate E. Qed.

(** On a list that is not empty the public entry point canonicalises and
    runs the policy. *)
Lemma recommend_player_focus_canon fuel meta (raw_frames : list (RawFrame float))
    cfg :
  raw_frames <> [] ->
  recommend_player_focus fuel meta raw_frames cfg
  = ('(frames, valid_player_ids) <- canonicalize_frames raw_frames ;;
     let '(player_team, player_role) := player_tables meta valid_player_ids in
     run_baseline_policy fuel frames (tm_pitch meta) player_team player_role
       cfg).
Proof. intros Hne. destruct raw_frames; [contradiction | reflexivity]. Qed.

Lemma run_baseline_policy_shape fuel frames pitch player_team player_role cfg
    f0 out :
  nth_error frames 0 = Some f0 ->
  NoDup (dkeys (players f0)) ->
  run_baseline_policy fuel frames pitch player_team player_role cfg = Ok out ->
  dkeys out = dkeys (players f0)
  /\ forall pid, In pid (dkeys (players f0)) ->
       exists recs,
         dget pid out = Some recs
         /\ List.length recs = List.length frames
         /\ forall i r, nth_error recs i = Some r ->
              rec_frame_idx r = i /\ player_id r = pid.
Proof.
  intros H0 Hnd H. unfold run_baseline_policy in H.
  bind_ok H as [dt t_rel_list] Et. bind_ok H as v_by_frame Ev.
  bind_ok H as graphs Eg. bind_ok H as f0' Ef.
  apply index_Ok in Ef. assert (f0' = f0) by congruence. subst f0'.
  bind_ok H as spp1 E1. bind_ok H as spp2 E2.
  apply final_recommendations_spec in H as [Hk Hin]; [|assumption].
  split; [assumption|].
  intros pid Hp. destruct (Hin pid Hp) as (recs & Hg & Hm).
  exists recs. split; [assumption|].
  now apply recommendations_shape in Hm.
Qed.

(** When the pipeline returns, its output has the keys of frame 0 and one
    recommendation per player and frame. *)
Lemma recommend_player_focus_shape fuel meta (raw_frames : list (RawFrame float))
    cfg frames P out :
  NoDup P ->
  canonicalize_frames raw_frames = Ok (frames, P) ->
  recommend_player_focus fuel meta raw_frames cfg = Ok out ->
  P = frame0_players raw_frames
  /\ dkeys out = P
  /\ forall pid, In pid P ->
       exists recs,
         dget pid out = Some recs
         /\ List.length recs = List.length raw_frames
         /\ forall i r, nth_error recs i = Some r ->
              rec_frame_idx r = i /\ player_id r = pid.
Proof.
  intros HP Ec H.
  rewrite recommend_player_focus_canon in H
    by (eapply canonicalize_frames_nonempty; eassumption).
  rewrite Ec in H.
  simpl in H.
  destruct (player_tables meta P) as [player_team player_role].
  destruct (canonicalize_frames_shape _ _ _ HP Ec) as [Hlen Hfr].
  assert (HP0 : P = frame0_players raw_frames).
  { unfold canonicalize_frames in Ec. destruct raw_frames; [discriminate|].
    bind_ok Ec as fs Eloop. now inversion Ec. }
  destruct frames as [|f0 frames'].
  { unfold run_baseline_policy in H. simpl in H. discriminate. }
  destruct (Hfr 0 f0 eq_refl) as [_ Hk0].
  apply run_baseline_policy_shape with (f0 := f0) in H;
    [|reflexivity | now rewrite Hk0].
  rewrite Hk0, Hlen in H. tauto.
Qed.

(* ================================================================== *)
(** * The pipeline returns *)
(* ================================================================== *)

(** ** Loops that cannot raise *)

Section TotalLoops.

Lemma In_dkeys_dset {K V} `{Key K} (k k' : K) (v : V) (d : dict K V) :
  In k (dkeys (dset k' v d)) <-> k = k' \/ In k (dkeys d).
Proof.
  rewrite !dget_Some_keys, dget_dset. destruct (keqb k k') eqn:E.
  - apply keqb_eq in E. split; eauto.
  - split; [now right|]. intros [->|Hin]; [|assumption].
    rewrite keqb_refl in E. discriminate.
Qed.

Lemma In_dkeys_fold_dset {K V} `{Key K} (f : K -> V) (ks : list K)
    (d : dict K V) (k : K) :
  In k (dkeys (fold_left (fun d k => dset k (f k) d) ks d))
  <-> In k (dkeys d) \/ In k ks.
Proof.
  revert d. induction ks as [|k0 ks IH]; intros d; simpl; [tauto|].
  rewrite IH, In_dkeys_dset. intuition congruence.
Qed.

Lemma lookup_total {V} (k : string) (d : dict string V) :
  In k (dkeys d) -> exists v, lookup k d = Ok v.
Proof.
  intros Hin. apply dget_Some_keys in Hin as [v Hv]. exists v.
  unfold lookup. now rewrite Hv.
Qed.

Lemma index_total {A} (i : nat) (l : list A) :
  i < List.length l -> exists a, index i l = Ok a.
Proof.
  intros Hi. unfold index. destruct (nth_error l i) as [a|] eqn:E; [eauto|].
  apply nth_error_None in E. lia.
Qed.

(** A loop whose body returns on every element, keeping an invariant [I] of
    the elements done so far and the state, returns. *)
Lemma foldM_total_from {A S} (I : list A -> S -> Prop)
    (f : S -> A -> result S) (l : list A) :
  forall done s,
    I done s ->
    (forall done s a, I done s -> In a l ->
       exists s', f s a = Ok s' /\ I (done ++ [a]) s') ->
    exists s', foldM f s l = Ok s' /\ I (done ++ l) s'.
Proof.
  induction l as [|a l IH]; intros done s Hs Hstep; simpl.
  - exists s. now rewrite app_nil_r.
  - destruct (Hstep done s a Hs (or_introl eq_refl)) as (s1 & E1 & H1).
    rewrite E1. simpl.
    destruct (IH (done ++ [a]) s1 H1) as (s' & E' & H').
    { intros dn s0 a0 H0 Hin. apply Hstep; [assumption | now right]. }
    exists s'. split; [assumption|]. now rewrite <- app_assoc in H'.
Qed.

Lemma foldM_total {A S} (I : S -> Prop) (f : S -> A -> result S)
    (l : list A) (s : S) :
  I s ->
  (forall s a, I s -> In a l -> exists s', f s a = Ok s' /\ I s') ->
  exists s', foldM f s l = Ok s' /\ I s'.
Proof.
  intros Hs Hstep.
  destruct (foldM_total_from (fun _ => I) f l [] s Hs) as (s' & E & H');
    eauto.
Qed.

Lemma mapM_total {A B} (R : A -> B -> Prop) (f : A -> result B) (l : list A) :
  (forall a, In a l -> exists b, f a = Ok b /\ R a b) ->
  exists bs, mapM f l = Ok bs /\ Forall2 R l bs.
Proof.
  induction l as [|a l IH]; intros Hf; simpl.
  - exists []. split; [reflexivity | constructor].
  - destruct (Hf a (or_introl eq_refl)) as (b & Eb & Hb). rewrite Eb. simpl.
    destruct IH as (bs & Ebs & Hbs); [intros; apply Hf; now right|].
    rewrite Ebs. simpl. exists (b :: bs). split; [reflexivity|].
    now constructor.
Qed.

Lemma fold_left_invariant {A S} (I : S -> Prop) (f : S -> A -> S)
    (l : list A) (s : S) :
  I s -> (forall s a, I s -> In a l -> I (f s a)) -> I (fold_left f l s).
Proof.
  revert s. induction l as [|a l IH]; intros s Hs Hstep; simpl; [assumption|].
  apply IH; [apply Hstep; [assumption | now left]|].
  intros s0 a0 H0 Hin. apply Hstep; [assumption | now right].
Qed.

Lemma In_item_key {K V} (k : K) (v : V) (d : dict K V) :
  In (k, v) d -> In k (dkeys d).
Proof. intros Hin. change k with (fst (k, v)). now apply in_map. Qed.

End TotalLoops.

(** ** Pseudo-time and velocities *)

Section TotalTimebase.
Variable P : list string.

Let on_P (fr : Frame float) : Prop := dkeys (players fr) = P.

Lemma max_displacement_total (prev cur : Frame float) :
  on_P prev -> on_P cur -> exists d, max_displacement prev cur = Ok d.
Proof.
  unfold on_P. intros Hp Hc. unfold max_displacement.
  destruct (foldM_total (fun _ : float => True)
              (fun dmax '(pid, (x, y)) =>
                 '(x0, y0) <- lookup pid (players prev) ;;
                 let dx := (x - x0)%float in
                 let dy := (y - y0)%float in
                 let d := sqrt (dx * dx + dy * dy) in
                 Ok (if (dmax <? d)%float then d else dmax))
              (players cur) 0%float I) as (d & E & _); [|eauto].
  intros dmax [pid [x y]] _ Hin. apply In_item_key in Hin.
  assert (Hin' : In pid (dkeys (players prev)))
    by (rewrite Hp, <- Hc; exact Hin).
  destruct (lookup_total _ _ Hin') as ([x0 y0] & E).
  rewrite E. simpl. eauto.
Qed.

Lemma pseudotime_loop_total cfg (rest : list (Frame float)) :
  forall prev t,
    on_P prev -> Forall on_P rest ->
    exists dts ts,
      pseudotime_loop cfg prev t rest = Ok (dts, ts)
      /\ List.length dts = List.length rest
      /\ List.length ts = List.length rest.
Proof.
  induction rest as [|cur more IH]; intros prev t Hp Hr; simpl.
  - exists [], []. auto.
  - inversion Hr as [|? ? Hc Hm]; subst.
    destruct (max_displacement_total prev cur Hp Hc) as (d & Ed). rewrite Ed.
    simpl.
    match goal with
    | |- context [pseudotime_loop cfg cur ?t' more] =>
        destruct (IH cur t' Hc Hm) as (dts & ts & E & Hd & Ht)
    end.
    rewrite E. simpl. eexists. eexists. split; [reflexivity|].
    simpl. auto.
Qed.

Lemma infer_pseudotime_total cfg (frames : list (Frame float)) :
  frames <> [] -> Forall on_P frames ->
  exists dt t_rel,
    infer_pseudotime frames cfg = Ok (dt, t_rel)
    /\ List.length dt = List.length frames
    /\ List.length t_rel = List.length frames.
Proof.
  intros Hne Hall. destruct frames as [|f0 rest]; [congruence|].
  inversion Hall as [|? ? H0 Hr]; subst. simpl.
  destruct (pseudotime_loop_total cfg rest f0 0%float H0 Hr)
    as (dts & ts & E & Hd & Ht).
  rewrite E. simpl. eexists. eexists. split; [reflexivity|]. simpl. auto.
Qed.

Lemma has_velocities_dset v i v_i j :
  (forall pid, In pid P -> In pid (dkeys v_i)) ->
  has_velocities P v j \/ j = i -> has_velocities P (dset i v_i v) j.
Proof.
  intros Hi Hj. unfold has_velocities. rewrite dget_dset.
  destruct (keqb j i) eqn:E.
  - eauto.
  - destruct Hj as [Hj | ->]; [assumption|].
    rewrite keqb_refl in E. discriminate.
Qed.

Lemma frame_velocities_total (prev cur : Frame float) denom :
  on_P prev -> on_P cur ->
  exists v_i, frame_velocities prev cur denom = Ok v_i
              /\ forall pid, In pid P -> In pid (dkeys v_i).
Proof.
  unfold on_P. intros Hp Hc. unfold frame_velocities.
  destruct (foldM_total_from
              (fun (done : list (string * Vec2 float)) v_i =>
                 forall pid, In pid (dkeys done) -> In pid (dkeys v_i))
              (fun v_i '(pid, (x, y)) =>
                 '(x0, y0) <- lookup pid (players prev) ;;
                 Ok (dset pid ((x - x0) / denom, (y - y0) / denom)%float v_i))
              (players cur) [] []) as (v_i & E & Hv).
  - intros pid [].
  - intros done v_i [pid [x y]] Hd Hin. apply In_item_key in Hin.
    assert (Hin' : In pid (dkeys (players prev)))
      by (rewrite Hp, <- Hc; exact Hin).
    destruct (lookup_total _ _ Hin') as ([x0 y0] & E).
    rewrite E. simpl. eexists. split; [reflexivity|].
    intros q Hq. apply In_dkeys_dset. unfold dkeys in Hq.
    rewrite map_app in Hq. apply in_app_or in Hq as [Hq|[<-|[]]]; auto.
  - exists v_i. split; [exact E|]. intros pid Hpid. apply Hv. simpl.
    now rewrite Hc.
Qed.

Lemma velocities_loop_total (dt : list float) (rest : list (Frame float)) :
  forall i prev v,
    on_P prev -> Forall on_P rest ->
    i + List.length rest <= List.length dt ->
    exists v',
      velocities_loop i prev rest dt v = Ok v'
      /\ forall j, has_velocities P v j \/ (i <= j < i + List.length rest) ->
                   has_velocities P v' j.
Proof.
  induction rest as [|cur more IH]; intros i prev v Hp Hr Hlen; simpl.
  - exists v. split; [reflexivity|]. intros j [Hj|Hj]; [assumption | lia].
  - inversion Hr as [|? ? Hc Hm]; subst. simpl in Hlen.
    destruct (index_total i dt) as (dt_i & Ei); [lia|]. rewrite Ei. simpl.
    destruct (frame_velocities_total prev cur (pymax dt_i 1e-6) Hp Hc)
      as (v_i & Ev & Hv).
    rewrite Ev. simpl.
    destruct (IH (S i) cur (dset i v_i v) Hc Hm) as (v' & E' & H'); [lia|].
    exists v'. split; [assumption|]. intros j Hj. apply H'.
    destruct (Nat.eq_dec j i) as [->|Hne].
    + left. apply has_velocities_dset; auto.
    + destruct Hj as [Hj|Hj]; [|right; lia].
      left. apply has_velocities_dset; auto.
Qed.

Lemma compute_velocities_total (frames : list (Frame float)) (dt : list float) :
  frames <> [] -> Forall on_P frames ->
  List.length dt = List.length frames ->
  exists v, compute_velocities frames dt = Ok v
            /\ forall j, j < List.length frames -> has_velocities P v j.
Proof.
  intros Hne Hall Hlen. unfold compute_velocities.
  rewrite Hlen, Nat.eqb_refl. simpl.
  destruct frames as [|f0 rest]; [congruence|].
  inversion Hall as [|? ? H0 Hr]; subst.
  match goal with
  | |- context [velocities_loop 1 f0 rest dt ?v0] =>
      destruct (velocities_loop_total dt rest 1 f0 v0 H0 Hr) as (v & E & Hv)
  end.
  { simpl in Hlen. lia. }
  exists v. split; [assumption|]. intros j Hj. apply Hv.
  destruct j as [|j]; [left | right; simpl in Hj; lia].
  eexists. split; [reflexivity|].
  intros pid Hpid. apply In_dkeys_fold_dset. right. unfold on_P in H0.
  now rewrite H0.
Qed.

End TotalTimebase.

(** ** Graphs and summaries *)

Section TotalGraph.
Variable P : list string.

Lemma In_enumerate {A} (l : list A) (i : nat) (a : A) :
  In (i, a) (enumerate l) -> In a l.
Proof. unfold enumerate. apply in_combine_r. Qed.

Lemma proximity_edges_ok cfg player_team (items : list (string * Vec2 float))
    (ks : list string) :
  (forall pid, In pid (dkeys items) -> In pid ks) ->
  Forall (edge_ok ks) (proximity_edges cfg player_team items).
Proof.
  intros Hks. apply Forall_forall. intros e He. unfold proximity_edges in He.
  apply in_flat_map in He as ([a [pa posa]] & Ha & He).
  apply in_flat_map in He as ([b [pb posb]] & Hb & He).
  apply In_enumerate, In_item_key, Hks in Ha.
  destruct (a =? b)%nat; [destruct He|].
  destruct (String.eqb _ _);
    match type of He with
    | In _ (if ?c then _ else _) => destruct c
    end; try destruct He as [<-|[]]; try destruct He;
    (split; [exact Ha | simpl; auto]).
Qed.

Lemma ball_link_edges_ok (fr : Frame float) (ks : list string) :
  (forall pid, In pid (dkeys (players fr)) -> In pid ks) ->
  Forall (edge_ok ks) (ball_link_edges fr).
Proof.
  intros Hks. apply Forall_forall. intros e He. unfold ball_link_edges in He.
  destruct (ball_pos fr) as [bx by_].
  apply in_map_iff in He as ([pid p] & <- & Hin).
  apply In_item_key, Hks in Hin. split; [exact Hin | simpl; auto].
Qed.

Lemma build_frame_graph_total t_rel_list v_by_frame player_team player_role cfg
    (fr : Frame float) :
  dkeys (players fr) = P ->
  has_velocities P v_by_frame (frame_idx fr) ->
  frame_idx fr < List.length t_rel_list ->
  exists g,
    build_frame_graph t_rel_list v_by_frame player_team player_role cfg fr
    = Ok g
    /\ graph_ok g.
Proof.
  intros HP (v_i & Hv & Hin_v) Ht. unfold build_frame_graph. cbv zeta.
  match goal with
  | |- context [foldM ?f ?s ?l] =>
      destruct (foldM_total_from
                  (fun (done : list (string * Vec2 float)) nodes =>
                     forall pid, In pid (dkeys done) -> In pid (dkeys nodes))
                  f l [] s) as (nodes & E & Hn)
  end.
  - intros pid [].
  - intros done nodes [pid p] Hd Hin. apply In_item_key in Hin.
    assert (Hin' : In pid (dkeys v_i)).
    { apply Hin_v. rewrite <- HP. exact Hin. }
    unfold lookup_idx. rewrite Hv. simpl.
    destruct (lookup_total _ _ Hin') as (vel & Evel). rewrite Evel. simpl.
    eexists. split; [reflexivity|].
    intros q Hq. apply In_dkeys_dset. unfold dkeys in Hq.
    rewrite map_app in Hq. apply in_app_or in Hq as [Hq|[<-|[]]]; auto.
  - rewrite E. simpl. destruct (index_total _ _ Ht) as (t & Et).
    rewrite Et. simpl. eexists. split; [reflexivity|].
    unfold graph_ok. simpl. apply Forall_app. split.
    + apply proximity_edges_ok. exact Hn.
    + apply ball_link_edges_ok. exact Hn.
Qed.

Lemma build_frame_graphs_total (frames : list (Frame float)) t_rel_list
    v_by_frame player_team player_role cfg :
  (forall k fr, nth_error frames k = Some fr ->
     frame_idx fr = k /\ dkeys (players fr) = P) ->
  (forall j, j < List.length frames -> has_velocities P v_by_frame j) ->
  List.length t_rel_list = List.length frames ->
  exists graphs,
    build_frame_graphs frames t_rel_list v_by_frame player_team player_role cfg
    = Ok graphs
    /\ Forall graph_ok graphs.
Proof.
  intros Hfr Hv Ht. unfold build_frame_graphs.
  destruct (mapM_total (fun _ g => graph_ok g)
              (build_frame_graph t_rel_list v_by_frame player_team player_role
                 cfg) frames) as (graphs & E & Hg).
  - intros fr Hin. apply In_nth_error in Hin as (k & Hk).
    destruct (Hfr k fr Hk) as [Hidx HP].
    assert (Hlt : k < List.length frames).
    { apply nth_error_Some. congruence. }
    apply build_frame_graph_total; [assumption | |]; rewrite Hidx.
    + now apply Hv.
    + lia.
  - exists graphs. split; [assumption|].
    clear E Hfr Hv Ht. induction Hg; constructor; auto.
Qed.

Lemma In_dkeys_fold_items {W V} (h : string -> W -> V)
    (items : list (string * W)) :
  forall (d : dict string V) (k : string),
    In k (dkeys (fold_left (fun out '(pid, n) => dset pid (h pid n) out)
                   items d))
    <-> In k (dkeys d) \/ In k (dkeys items).
Proof.
  induction items as [|[pid n] items IH]; intros d k; simpl; [tauto|].
  rewrite IH, In_dkeys_dset. intuition congruence.
Qed.

Lemma scan_edge_total (g : FrameGraph) out e :
  edge_ok (dkeys (nodes g)) e -> summaries_cover g out ->
  exists out', scan_edge out e = Ok out' /\ summaries_cover g out'.
Proof.
  intros [Hsrc Hf] Hc. unfold scan_edge.
  destruct (lookup_total _ _ (Hc _ Hsrc)) as (s & Es).
  destruct (etype e);
    destruct (lookup_total _ _ Hf) as (d & Ed); rewrite Ed, Es; simpl;
    (eexists; split; [reflexivity|]);
    intros pid Hpid; apply In_dkeys_dset; right; auto.
Qed.

Lemma summarize_pressure_support_total (g : FrameGraph) cfg :
  graph_ok g ->
  exists s, summarize_pressure_support g cfg = Ok s /\ summaries_cover g s.
Proof.
  intros Hg. unfold summarize_pressure_support.
  apply foldM_total.
  - intros pid Hpid.
    apply (In_dkeys_fold_items
             (fun (_ : string) (n : GraphNode) =>
                mkSummary 0 infinity 0 infinity
                  (dist (node_pos n) (graph_ball_pos g)))).
    now right.
  - intros out e Hc He. apply scan_edge_total; [|assumption].
    unfold graph_ok in Hg. rewrite Forall_forall in Hg. auto.
Qed.

End TotalGraph.

(** ** Candidates and scores *)

Section TotalScoring.

Lemma _nearest_opponent_total g pid player_team :
  In pid (dkeys (nodes g)) ->
  exists o d,
    _nearest_opponent g pid player_team = Ok (o, d)
    /\ forall oid, o = Some oid -> In oid (dkeys (nodes g)).
Proof.
  intros Hin. unfold _nearest_opponent.
  destruct (lookup_total _ _ Hin) as (node & En). rewrite En. cbn [bind].
  match goal with
  | |- context [fold_left ?f ?l ?s] =>
      pose proof (fold_left_invariant
                    (fun acc : option string * float =>
                       forall oid, fst acc = Some oid -> In oid (dkeys l))
                    f l s) as Hinv;
      destruct (fold_left f l s) as [o d]
  end.
  exists o, d. split; [reflexivity|]. apply Hinv.
  - discriminate.
  - intros [bid bd] [oid n] Hacc Hitem. apply In_item_key in Hitem.
    repeat match goal with
           | |- context [if ?c then _ else _] => destruct c
           end; simpl; try exact Hacc.
    intros ? [= <-]. exact Hitem.
Qed.

Lemma _best_support_teammate_total g pid player_team cfg :
  In pid (dkeys (nodes g)) ->
  exists o d,
    _best_support_teammate g pid player_team cfg = Ok (o, d)
    /\ forall oid, o = Some oid -> In oid (dkeys (nodes g)).
Proof.
  intros Hin. unfold _best_support_teammate.
  destruct (lookup_total _ _ Hin) as (node & En). rewrite En. cbn [bind].
  match goal with
  | |- context [fold_left ?f ?l ?s] =>
      pose proof (fold_left_invariant
                    (fun acc : option string * float =>
                       forall oid, fst acc = Some oid -> In oid (dkeys l))
                    f l s) as Hinv;
      destruct (fold_left f l s) as [o d]
  end.
  exists o, d. split; [reflexivity|]. apply Hinv.
  - discriminate.
  - intros [bid bd] [oid n] Hacc Hitem. apply In_item_key in Hitem.
    cbv zeta.
    repeat match goal with
           | |- context [if negb ?c then _ else _] => destruct c; cbn [negb]
           | |- forall _, fst (if ?c then _ else _) = _ -> _ => destruct c
           end; simpl; try exact Hacc.
    intros ? [= <-]. exact Hitem.
Qed.

Lemma space_failure_bind {A B} (r : result A) (k : A -> result B) :
  space_failure r -> space_failure (bind r k).
Proof. intros [-> | ->]; [left | right]; reflexivity. Qed.

Lemma space_failure_Ok {A} (a : A) : ~ space_failure (Ok a).
Proof. intros [E|E]; discriminate. Qed.

Lemma grid_column_outcome g pitch pid player_team cfg pos x y1 :
  forall fuel y best,
    (exists b, grid_column fuel g pitch pid player_team cfg pos x y y1 best
               = Ok b)
    \/ space_failure
         (grid_column fuel g pitch pid player_team cfg pos x y y1 best).
Proof.
  induction fuel as [|fuel IH]; intros y best; simpl.
  - right. now left.
  - destruct (y <=? y1 + 1e-6)%float; [|eauto].
    destruct (_ <? min_space_clearance cfg)%float; [apply IH|].
    unfold pydiv. destruct (pitch_length pitch =? 0)%float; cbn [bind].
    + right. now right.
    + apply IH.
Qed.

Lemma grid_rows_outcome g pitch pid player_team cfg pos x1 y0 y1 :
  forall fuel x best,
    (exists b, grid_rows fuel g pitch pid player_team cfg pos x x1 y0 y1 best
               = Ok b)
    \/ space_failure
         (grid_rows fuel g pitch pid player_team cfg pos x x1 y0 y1 best).
Proof.
  induction fuel as [|fuel IH]; intros x best.
  - right. now left.
  - cbn [grid_rows]. destruct (x <=? x1 + 1e-6)%float; [|eauto].
    destruct (grid_column_outcome g pitch pid player_team cfg pos x y1
                (S fuel) y0 best) as [(b & E) | Hf].
    + rewrite E. cbn [bind]. apply IH.
    + right. now apply space_failure_bind.
Qed.

Lemma _best_open_space_anchor_outcome fuel g pitch pid player_team cfg :
  In pid (dkeys (nodes g)) ->
  (exists r, _best_open_space_anchor fuel g pitch pid player_team cfg = Ok r)
  \/ space_failure (_best_open_space_anchor fuel g pitch pid player_team cfg).
Proof.
  intros Hin. unfold _best_open_space_anchor.
  destruct (lookup_total _ _ Hin) as (node & En). rewrite En. cbn [bind].
  destruct (node_pos node) as [px py].
  destruct (attack_direction cfg >? 0)%Z;
    match goal with
    | |- context [grid_rows fuel g pitch pid player_team cfg ?pos ?x ?x1 ?y0
                    ?y1 ?best] =>
        destruct (grid_rows_outcome g pitch pid player_team cfg pos x1 y0 y1
                    fuel x best) as [([a v] & E) | Hf]
    end;
    try (right; now apply space_failure_bind);
    rewrite E; cbn [bind]; destruct a; eauto.
Qed.

Lemma generate_candidates_for_player_outcome fuel g pitch pid player_team cfg
    summaries :
  summaries_cover g summaries ->
  returns_or_space_fails cfg
    (generate_candidates_for_player fuel g pitch pid player_team cfg summaries)
    (fun _ => True).
Proof.
  intros Hcov. unfold returns_or_space_fails, generate_candidates_for_player.
  destruct (dmem pid (nodes g)) eqn:Hm; cbn [negb]; [|eauto].
  apply dmem_true in Hm.
  destruct (lookup_total _ _ Hm) as (node & En).
  destruct (lookup_total _ _ (Hcov _ Hm)) as (s & Es).
  destruct (_nearest_opponent_total g pid player_team Hm)
    as (o & od & Eo & Ho).
  destruct (_best_support_teammate_total g pid player_team cfg Hm)
    as (m & md & Em & Hmate).
  rewrite En. cbn [bind]. destruct (graph_ball_pos g) as [bx by_].
  rewrite Es, Eo, Em. cbn [bind].
  assert (Eon : forall oid, o = Some oid ->
                  exists on, lookup oid (nodes g) = Ok on).
  { intros oid Hoid. apply lookup_total. auto. }
  assert (Emn : forall mid, m = Some mid ->
                  exists mn, lookup mid (nodes g) = Ok mn).
  { intros mid Hmid. apply lookup_total. auto. }
  pose proof (_best_open_space_anchor_outcome fuel g pitch pid player_team cfg
                Hm) as Hspace.
  destruct (enable_ball_focus cfg); cbn [bind];
    (destruct (enable_marking_threats cfg); cbn [bind];
     [destruct o as [oid|];
      [destruct (Eon oid eq_refl) as (on & ->); cbn [bind]|]|]);
    (destruct (enable_pass_targets cfg); cbn [bind];
     [destruct m as [mid|];
      [destruct (Emn mid eq_refl) as (mn & ->); cbn [bind]|]|]);
    (destruct (enable_space_targets cfg); cbn [bind];
     [destruct Hspace as [([a v] & ->) | Hf];
      [cbn [bind]; destruct a; cbn [bind]
      |right; split; [reflexivity|]; do 2 apply space_failure_bind; exact Hf]
     |]);
    left; eexists; (split; [reflexivity | exact I]).
Qed.

Lemma _score_one_total g pid pos c summaries cfg role :
  In pid (dkeys summaries) ->
  exists r, _score_one g pid pos c summaries cfg role = Ok r.
Proof.
  intros Hin. unfold _score_one.
  destruct (lookup_total _ _ Hin) as (sm & Es). rewrite Es.
  cbn [bind]. cbv zeta.
  repeat match goal with
         | |- context [if ?c then _ else _] => destruct c
         end; eauto.
Qed.

Lemma score_candidates_total g pid cands summaries cfg role :
  summaries_cover g summaries ->
  exists scored, score_candidates g pid cands summaries cfg role = Ok scored.
Proof.
  intros Hcov. unfold score_candidates.
  destruct (dmem pid (nodes g)) eqn:Hm; cbn [negb]; [|eauto].
  apply dmem_true in Hm.
  destruct (lookup_total _ _ Hm) as (node & En). rewrite En. cbn [bind].
  destruct (mapM_total (fun _ _ => True)
              (score_event g pid (node_pos node) summaries cfg role) cands)
    as (scored & E & _).
  - intros c _. unfold score_event.
    destruct (_score_one_total g pid (node_pos node) c summaries cfg role
                (Hcov _ Hm)) as ([s reasons] & Er).
    rewrite Er. cbn [bind]. eauto.
  - rewrite E. cbn [bind]. eauto.
Qed.

End TotalScoring.

(** ** The orchestrator *)

Section TotalPolicy.
Variable player_ids : list string.

(** The table of scored events has an entry for every player. *)
Let covers {V} (d : dict string V) : Prop :=
  forall pid, In pid player_ids -> In pid (dkeys d).

Lemma foldM_outcome {A S} (cfg : AlgoConfig float) (I : S -> Prop)
    (f : S -> A -> result S) (l : list A) :
  forall s,
    I s ->
    (forall s a, I s -> In a l -> returns_or_space_fails cfg (f s a) I) ->
    returns_or_space_fails cfg (foldM f s l) I.
Proof.
  induction l as [|a l IH]; intros s Hs Hstep; simpl.
  - left. eauto.
  - destruct (Hstep s a Hs (or_introl eq_refl)) as [(s1 & E1 & H1) | [Hc Hf]].
    + rewrite E1. cbn [bind]. apply IH; [assumption|].
      intros s0 a0 H0 Hin. apply Hstep; [assumption | now right].
    + right. split; [assumption|]. now apply space_failure_bind.
Qed.

Lemma score_frame_outcome fuel pitch player_team player_role cfg spp g :
  graph_ok g -> covers spp ->
  returns_or_space_fails cfg
    (score_frame fuel pitch player_team player_role cfg player_ids spp g)
    covers.
Proof.
  intros Hg Hc. unfold score_frame.
  destruct (summarize_pressure_support_total g cfg Hg) as (s & Es & Hs).
  rewrite Es. cbn [bind]. apply foldM_outcome; [assumption|].
  intros spp0 pid Hc0 Hpid.
  destruct (generate_candidates_for_player_outcome fuel g pitch pid player_team
              cfg s Hs) as [(cands & Ec & _) | [Hsp Hf]].
  2:{ right. split; [assumption|]. now apply space_failure_bind. }
  rewrite Ec. cbn [bind].
  match goal with
  | |- context [score_candidates g pid cands s cfg ?role] =>
      destruct (score_candidates_total g pid cands s cfg role Hs)
        as (scored & Esc)
  end.
  rewrite Esc. cbn [bind].
  destruct (lookup_total _ _ (Hc0 _ Hpid)) as (inner & Ei). rewrite Ei.
  cbn [bind]. left. eexists. split; [reflexivity|].
  intros q Hq. apply In_dkeys_dset. right. auto.
Qed.

Lemma recommend_at_total {F} {N : Num F} (cfg : AlgoConfig F) frames
    (t_rel_list : list F) spp pid i :
  covers spp -> In pid player_ids ->
  i < List.length frames -> List.length t_rel_list = List.length frames ->
  exists r, recommend_at cfg frames t_rel_list spp pid i = Ok r.
Proof.
  intros Hc Hpid Hi Ht. unfold recommend_at.
  destruct (lookup_total _ _ (Hc _ Hpid)) as (scored & Es). rewrite Es.
  cbn [bind].
  destruct (index_total i frames Hi) as (fr & Ef).
  destruct (index_total i t_rel_list) as (t & Et); [lia|].
  destruct (dget_default i [] scored) as [|e ranked]; rewrite ?Ef, Et;
    cbn [bind]; [eauto|].
  destruct (firstn _ _); rewrite ?Ef; cbn [bind]; eauto.
Qed.

Lemma final_recommendations_total {F} {N : Num F} (cfg : AlgoConfig F) frames
    (t_rel_list : list F) spp :
  covers spp -> List.length t_rel_list = List.length frames ->
  exists out, final_recommendations cfg frames t_rel_list spp player_ids
              = Ok out.
Proof.
  intros Hc Ht. unfold final_recommendations.
  match goal with
  | |- context [foldM ?f ?s ?l] =>
      destruct (foldM_total
                  (fun out : dict string (list (PlayerFocusRecommendation F)) =>
                     covers out) f l s) as (out & E & _)
  end; [| |eauto].
  - intros pid Hpid. apply In_dkeys_fold_dset. now right.
  - intros out pid Hout Hpid.
    destruct (mapM_total (fun _ _ => True)
                (recommend_at cfg frames t_rel_list spp pid)
                (seq 0 (List.length frames))) as (recs & Er & _).
    { intros i Hi. apply in_seq in Hi.
      destruct (recommend_at_total cfg frames t_rel_list spp pid i) as (r & Er);
        eauto. lia. }
    rewrite Er. cbn [bind].
    destruct (lookup_total _ _ (Hout _ Hpid)) as (cur & Ecur). rewrite Ecur.
    cbn [bind]. eexists. split; [reflexivity|].
    intros q Hq. apply In_dkeys_dset. right. auto.
Qed.

End TotalPolicy.

Lemma run_baseline_policy_outcome fuel (frames : list (Frame float)) pitch
    player_team player_role cfg P :
  frames <> [] ->
  (forall k fr, nth_error frames k = Some fr ->
     frame_idx fr = k /\ dkeys (players fr) = P) ->
  returns_or_space_fails cfg
    (run_baseline_policy fuel frames pitch player_team player_role cfg)
    (fun _ => True).
Proof.
  intros Hne Hfr.
  assert (Hall : Forall (fun fr => dkeys (players fr) = P) frames).
  { apply Forall_forall. intros fr Hin.
    apply In_nth_error in Hin as (k & Hk). now apply Hfr in Hk. }
  unfold run_baseline_policy.
  destruct (infer_pseudotime_total P cfg frames Hne Hall)
    as (dt & t_rel & Et & Hdt & Htrel).
  rewrite Et. cbn [bind].
  destruct (compute_velocities_total P frames dt Hne Hall Hdt)
    as (v & Ev & Hv).
  rewrite Ev. cbn [bind].
  destruct (build_frame_graphs_total P frames t_rel v player_team player_role
              cfg Hfr Hv Htrel) as (graphs & Eg & Hg).
  rewrite Eg. cbn [bind].
  destruct frames as [|f0 rest]; [congruence|].
  change (index 0 (f0 :: rest)) with (Ok f0). cbn [bind].
  set (player_ids := dkeys (players f0)).
  match goal with
  | |- context [foldM (score_frame ?a ?b ?c ?d ?e ?f) ?s ?l] =>
      destruct (foldM_outcome cfg
                  (fun spp : dict string (dict nat (list (ScoredEvent float)))
                   => forall pid, In pid player_ids -> In pid (dkeys spp))
                  (score_frame a b c d e f) l s)
        as [(spp1 & E1 & H1) | [Hsp Hf]]
  end.
  { intros pid Hpid. apply In_dkeys_fold_dset. now right. }
  { intros spp g Hspp Hin. apply score_frame_outcome; try assumption.
    rewrite Forall_forall in Hg. auto. }
  2:{ right. split; [assumption|]. now apply space_failure_bind. }
  rewrite E1. cbn [bind].
  match goal with
  | |- context [foldM ?f spp1 ?l] =>
      destruct (foldM_total
                  (fun spp : dict string (dict nat (list (ScoredEvent float)))
                   => forall pid, In pid player_ids -> In pid (dkeys spp))
                  f l spp1 H1) as (spp2 & E2 & H2)
  end.
  { intros spp pid Hspp Hpid.
    destruct (lookup_total _ _ (Hspp _ Hpid)) as (inner & Ei). rewrite Ei.
    cbn [bind]. eexists. split; [reflexivity|].
    intros q Hq. apply In_dkeys_dset. right. auto. }
  rewrite E2. cbn [bind].
  destruct (final_recommendations_total player_ids cfg (f0 :: rest) t_rel spp2
              H2 Htrel) as (out & Eout).
  left. eauto.
Qed.

(** On raw frames that canonicalise, the pipeline returns, or the
    open-space generator, enabled, has failed: nothing else can raise. *)
Lemma recommend_player_focus_outcome fuel meta (raw_frames : list (RawFrame float))
    cfg frames P :
  NoDup P ->
  canonicalize_frames raw_frames = Ok (frames, P) ->
  returns_or_space_fails cfg
    (recommend_player_focus fuel meta raw_frames cfg) (fun _ => True).
Proof.
  intros HP Ec.
  rewrite recommend_player_focus_canon
    by (eapply canonicalize_frames_nonempty; eassumption).
  rewrite Ec. cbn [bind].
  destruct (player_tables meta P) as [player_team player_role].
  destruct (canonicalize_frames_shape _ _ _ HP Ec) as [Hlen Hfr].
  apply run_baseline_policy_outcome with (P := P); try assumption.
  intros ->. unfold canonicalize_frames in Ec.
  destruct raw_frames; [discriminate | simpl in Hlen; discriminate].
Qed.

(** ** A grid step of zero *)

Section ZeroStep.
Open Scope float_scope.






End ZeroStep.

(** When the raw frames canonicalise, the pipeline either returns a mapping
    of the expected shape, or the open-space generator is enabled and its
    grid search has run out of rounds or has divided by a pitch length of
    zero. *)
Lemma output_shape_or_space_failure fuel meta (raw_frames : list (RawFrame float))
    cfg frames P :
  NoDup P ->
  canonicalize_frames raw_frames = Ok (frames, P) ->
  (exists out,
     recommend_player_focus fuel meta raw_frames cfg = Ok out
     /\ P = frame0_players raw_frames
     /\ dkeys out = P
     /\ forall pid, In pid P ->
          exists recs,
            dget pid out = Some recs
            /\ List.length recs = List.length raw_frames
            /\ forall i r, nth_error recs i = Some r ->
                 rec_frame_idx r = i /\ player_id r = pid)
  \/ (enable_space_targets cfg = true
      /\ space_failure (recommend_player_focus fuel meta raw_frames cfg)).
Proof.
  intros HP Ec.
  destruct (recommend_player_focus_outcome fuel meta raw_frames cfg frames P
              HP Ec) as [(out & E & _) | Hf]; [left | now right].
  exists out. split; [assumption|].
  exact (recommend_player_focus_shape fuel meta raw_frames cfg frames P out
           HP Ec E).
Qed.

(* ================================================================== *)
(** * The iteration bound does not matter *)
(* ================================================================== *)

Section FuelFacts.

Lemma bind_mono {A B} (m1 m2 : result A) (k1 k2 : A -> result B) :
  (m1 <> OutOfFuel -> m2 = m1) ->
  (forall a, k1 a <> OutOfFuel -> k2 a = k1 a) ->
  bind m1 k1 <> OutOfFuel -> bind m2 k2 = bind m1 k1.
Proof.
  intros Hm Hk H. destruct m1 as [a|e|]; simpl in *.
  - rewrite Hm by discriminate. simpl. auto.
  - rewrite Hm by discriminate. reflexivity.
  - contradiction.
Qed.

Lemma foldM_mono {A S} (f1 f2 : S -> A -> result S) :
  (forall s a, f1 s a <> OutOfFuel -> f2 s a = f1 s a) ->
  forall l s, foldM f1 s l <> OutOfFuel -> foldM f2 s l = foldM f1 s l.
Proof.
  intros Hf. induction l as [|a l IH]; intros s H; simpl in *; [reflexivity|].
  apply bind_mono; auto.
Qed.

Lemma grid_column_mono graph pitch player_id player_team cfg pos x y1 :
  forall n m, n <= m -> forall y best,
    grid_column n graph pitch player_id player_team cfg pos x y y1 best
      <> OutOfFuel ->
    grid_column m graph pitch player_id player_team cfg pos x y y1 best
    = grid_column n graph pitch player_id player_team cfg pos x y y1 best.
Proof.
  induction n as [|n IH]; intros m Hle y best H; [now simpl in H|].
  destruct m as [|m]; [lia|]. apply le_S_n in Hle.
  simpl in *.
  destruct (PrimFloat.leb y (y1 + 1e-6)%float); [|reflexivity].
  destruct (PrimFloat.ltb _ (min_space_clearance cfg)); [now apply IH|].
  apply bind_mono; [reflexivity | | exact H].
  intros q Hq. now apply IH.
Qed.

Lemma grid_rows_mono graph pitch player_id player_team cfg pos x1 y0 y1 :
  forall n m, n <= m -> forall x best,
    grid_rows n graph pitch player_id player_team cfg pos x x1 y0 y1 best
      <> OutOfFuel ->
    grid_rows m graph pitch player_id player_team cfg pos x x1 y0 y1 best
    = grid_rows n graph pitch player_id player_team cfg pos x x1 y0 y1 best.
Proof.
  induction n as [|n IH]; intros m Hle x best H; [now simpl in H|].
  destruct m as [|m]; [lia|].
  assert (Hle' : n <= m) by lia.
  cbn [grid_rows] in *.
  destruct (PrimFloat.leb x (x1 + 1e-6)%float); [|reflexivity].
  apply bind_mono; [| | exact H].
  - intros Hc. now apply grid_column_mono.
  - intros best' Hb. now apply IH.
Qed.

Lemma _best_open_space_anchor_mono n m graph pitch player_id player_team cfg :
  n <= m ->
  _best_open_space_anchor n graph pitch player_id player_team cfg <> OutOfFuel ->
  _best_open_space_anchor m graph pitch player_id player_team cfg
  = _best_open_space_anchor n graph pitch player_id player_team cfg.
Proof.
  intros Hle H. unfold _best_open_space_anchor in *.
  apply bind_mono; [reflexivity | | exact H].
  intros node Hn. destruct (node_pos node) as [px py].
  destruct (attack_direction cfg >? 0)%Z;
    (apply bind_mono; [| intros; reflexivity | exact Hn]);
    intros Hg; now apply grid_rows_mono.
Qed.

Lemma generate_candidates_for_player_mono n m graph pitch player_id
    player_team cfg summaries :
  n <= m ->
  generate_candidates_for_player n graph pitch player_id player_team cfg
    summaries <> OutOfFuel ->
  generate_candidates_for_player m graph pitch player_id player_team cfg
    summaries
  = generate_candidates_for_player n graph pitch player_id player_team cfg
      summaries.
Proof.
  intros Hle H. unfold generate_candidates_for_player in *.
  destruct (negb (dmem player_id (nodes graph))); [reflexivity|].
  apply bind_mono; [reflexivity | | exact H]. intros node H1.
  destruct (graph_ball_pos graph) as [bx by_].
  apply bind_mono; [reflexivity | | exact H1]. intros out1 H2.
  apply bind_mono; [reflexivity | | exact H2]. intros out2 H3.
  apply bind_mono; [reflexivity | | exact H3]. intros out3 H4.
  apply bind_mono; [| intros; reflexivity | exact H4]. intros H5.
  destruct (enable_space_targets cfg); [|reflexivity].
  apply bind_mono; [| intros; reflexivity | exact H5]. intros H6.
  now apply _best_open_space_anchor_mono.
Qed.

Lemma score_frame_mono n m pitch player_team player_role cfg player_ids
    spp g :
  n <= m ->
  score_frame n pitch player_team player_role cfg player_ids spp g
    <> OutOfFuel ->
  score_frame m pitch player_team player_role cfg player_ids spp g
  = score_frame n pitch player_team player_role cfg player_ids spp g.
Proof.
  intros Hle H. unfold score_frame in *.
  apply bind_mono; [reflexivity | | exact H]. intros summaries H1.
  apply foldM_mono; [|exact H1]. intros s pid H2.
  apply bind_mono; [| intros; reflexivity | exact H2]. intros H3.
  now apply generate_candidates_for_player_mono.
Qed.

Lemma run_baseline_policy_mono n m frames pitch player_team player_role cfg :
  n <= m ->
  run_baseline_policy n frames pitch player_team player_role cfg
    <> OutOfFuel ->
  run_baseline_policy m frames pitch player_team player_role cfg
  = run_baseline_policy n frames pitch player_team player_role cfg.
Proof.
  intros Hle H. unfold run_baseline_policy in *.
  apply bind_mono; [reflexivity | | exact H]. intros [dt t_rel_list] H1.
  apply bind_mono; [reflexivity | | exact H1]. intros v_by_frame H2.
  apply bind_mono; [reflexivity | | exact H2]. intros graphs H3.
  apply bind_mono; [reflexivity | | exact H3]. intros f0 H4.
  apply bind_mono; [| intros; reflexivity | exact H4]. intros H5.
  apply foldM_mono; [|exact H5]. intros s g H6.
  now apply score_frame_mono.
Qed.

(** More iterations allowed never change a result that was reached. *)
Lemma recommend_player_focus_mono n m meta raw_frames cfg :
  n <= m ->
  recommend_player_focus n meta raw_frames cfg <> OutOfFuel ->
  recommend_player_focus m meta raw_frames cfg
  = recommend_player_focus n meta raw_frames cfg.
Proof.
  intros Hle H. destruct raw_frames as [|rf0 rest]; [reflexivity|].
  rewrite !recommend_player_focus_canon in * by discriminate.
  apply bind_mono; [reflexivity | | exact H]. intros [frames P] H1.
  destruct (player_tables meta P) as [player_team player_role].
  now apply run_baseline_policy_mono.
Qed.

Lemma fill_players_same_dict {F} (idx : nat) (d d' : dict string (Vec2 F)) :
  same_dict d d' ->
  forall pids players last,
    fill_players idx d pids players last
    = fill_players idx d' pids players last.
Proof.
  intros Hd. induction pids as [|pid pids IH]; intros players last; simpl;
    [reflexivity|].
  rewrite <- (Hd pid). destruct (dget pid d); [apply IH|].
  destruct (dget pid last); [apply IH | reflexivity].
Qed.

Lemma canon_loop_same {F} (P : list string)
    (raw raw' : list (RawFrame F)) :
  Forall2 same_raw_frame raw raw' ->
  forall idx last lb lo,
    canon_loop P idx raw last lb lo = canon_loop P idx raw' last lb lo.
Proof.
  induction 1 as [|rf rf' raw raw' (Hp & Hb & Hn) _ IH]; intros idx last lb lo;
    simpl; [reflexivity|].
  rewrite (fill_players_same_dict idx _ _ Hp), Hb, Hn.
  destruct (fill_players idx (player_pos rf') P [] last) as [[pl last']| |];
    cbn [bind]; try reflexivity.
  destruct (fill_ball idx (ball rf') lb lo) as [[bp bo]| |]; cbn [bind];
    try reflexivity.
  now rewrite IH.
Qed.

Lemma canonicalize_frames_same {F} (raw raw' : list (RawFrame F)) :
  frame0_players raw = frame0_players raw' ->
  Forall2 same_raw_frame raw raw' ->
  canonicalize_frames raw = canonicalize_frames raw'.
Proof.
  intros H0 H. unfold canonicalize_frames.
  destruct H as [|rf rf' raw raw' Hrf Hrest]; [reflexivity|].
  simpl in H0. rewrite H0.
  now rewrite (canon_loop_same _ (rf :: raw) (rf' :: raw'))
    by (constructor; assumption).
Qed.

Lemma player_tables_same (meta meta' : TacticMeta) (P : list string) :
  same_dict (tm_players meta) (tm_players meta') ->
  player_tables meta P = player_tables meta' P.
Proof.
  intros H. unfold player_tables.
  generalize (([], []) : dict string string * dict string string).
  induction P as [|pid P IH]; intros acc; simpl; [reflexivity|].
  destruct acc as [pt pr]. rewrite (H pid). apply IH.
Qed.

(** Runs on inputs equal as values do the same, under one bound. *)
Lemma recommend_player_focus_same fuel meta meta' raw raw' cfg :
  same_input meta meta' raw raw' ->
  recommend_player_focus fuel meta raw cfg
  = recommend_player_focus fuel meta' raw' cfg.
Proof.
  intros (Hpitch & Hplayers & H0 & Hraw).
  unfold recommend_player_focus.
  rewrite (canonicalize_frames_same raw raw' H0 Hraw).
  destruct Hraw as [|rf rf' raw raw' _ _]; [reflexivity|].
  destruct (canonicalize_frames (rf' :: raw')) as [[frames P]| |];
    cbn [bind]; try reflexivity.
  now rewrite (player_tables_same meta meta' P Hplayers), Hpitch.
Qed.

End FuelFacts.

(** ** The stable sort is unique *)

Section StableSort.
Context {F : Type} {N : Num F} {O : ScoreOrder F}.

Let ge (a b : ScoredEvent F) : Prop := nltb (score a) (score b) = false.
Let ok (e : ScoredEvent F) : Prop := comparable (score e).
Let cls (k : F) (e : ScoredEvent F) : bool := tiedb k (score e).

Lemma tiedb_refl (a : F) : comparable a -> tiedb a a = true.
Proof.
  intros Ha. unfold tiedb. now rewrite (nltb_irrefl_comparable a Ha).
Qed.

Lemma tiedb_true (a b : F) :
  tiedb a b = true <-> nltb a b = false /\ nltb b a = false.
Proof.
  unfold tiedb. rewrite andb_true_iff, !negb_true_iff. tauto.
Qed.

(** An event below [x] is tied with nothing that [x] is tied with. *)
Lemma tied_not_below (k e x : F) :
  comparable k -> comparable e -> comparable x ->
  tiedb k e = true -> nltb e x = true -> tiedb k x = false.
Proof.
  intros Hk He Hx Hke Hex. destruct (tiedb k x) eqn:Hkx; [|reflexivity].
  apply tiedb_true in Hke as [_ Hek]. apply tiedb_true in Hkx as [Hkx _].
  pose proof (nge_trans e k x He Hk Hx Hek Hkx). congruence.
Qed.

Lemma filter_insert_desc (k : F) (e : ScoredEvent F) l :
  comparable k -> ok e -> Forall ok l ->
  filter (cls k) (insert_desc e l) = filter (cls k) (e :: l).
Proof.
  intros Hk He Hl. induction Hl as [|x r Hx Hr IH]; [reflexivity|].
  cbn [insert_desc]. destruct (nltb (score e) (score x)) eqn:Hex;
    [|reflexivity].
  cbn [filter]. rewrite IH. cbn [filter].
  destruct (cls k e) eqn:Cke; [|reflexivity].
  unfold cls in *. now rewrite (tied_not_below k _ _ Hk He Hx Cke Hex).
Qed.

Lemma filter_sort_desc (k : F) l :
  comparable k -> Forall ok l ->
  filter (cls k) (sort_desc l) = filter (cls k) l.
Proof.
  intros Hk Hl. induction Hl as [|e l He Hl IH]; [reflexivity|].
  cbn [sort_desc fold_right]. fold (sort_desc l).
  rewrite filter_insert_desc; try assumption.
  - cbn [filter]. now rewrite IH.
  - apply (Permutation_Forall (Permutation_sym (sort_desc_perm l))).
    assumption.
Qed.

Lemma sort_desc_stable l : Forall ok l -> stable_sort_desc l (sort_desc l).
Proof.
  intros Hl. split; [apply sort_desc_perm|]. split.
  - now apply sort_desc_sorted.
  - intros k Hk. now apply filter_sort_desc.
Qed.

(** Two descending lists with the same events in every class of tied
    scores, in the same order, are the same list. *)
Lemma sorted_classes_unique l1 :
  forall l2,
    Forall ok l1 -> Forall ok l2 ->
    StronglySorted ge l1 -> StronglySorted ge l2 ->
    (forall k, comparable k -> filter (cls k) l1 = filter (cls k) l2) ->
    l1 = l2.
Proof.
  induction l1 as [|a t1 IH]; intros l2 H1 H2 S1 S2 Hf.
  - destruct l2 as [|b t2]; [reflexivity|]. exfalso.
    inversion H2 as [|? ? Hb _]; subst.
    specialize (Hf (score b) Hb). cbn [filter] in Hf.
    assert (Tbb : cls (score b) b = true)
      by (unfold cls; now apply tiedb_refl).
    rewrite Tbb in Hf. discriminate.
  - inversion H1 as [|? ? Ha Ht1]; subst.
    inversion S1 as [|? ? St1 Ha1]; subst.
    assert (Taa : cls (score a) a = true)
      by (unfold cls; now apply tiedb_refl).
    destruct l2 as [|b t2].
    { specialize (Hf (score a) Ha). cbn [filter] in Hf. rewrite Taa in Hf.
      discriminate. }
    inversion H2 as [|? ? Hb Ht2]; subst.
    inversion S2 as [|? ? St2 Hb2]; subst.
    assert (Tbb : cls (score b) b = true)
      by (unfold cls; now apply tiedb_refl).
    (* [a] occurs in [l2] and [b] in [l1] *)
    assert (Ina : In a (b :: t2)).
    { apply (proj1 (filter_In (cls (score a)) a (b :: t2))).
      rewrite <- (Hf (score a) Ha). cbn [filter]. rewrite Taa. now left. }
    assert (Inb : In b (a :: t1)).
    { apply (proj1 (filter_In (cls (score b)) b (a :: t1))).
      rewrite (Hf (score b) Hb). cbn [filter]. rewrite Tbb. now left. }
    assert (Hba : nltb (score b) (score a) = false).
    { destruct Ina as [<-|Ina]; [now apply nltb_irrefl_comparable|].
      rewrite Forall_forall in Hb2. now apply Hb2. }
    assert (Hab : nltb (score a) (score b) = false).
    { destruct Inb as [<-|Inb]; [now apply nltb_irrefl_comparable|].
      rewrite Forall_forall in Ha1. now apply Ha1. }
    assert (Tab : cls (score a) b = true).
    { unfold cls. apply tiedb_true. now split. }
    pose proof (Hf (score a) Ha) as Hfa. cbn [filter] in Hfa.
    rewrite Taa, Tab in Hfa. inversion Hfa as [[Eab Hrest]].
    subst b. f_equal. apply IH; try assumption.
    intros k Hk. specialize (Hf k Hk). cbn [filter] in Hf.
    destruct (cls k a); [now inversion Hf | exact Hf].
Qed.

(** The stable sort is unique: [sort_desc] gives the list that any stable
    sort by descending score gives. *)
Lemma stable_sort_desc_unique l l' :
  Forall ok l -> stable_sort_desc l l' -> l' = sort_desc l.
Proof.
  intros Hl (Hp & Hs & Hf).
  destruct (sort_desc_stable l Hl) as (Hp' & Hs' & Hf').
  apply sorted_classes_unique; try assumption.
  - apply (Permutation_Forall (Permutation_sym Hp)). assumption.
  - apply (Permutation_Forall (Permutation_sym Hp')). assumption.
  - intros k Hk. unfold cls. now rewrite Hf, Hf'.
Qed.

End StableSort.

(** C5.  Determinism: the result of the pipeline is fixed by the values of
    its input, and what the code leaves to the language the language fixes.
    First, two runs that both finish, whatever bounds their loops were
    given, on the same configuration and on metadata and raw frames that
    are equal as Python values (every dict may have had its keys inserted
    in another order, provided frame 0 lists its players in the same
    order), end in the same result: the same exception, or outputs equal in
    every field: players and recommendations in the same order, the same
    scores as binary64 numbers, the same rationale strings, the same top-k
    lists.  Running twice on identical input is the case where nothing
    differs.  Second, the ranking has no freedom left: on scores that are
    numbers, a stable sort by descending score has one result only, the
    list that [sort_desc] gives, so the order of every ranked list and
    top-k list is the order of any run of [list.sort]. *)
Theorem pipeline_deterministic :
  (forall fuel1 fuel2 meta1 meta2
          (raw_frames1 raw_frames2 : list (RawFrame float)) cfg,
     same_input meta1 meta2 raw_frames1 raw_frames2 ->
     recommend_player_focus fuel1 meta1 raw_frames1 cfg <> OutOfFuel ->
     recommend_player_focus fuel2 meta2 raw_frames2 cfg <> OutOfFuel ->
     recommend_player_focus fuel1 meta1 raw_frames1 cfg
     = recommend_player_focus fuel2 meta2 raw_frames2 cfg)
  /\ (forall l l' : list (ScoredEvent float),
        Forall (fun e => not_nan (score e)) l ->
        stable_sort_desc l l' -> l' = sort_desc l).
Proof.
  split.
  - intros fuel1 fuel2 meta1 meta2 raw_frames1 raw_frames2 cfg Hs H1 H2.
    rewrite <- (recommend_player_focus_same fuel2 meta1 meta2 raw_frames1
                  raw_frames2 cfg Hs) in *.
    destruct (Nat.le_ge_cases fuel1 fuel2) as [Hle|Hle].
    + symmetry. now apply recommend_player_focus_mono.
    + now apply recommend_player_focus_mono.
  - intros l l' Hl Hs. now apply stable_sort_desc_unique.
Qed.


(* ================================================================== *)
(** * Clamping, and what smoothing does to clamped scores *)
(* ================================================================== *)

Section FloatOrder.

Lemma SFcompare_refl (f : spec_float) :
  f <> S754_nan -> SFcompare f f = Some Eq.
Proof.
  destruct f as [s|s| |s m e]; simpl; intros Hn; try congruence.
  - now destruct s.
  - rewrite Z.compare_refl.
    assert (Hm : Pos.compare_cont Eq m m = Eq) by apply Pos.compare_refl.
    rewrite Hm. now destruct s.
Qed.

Lemma float_ltb_leb (a b : float) :
  PrimFloat.ltb a b = true -> PrimFloat.leb a b = true.
Proof.
  rewrite ltb_spec, leb_spec. unfold SFltb, SFleb.
  destruct (SFcompare (Prim2SF a) (Prim2SF b)) as [[]|]; congruence.
Qed.

Lemma float_leb_refl_l (a b : float) :
  PrimFloat.leb a b = true -> PrimFloat.leb a a = true.
Proof.
  rewrite !leb_spec. unfold SFleb. intros H.
  rewrite SFcompare_refl; [reflexivity|].
  intros Hn. rewrite Hn in H. simpl in H. discriminate.
Qed.

Lemma float_leb_refl_r (a b : float) :
  PrimFloat.leb a b = true -> PrimFloat.leb b b = true.
Proof.
  rewrite !leb_spec. unfold SFleb. intros H.
  rewrite SFcompare_refl; [reflexivity|].
  intros Hn. rewrite Hn in H.
  destruct (Prim2SF a); simpl in H; discriminate.
Qed.

(** [max(score_min, min(score_max, s))] lies in [[score_min, score_max]]
    whenever [score_min <= score_max], whatever [s] is. *)
Lemma clamp_score_in_range (cfg : AlgoConfig float) (s : float) :
  PrimFloat.leb (score_min cfg) (score_max cfg) = true ->
  in_clamp_range cfg (clamp_score cfg s).
Proof.
  intros Hle. unfold in_clamp_range, clamp_score, pymax, pymin.
  destruct (PrimFloat.ltb s (score_max cfg)) eqn:E1.
  - destruct (PrimFloat.ltb (score_min cfg) s) eqn:E2.
    + split; now apply float_ltb_leb.
    + split; [eapply float_leb_refl_l | ]; eassumption.
  - destruct (PrimFloat.ltb (score_min cfg) (score_max cfg)) eqn:E2.
    + split; [assumption | eapply float_leb_refl_r; eassumption].
    + split; [eapply float_leb_refl_l | ]; eassumption.
Qed.

End FloatOrder.

Section DictValues.
Context {K V : Type} `{Key K}.

Lemma In_dset (k : K) (v : V) (d : dict K V) (x : K * V) :
  In x (dset k v d) -> x = (k, v) \/ In x d.
Proof.
  induction d as [|[k' v'] d IH]; simpl.
  - intros [<-|[]]. now left.
  - destruct (keqb k k') eqn:E; simpl.
    + apply keqb_eq in E. subst k'. intros [<-|Hin]; auto.
    + intros [<-|Hin]; auto. destruct (IH Hin); auto.
Qed.

Lemma dvalues_all_nil (Q : V -> Prop) : dvalues_all Q ([] : dict K V).
Proof. intros k v []. Qed.

Lemma dvalues_all_dset (Q : V -> Prop) (k : K) (v : V) (d : dict K V) :
  dvalues_all Q d -> Q v -> dvalues_all Q (dset k v d).
Proof.
  intros Hd Hv k' v' Hin. apply In_dset in Hin as [Heq|Hin].
  - now inversion Heq; subst.
  - eauto.
Qed.

Lemma dvalues_all_dget (Q : V -> Prop) (k : K) (v : V) (d : dict K V) :
  dvalues_all Q d -> dget k d = Some v -> Q v.
Proof. intros Hd Hg. apply dget_In in Hg. eauto. Qed.

Lemma dvalues_all_fold_dset (Q : V -> Prop) (f : K -> V) (ks : list K) :
  (forall k, Q (f k)) ->
  forall d, dvalues_all Q d ->
            dvalues_all Q (fold_left (fun d k => dset k (f k) d) ks d).
Proof.
  intros Hf. induction ks as [|k ks IH]; intros d Hd; simpl; [assumption|].
  apply IH. now apply dvalues_all_dset.
Qed.

End DictValues.

Lemma mapM_Forall {A B} (R : B -> Prop) (f : A -> result B) (l : list A) bs :
  (forall a b, f a = Ok b -> R b) -> mapM f l = Ok bs -> Forall R bs.
Proof.
  intros Hf. revert bs. induction l as [|a l IH]; simpl; intros bs H.
  - inversion H. constructor.
  - bind_ok H as b Eb. bind_ok H as bs' Ebs. inversion H; subst.
    constructor; eauto.
Qed.

Lemma Forall_firstn_of {A} (Q : A -> Prop) (n : nat) (l : list A) :
  Forall Q l -> Forall Q (firstn n l).
Proof.
  intros H. revert n. induction H as [|x l Hx Hl IH]; intros [|n]; simpl;
    constructor; auto.
Qed.

Lemma foldM_invariant {A S} (I : S -> Prop) (f : S -> A -> result S) :
  (forall s a s', I s -> f s a = Ok s' -> I s') ->
  forall l s s', I s -> foldM f s l = Ok s' -> I s'.
Proof.
  intros Hf. induction l as [|a l IH]; simpl; intros s s' Hs H.
  - inversion H; subst. assumption.
  - bind_ok H as s1 E1. eauto.
Qed.

Section ClampFacts.
Variable cfg : AlgoConfig float.
Hypothesis Hclamp : clamp_scores cfg = true.
Hypothesis Hrange : PrimFloat.leb (score_min cfg) (score_max cfg) = true.

Let P (e : ScoredEvent float) : Prop := in_clamp_range cfg (score e).
Let Q (e : ScoredEvent float) : Prop := clamped_then_smoothed cfg (score e).

(** What holds of a recommendation: its top-k scores are clamped scores as
    smoothing leaves them, and so is its primary score unless it is the
    fallback, whose score is [0.0]. *)
Let R (r : PlayerFocusRecommendation float) : Prop :=
  ((rationale r = ["fallback_ball"] /\ primary_score r = 0%float
    /\ top_k r = [])
   \/ clamped_then_smoothed cfg (primary_score r))
  /\ Forall Q (top_k r).

Lemma P_Q e : P e -> Q e.
Proof. intros HP. exists (score e). split; [exact HP | now left]. Qed.

Lemma score_event_clamped graph player_id pos summaries role c e :
  score_event graph player_id pos summaries cfg role c = Ok e -> P e.
Proof.
  unfold score_event. intros H. bind_ok H as [s reasons] Es.
  inversion H; subst; clear H. unfold P. simpl. rewrite Hclamp.
  now apply clamp_score_in_range.
Qed.

Lemma score_candidates_clamped graph player_id candidates summaries role l :
  score_candidates graph player_id candidates summaries cfg role = Ok l ->
  Forall P l.
Proof.
  unfold score_candidates. intros H.
  destruct (negb (dmem player_id (nodes graph))).
  - inversion H. constructor.
  - bind_ok H as node En. bind_ok H as scored Es. inversion H; subst.
    apply (Permutation_Forall (Permutation_sym (sort_desc_perm scored))).
    eapply mapM_Forall; [|exact Es].
    intros c e. apply score_event_clamped.
Qed.

Lemma adjust_Q prev e : P e -> Q (adjust cfg prev e).
Proof.
  intros HP. exists (score e). split; [exact HP|]. right.
  unfold adjust. simpl. destruct (_same_focus e prev); auto.
Qed.

Lemma smooth_frame_Q prev events :
  Forall P events -> Forall Q (fst (smooth_frame cfg prev events)).
Proof.
  intros HP. unfold smooth_frame. destruct events as [|e0 es]; [constructor|].
  destruct prev as [p|]; simpl.
  - apply (Permutation_Forall
             (Permutation_sym (sort_desc_perm (map (adjust cfg p) (e0 :: es))))).
    apply Forall_map. eapply Forall_impl; [|exact HP].
    intros e. apply adjust_Q.
  - eapply Forall_impl; [|exact HP]. apply P_Q.
Qed.

Lemma smooth_loop_Q items :
  forall prev out,
    Forall (fun kv => Forall P (snd kv)) items ->
    dvalues_all (Forall Q) out ->
    dvalues_all (Forall Q) (smooth_loop cfg items prev out).
Proof.
  induction items as [|[i events] items IH]; intros prev out Hitems Hout;
    simpl; [assumption|].
  inversion Hitems as [|? ? He Hrest]; subst. simpl in He.
  pose proof (smooth_frame_Q prev events He) as Hq.
  destruct (smooth_frame cfg prev events) as [o prev']. simpl in Hq.
  apply IH; [assumption|]. now apply dvalues_all_dset.
Qed.

Lemma apply_temporal_smoothing_Q (d : dict nat (list (ScoredEvent float))) :
  dvalues_all (Forall P) d ->
  dvalues_all (Forall Q) (apply_temporal_smoothing d cfg).
Proof.
  intros Hd.
  assert (Hloop : dvalues_all (Forall Q)
                    (smooth_loop cfg (sorted_items d) None [])).
  { apply smooth_loop_Q; [|apply dvalues_all_nil].
    apply (Permutation_Forall (Permutation_sym (sorted_items_perm d))).
    apply Forall_forall. intros [i l] Hin. simpl. exact (Hd i l Hin). }
  unfold apply_temporal_smoothing. destruct d; [apply dvalues_all_nil|].
  exact Hloop.
Qed.

(** The scoring stage stores clamped scores only. *)
Lemma score_frame_clamped fuel pitch player_team player_role player_ids
    spp g spp' :
  (forall pid inner, dget pid spp = Some inner -> dvalues_all (Forall P) inner) ->
  score_frame fuel pitch player_team player_role cfg player_ids spp g = Ok spp' ->
  forall pid inner, dget pid spp' = Some inner -> dvalues_all (Forall P) inner.
Proof.
  intros Hspp H. unfold score_frame in H. bind_ok H as summaries Es.
  eapply (foldM_invariant
            (fun spp => forall pid inner, dget pid spp = Some inner ->
                                          dvalues_all (Forall P) inner));
    [| exact Hspp | exact H].
  clear Hspp H spp spp'. intros spp pid0 spp' Hspp H.
  bind_ok H as cands Ec. bind_ok H as scored Esc. bind_ok H as inner0 Ei.
  inversion H; subst; clear H. apply lookup_Ok in Ei.
  intros pid inner Hg. rewrite dget_dset in Hg.
  destruct (keqb pid pid0); [|eauto].
  inversion Hg; subst; clear Hg.
  apply dvalues_all_dset; [eauto|].
  eapply score_candidates_clamped; eassumption.
Qed.

(** The smoothing stage, over a player list without repetition: players not
    visited yet hold clamped scores, visited ones smoothed clamped scores. *)
Lemma smoothing_stage_Q :
  forall pids spp spp',
    NoDup pids ->
    (forall pid inner, dget pid spp = Some inner ->
       (In pid pids -> dvalues_all (Forall P) inner)
       /\ (~ In pid pids -> dvalues_all (Forall Q) inner)) ->
    foldM (fun spp pid =>
             inner <- lookup pid spp ;;
             Ok (dset pid (apply_temporal_smoothing inner cfg) spp))
          spp pids = Ok spp' ->
    forall pid inner, dget pid spp' = Some inner -> dvalues_all (Forall Q) inner.
Proof.
  induction pids as [|pid0 pids IH]; intros spp spp' Hnd Hspp H; simpl in H.
  - inversion H; subst. intros pid inner Hg. apply (Hspp pid inner Hg). tauto.
  - bind_ok H as spp1 E1. bind_ok E1 as inner0 Ei. inversion E1; subst spp1.
    apply lookup_Ok in Ei. inversion Hnd as [|? ? Hni Hnd']; subst.
    eapply IH; [exact Hnd' | | exact H].
    intros pid inner Hg. rewrite dget_dset in Hg.
    destruct (keqb pid pid0) eqn:Ek.
    + apply keqb_eq in Ek. subst pid. inversion Hg; subst inner.
      split; [contradiction|]. intros _.
      apply apply_temporal_smoothing_Q. apply (Hspp pid0 inner0 Ei). now left.
    + assert (Hne : pid <> pid0).
      { intros ->. rewrite keqb_refl in Ek. discriminate. }
      destruct (Hspp pid inner Hg) as [H1 H2]. split.
      * intros Hin. apply H1. now right.
      * intros Hn. apply H2. intros [Heq|Hin]; [congruence | contradiction].
Qed.

Lemma recommend_at_R frames t_rel_list spp pid i r :
  (forall pid inner, dget pid spp = Some inner -> dvalues_all (Forall Q) inner) ->
  recommend_at cfg frames t_rel_list spp pid i = Ok r -> R r.
Proof.
  intros Hspp H. unfold recommend_at in H. bind_ok H as scored Es.
  apply lookup_Ok in Es.
  assert (Hranked : Forall Q (dget_default i [] scored)).
  { unfold dget_default. destruct (dget i scored) as [l|] eqn:El; [|constructor].
    eapply dvalues_all_dget; [|exact El]. eauto. }
  destruct (dget_default i [] scored) as [|e0 es].
  - bind_ok H as fr Ef. bind_ok H as t Et. inversion H; subst. unfold R. simpl.
    split; [now left | constructor].
  - bind_ok H as t Et. bind_ok H as prim Ep. inversion H; subst. unfold R.
    simpl. split.
    + right. inversion Hranked; subst. assumption.
    + now apply Forall_firstn_of.
Qed.

Lemma final_recommendations_R frames t_rel_list spp player_ids out :
  (forall pid inner, dget pid spp = Some inner -> dvalues_all (Forall Q) inner) ->
  final_recommendations cfg frames t_rel_list spp player_ids = Ok out ->
  dvalues_all (Forall R) out.
Proof.
  intros Hspp H. unfold final_recommendations in H.
  eapply (foldM_invariant (dvalues_all (Forall R))); [| | exact H].
  - clear H. intros out1 pid out2 Hout H. bind_ok H as recs Er. bind_ok H as cur Ec.
    inversion H; subst. apply lookup_Ok in Ec.
    apply dvalues_all_dset; [assumption|].
    apply Forall_app. split.
    + exact (dvalues_all_dget (Forall R) pid cur out1 Hout Ec).
    + eapply mapM_Forall; [|exact Er]. intros a b. now apply recommend_at_R.
  - apply (dvalues_all_fold_dset (Forall R) (fun _ => [])).
    + intros _. constructor.
    + apply dvalues_all_nil.
Qed.

Lemma run_baseline_policy_R fuel frames pitch player_team player_role f0 out :
  nth_error frames 0 = Some f0 ->
  NoDup (dkeys (players f0)) ->
  run_baseline_policy fuel frames pitch player_team player_role cfg = Ok out ->
  dvalues_all (Forall R) out.
Proof.
  intros H0 Hnd H. unfold run_baseline_policy in H.
  bind_ok H as [dt t_rel_list] Et. bind_ok H as v_by_frame Ev.
  bind_ok H as graphs Eg. bind_ok H as f0' Ef.
  apply index_Ok in Ef. assert (f0' = f0) by congruence. subst f0'.
  bind_ok H as spp1 E1. bind_ok H as spp2 E2.
  eapply final_recommendations_R; [|exact H].
  eapply smoothing_stage_Q; [exact Hnd | | exact E2].
  assert (H1 : forall pid inner, dget pid spp1 = Some inner ->
                                 dvalues_all (Forall P) inner).
  { eapply (foldM_invariant
              (fun spp => forall pid inner, dget pid spp = Some inner ->
                                            dvalues_all (Forall P) inner));
      [| | exact E1].
    - intros spp g spp' Hspp Hs. eapply score_frame_clamped; eassumption.
    - intros pid inner Hg.
      rewrite (dget_fold_dset
                 (fun _ : string => ([] : list (nat * list (ScoredEvent float)))))
        in Hg.
      destruct (in_dec keqb_dec pid (dkeys (players f0)));
        [|discriminate].
      inversion Hg. apply dvalues_all_nil. }
  intros pid inner Hg. split; [eauto|].
  intros _. intros i l Hin. eapply Forall_impl; [apply P_Q|].
  exact (H1 pid inner Hg i l Hin).
Qed.

End ClampFacts.

Section CanonKeys.
Context {F : Type}.

Lemma dset_keys_NoDup {V} (k : string) (v : V) (d : dict string V) :
  NoDup (dkeys d) -> NoDup (dkeys (dset k v d)).
Proof.
  intros Hnd. destruct (in_dec string_dec k (dkeys d)) as [Hin|Hn].
  - now rewrite dkeys_dset_in.
  - rewrite dkeys_dset_notin by assumption.
    apply NoDup_app; [assumption | repeat constructor; auto |].
    intros x Hx [<-|[]]. contradiction.
Qed.

Lemma fill_players_NoDup (idx : nat) (rf_pos : dict string (Vec2 F)) pids :
  forall players last players' last',
    NoDup (dkeys players) ->
    fill_players idx rf_pos pids players last = Ok (players', last') ->
    NoDup (dkeys players').
Proof.
  induction pids as [|pid0 rest IH]; intros players last players' last' Hnd E;
    simpl in E.
  - now inversion E; subst.
  - destruct (dget pid0 rf_pos) as [p|].
    + eapply IH; [|exact E]. now apply dset_keys_NoDup.
    + destruct (dget pid0 last) as [p|]; [|discriminate].
      eapply IH; [|exact E]. now apply dset_keys_NoDup.
Qed.

(** The [players] dict of a canonical frame has no repeated key. *)
Lemma canon_loop_NoDup (P : list string) :
  forall (raws : list (RawFrame F)) idx last lb lo frames,
    canon_loop P idx raws last lb lo = Ok frames ->
    Forall (fun fr => NoDup (dkeys (players fr))) frames.
Proof.
  induction raws as [|rf0 raws IH]; intros idx last lb lo frames E; simpl in E.
  - inversion E. constructor.
  - bind_ok E as [pl last'] Efill. bind_ok E as [bpos bowner] Eball.
    bind_ok E as frames' Eloop. inversion E; subst; clear E.
    constructor; [|eauto]. simpl.
    eapply fill_players_NoDup; [|exact Efill]. constructor.
Qed.

End CanonKeys.

(** C2 (as amended).  With clamping enabled and [score_min <= score_max],
    every score in the output of the pipeline (each primary score and each
    top-k score of each recommendation) is a score of
    [[score_min, score_max]] either unchanged, or with [persistence_bonus]
    added, or with [switch_penalty] subtracted: the scorer clamps, the
    smoother adjusts afterwards and does not clamp again.  The primary score
    of a fallback recommendation is [0.0]. *)
Theorem output_scores_clamped_then_smoothed fuel meta raw_frames cfg out :
  clamp_scores cfg = true ->
  PrimFloat.leb (score_min cfg) (score_max cfg) = true ->
  recommend_player_focus fuel meta raw_frames cfg = Ok out ->
  forall pid recs r,
    In (pid, recs) out -> In r recs ->
    ((rationale r = ["fallback_ball"] /\ primary_score r = 0%float
      /\ top_k r = [])
     \/ clamped_then_smoothed cfg (primary_score r))
    /\ Forall (fun e => clamped_then_smoothed cfg (score e)) (top_k r).
Proof.
  intros Hclamp Hrange H pid recs r Hin Hr.
  assert (Hne : raw_frames <> []).
  { intros ->. cbv [recommend_player_focus] in H. discriminate H. }
  rewrite recommend_player_focus_canon in H by exact Hne.
  bind_ok H as [frames P] Ec.
  destruct (player_tables meta P) as [player_team player_role].
  assert (Hnd : Forall (fun fr => NoDup (dkeys (players fr))) frames).
  { unfold canonicalize_frames in Ec. destruct raw_frames; [discriminate|].
    bind_ok Ec as fs Eloop. inversion Ec; subst.
    eapply canon_loop_NoDup. exact Eloop. }
  destruct frames as [|f0 frames'].
  { unfold run_baseline_policy in H. simpl in H. discriminate. }
  inversion Hnd as [|? ? Hnd0 _]; subst.
  pose proof (run_baseline_policy_R cfg Hclamp Hrange fuel (f0 :: frames')
                (tm_pitch meta) player_team player_role f0 out
                eq_refl Hnd0 H) as Hall.
  specialize (Hall pid recs Hin). rewrite Forall_forall in Hall.
  exact (Hall r Hr).
Qed.

(* ================================================================== *)
(** * The scenarios, evaluated *)
(* ================================================================== *)

Section ScenarioFacts.
Open Scope float_scope.


Lemma scenario_A_runs :
  recommend_player_focus 100 scenario_A_meta scenario_A_frames default_config
  = Ok scenario_A_output.
Proof. vm_compute. reflexivity. Qed.



(** C3 (as amended).  On Scenario A the primary of every recommendation,
    for both players and all three frames, is the OPEN_SPACE-derived ZONE
    target anchored at the first point of the player's sampling grid, [(x,
    y - 18)]; this holds for every bound of at least 100 iterations on the
    grid loops.  With no opponents every grid point has clearance [inf], so
    the open-space value is [inf], its score is clamped to [score_max], and
    no other candidate reaches it. *)
Theorem scenario_A_primary_is_open_space :
  forall k,
    recommend_player_focus (100 + k) scenario_A_meta scenario_A_frames
      default_config = Ok scenario_A_output
    /\ primaries scenario_A_output
       = [ ("p1"%string, [space_target (45, 12); space_target (45, 12);
                          space_target (47, 13)]);
           ("p2"%string, [space_target (60, 22); space_target (62, 23);
                          space_target (64, 24)]) ]
    /\ primary_names scenario_A_output
       = [ ("p1"%string, [Some "OPEN_SPACE"; Some "OPEN_SPACE";
                          Some "OPEN_SPACE"]%string);
           ("p2"%string, [Some "OPEN_SPACE"; Some "OPEN_SPACE";
                          Some "OPEN_SPACE"]%string) ].
Proof.
  intros k. split; [|split; vm_compute; reflexivity].
  rewrite recommend_player_focus_mono with (n := 100%nat) by
    (try lia; rewrite scenario_A_runs; discriminate).
  exact scenario_A_runs.
Qed.

(** C3, refuted as stated: on Scenario A the primary of player p1 at frame
    0 is not the BALL target at (50, 34); it is a ZONE target. *)
Lemma scenario_A_primary_is_not_ball :
  exists recs r,
    recommend_player_focus 100 scenario_A_meta scenario_A_frames default_config
    = Ok scenario_A_output
    /\ dget "p1"%string scenario_A_output = Some recs
    /\ nth_error recs 0 = Some r
    /\ target_type (primary r) = ZONE
    /\ primary r <> ball_target_A.
Proof.
  eexists. eexists. split; [exact scenario_A_runs|].
  split; [vm_compute; reflexivity|]. split; [reflexivity|].
  split; [reflexivity|]. intros Heq. apply (f_equal target_type) in Heq.
  discriminate Heq.
Qed.

(** C2, refuted as stated: on Scenario A, with clamping enabled and
    [score_max = 10.0], the primary score of player p1 at frame 1 is
    [10.0 + 0.8], above [score_max]. *)
Lemma scenario_A_score_above_score_max :
  exists recs r,
    clamp_scores default_config = true
    /\ recommend_player_focus 100 scenario_A_meta scenario_A_frames
         default_config = Ok scenario_A_output
    /\ dget "p1"%string scenario_A_output = Some recs
    /\ nth_error recs 1 = Some r
    /\ primary_score r = 10 + 0.8
    /\ (primary_score r <=? score_max default_config) = false.
Proof.
  eexists. eexists. split; [reflexivity|]. split; [exact scenario_A_runs|].
  split; [vm_compute; reflexivity|]. split; [reflexivity|].
  split; vm_compute; reflexivity.
Qed.

(** Scenario D: with all five generators disabled every recommendation is
    the fallback. *)
Lemma scenario_D_fallback :
  exists out,
    recommend_player_focus 100 scenario_A_meta scenario_A_frames
      no_generators_config = Ok out
    /\ Forall (fun '(pid, recs) =>
                 Forall (fun r => primary r = ball_target_A
                                  /\ primary_score r = 0
                                  /\ rationale r = ["fallback_ball"%string]
                                  /\ top_k r = []) recs) out.
Proof.
  eexists. split; [vm_compute; reflexivity|].
  repeat constructor.
Qed.

End ScenarioFacts.

(* ================================================================== *)
(** * The theorems at concrete inputs *)
(* ================================================================== *)

Section Witnesses.


Lemma output_scores_clamped_then_smoothed_witness :
  clamp_scores default_config = true
  /\ PrimFloat.leb (score_min default_config) (score_max default_config) = true
  /\ recommend_player_focus 100 scenario_A_meta scenario_A_frames default_config
     = Ok scenario_A_output
  /\ forall pid recs r,
       In (pid, recs) scenario_A_output -> In r recs ->
       Forall (fun e => clamped_then_smoothed default_config (score e))
              (top_k r).
Proof.
  assert (H1 : clamp_scores default_config = true) by reflexivity.
  assert (H2 : PrimFloat.leb (score_min default_config)
                 (score_max default_config) = true) by reflexivity.
  assert (H3 : recommend_player_focus 100 scenario_A_meta scenario_A_frames
                 default_config = Ok scenario_A_output)
    by (vm_compute; reflexivity).
  split; [assumption|]. split; [assumption|]. split; [assumption|].
  intros pid recs r Hin Hr.
  exact (proj2 (output_scores_clamped_then_smoothed 100 scenario_A_meta
                  scenario_A_frames default_config scenario_A_output
                  H1 H2 H3 pid recs r Hin Hr)).
Defined.

Lemma same_dict_two {V} (a b : string) (va vb : V) :
  a <> b -> same_dict [(a, va); (b, vb)] [(b, vb); (a, va)].
Proof.
  intros Hne k. simpl.
  destruct (String.eqb_spec k a) as [Ea|Ha];
    destruct (String.eqb_spec k b) as [Eb|Hb]; try reflexivity.
  congruence.
Qed.

Lemma pipeline_deterministic_witness :
  same_input scenario_A_meta scenario_A_meta_reordered scenario_A_frames
    scenario_A_frames_reordered
  /\ recommend_player_focus 100 scenario_A_meta scenario_A_frames default_config
     <> OutOfFuel
  /\ recommend_player_focus 150 scenario_A_meta_reordered
       scenario_A_frames_reordered default_config
     <> OutOfFuel
  /\ recommend_player_focus 100 scenario_A_meta scenario_A_frames default_config
     = recommend_player_focus 150 scenario_A_meta_reordered
         scenario_A_frames_reordered default_config.
Proof.
  assert (Hs : same_input scenario_A_meta scenario_A_meta_reordered
                 scenario_A_frames scenario_A_frames_reordered).
  { split; [reflexivity|]. split; [apply same_dict_two; discriminate|].
    split; [reflexivity|].
    repeat constructor; try (intros k; reflexivity);
      apply same_dict_two; discriminate. }
  assert (H1 : recommend_player_focus 100 scenario_A_meta scenario_A_frames
                 default_config <> OutOfFuel)
    by (vm_compute; discriminate).
  assert (H2 : recommend_player_focus 150 scenario_A_meta_reordered
                 scenario_A_frames_reordered default_config <> OutOfFuel)
    by (vm_compute; discriminate).
  split; [assumption|]. split; [assumption|]. split; [assumption|].
  exact (proj1 pipeline_deterministic 100 150 scenario_A_meta
           scenario_A_meta_reordered scenario_A_frames
           scenario_A_frames_reordered default_config Hs H1 H2).
Defined.

Lemma forward_fill_correct_witness :
  canonicalize_frames sparse_frames = Ok (sparse_canonical, ["p1"; "p2"]%string)
  /\ exists rf fr fr_prev,
       nth_error sparse_frames 1 = Some rf
       /\ nth_error sparse_canonical 1 = Some fr
       /\ nth_error sparse_canonical 0 = Some fr_prev
       /\ dget "p2"%string (player_pos rf) = None
       /\ dget "p2"%string (players fr) = dget "p2"%string (players fr_prev)
       /\ dget "p2"%string (players fr) <> None.
Proof.
  assert (H1 : canonicalize_frames sparse_frames
               = Ok (sparse_canonical, ["p1"; "p2"]%string))
    by (vm_compute; reflexivity).
  split; [assumption|].
  destruct (forward_fill_correct sparse_frames sparse_canonical
              ["p1"; "p2"]%string H1) as [_ Hfill].
  eexists. eexists. eexists.
  split; [reflexivity|]. split; [reflexivity|]. split; [reflexivity|].
  split; [reflexivity|].
  refine (Hfill 0 _ _ _ "p2"%string _ eq_refl eq_refl eq_refl).
  simpl. auto.
Defined.


Lemma smoothing_preserves_events_witness :
  NoDup (dkeys exact_scored)
  /\ Permutation (dkeys (apply_temporal_smoothing exact_scored exact_config))
                 (dkeys exact_scored)
  /\ exists out_i evs',
       dget 3 (apply_temporal_smoothing exact_scored exact_config) = Some out_i
       /\ List.length out_i = 2
       /\ Permutation evs' out_i
       /\ Forall2 (smoothed_version exact_config)
                  [exact_goal 6000; exact_ball 4000] evs'.
Proof.
  assert (H1 : NoDup (dkeys exact_scored)).
  { repeat constructor; simpl; intuition lia. }
  destruct (smoothing_preserves_events exact_config exact_scored H1)
    as [Hk Hev].
  split; [assumption|]. split; [assumption|].
  destruct (Hev 3 [exact_goal 6000; exact_ball 4000] eq_refl)
    as (out_i & evs' & Hg & Hl & Hp & Hs & _).
  exists out_i, evs'. repeat split; assumption.
Defined.

Lemma smoothing_skips_empty_frames_witness :
  NoDup (dkeys gap_scored)
  /\ dget 2 (apply_temporal_smoothing gap_scored default_config) = Some []
  /\ dget 1 (apply_temporal_smoothing gap_scored default_config)
     = Some [float_ball 5%float; float_goal 3%float]
  /\ exists out0 p out1 evs',
       dget 1 (apply_temporal_smoothing gap_scored default_config) = Some out0
       /\ hd_error out0 = Some p
       /\ (all_empty_before gap_scored 1 ->
           hd_error [float_ball 5%float; float_goal 3%float] = Some p)
       /\ dget 3 (apply_temporal_smoothing gap_scored default_config)
          = Some out1
       /\ Permutation evs' out1
       /\ Forall2 (adjusted_against default_config p)
            [float_goal 6%float; float_ball 4%float] evs'.
Proof.
  assert (H1 : NoDup (dkeys gap_scored)).
  { repeat constructor; simpl; intuition lia. }
  destruct (smoothing_skips_empty_frames default_config gap_scored H1)
    as (Hempty & Hfirst & Hgap).
  split; [assumption|]. split; [apply Hempty; reflexivity|]. split.
  - apply Hfirst; [reflexivity|].
    intros j evs Hj Hg. assert (j = 0) by lia. subst j.
    simpl in Hg. now inversion Hg.
  - apply (Hgap 1 3 [float_ball 5%float; float_goal 3%float]
                [float_goal 6%float; float_ball 4%float]);
      try reflexivity; try discriminate; try lia.
    intros j evs Hj1 Hj3 Hg. assert (j = 2) by lia. subst j.
    simpl in Hg. now inversion Hg.
Defined.

Lemma smoothing_lag_witness :
  exists top rest,
    dget 1 (apply_temporal_smoothing lag_scored default_config)
    = Some (top :: rest)
    /\ _same_focus top (float_ball 5%float) = true.
Proof.
  apply (smoothing_lag default_config lag_scored 0 1
           [float_ball 5%float]
           [float_goal 6%float; float_ball 4%float]
           [float_ball 5%float]
           (float_ball 5%float) (float_ball 4%float)).
  - repeat constructor; simpl; intuition lia.
  - lia.
  - reflexivity.
  - discriminate.
  - reflexivity.
  - intros j evs Hj0 Hj1. lia.
  - reflexivity.
  - reflexivity.
  - simpl. auto.
  - reflexivity.
  - repeat constructor.
  - intros c [<-|[<-|[]]] Hc; [reflexivity | discriminate Hc].
Defined.

(** C4, refuted as stated.  With the default [switch_penalty = 1.5] and
    [persistence_bonus = 0.8]: the carried primary is the ball; at frame 1
    the goal, listed first, exceeds the ball by 2.2999999999999994, strictly
    less than 2.3; yet [score - 1.5] of the goal and [score + 0.8] of the
    ball are the same binary64 number, the stable sort keeps the goal
    first, and the primary switches. *)
Lemma smoothing_lag_rounding_tie :
  let out := apply_temporal_smoothing tie_scored default_config in
  let p := float_ball tie_ball_score in
  let m := float_ball tie_ball_score in
  let ev1 := [float_goal tie_goal_score; float_ball tie_ball_score] in
  dget 0 tie_scored = Some [p]
  /\ dget 1 tie_scored = Some ev1
  /\ dget 0 out = Some [p]
  /\ In m ev1 /\ _same_focus m p = true
  /\ (forall c, In c ev1 -> _same_focus c p = false ->
        PrimFloat.ltb (score c - score m)
          (switch_penalty default_config + persistence_bonus default_config)
        = true)
  /\ (tie_goal_score - switch_penalty default_config
      = tie_ball_score + persistence_bonus default_config)%float
  /\ exists top rest,
       dget 1 out = Some (top :: rest)
       /\ name top = "GOAL"%string
       /\ _same_focus top p = false.
Proof.
  repeat (split; [reflexivity|]).
  split; [simpl; auto|].
  split; [reflexivity|].
  split.
  { intros c [<-|[<-|[]]] Hc; [reflexivity | discriminate Hc]. }
  split; [reflexivity|].
  eexists. eexists. split; [reflexivity|]. split; reflexivity.
Qed.

End Witnesses.

(* ================================================================== *)
(** * Further properties of canonicalisation *)
(* ================================================================== *)

Section CanonExtra.
Context {F : Type}.

(** The ball of canonical frame [i], given the ball of the frame before:
    the raw ball's position and owner when the raw ball has both
    coordinates, the carried pair otherwise. *)
Lemma canon_loop_ball (P : list string) :
  forall (raws : list (RawFrame F)) idx last lb lo frames,
    canon_loop P idx raws last lb lo = Ok frames ->
    (forall rf fr,
       nth_error raws 0 = Some rf -> nth_error frames 0 = Some fr ->
       match ball_x (ball rf), ball_y (ball rf) with
       | Some bx, Some by_ =>
           ball_pos fr = (bx, by_) /\ ball_owner_id fr = owner_id (ball rf)
       | _, _ => lb = Some (ball_pos fr) /\ ball_owner_id fr = lo
       end)
    /\ (forall i rf fr fr',
          nth_error raws (S i) = Some rf -> nth_error frames (S i) = Some fr ->
          nth_error frames i = Some fr' ->
          match ball_x (ball rf), ball_y (ball rf) with
          | Some bx, Some by_ =>
              ball_pos fr = (bx, by_) /\ ball_owner_id fr = owner_id (ball rf)
          | _, _ =>
              ball_pos fr = ball_pos fr'
              /\ ball_owner_id fr = ball_owner_id fr'
          end).
Proof.
  induction raws as [|rf0 raws IH]; intros idx last lb lo frames E; simpl in E.
  - inversion E; subst. split; [intros rf fr H0 | intros i rf fr fr' H0];
      discriminate.
  - bind_ok E as [pl last'] Efill. bind_ok E as [bpos bowner] Eball.
    bind_ok E as frames' Eloop. inversion E; subst; clear E.
    apply IH in Eloop as [Hfirst Hnext].
    assert (H0 : match ball_x (ball rf0), ball_y (ball rf0) with
                 | Some bx, Some by_ =>
                     bpos = (bx, by_) /\ bowner = owner_id (ball rf0)
                 | _, _ => lb = Some bpos /\ bowner = lo
                 end).
    { unfold fill_ball in Eball.
      destruct (ball_x (ball rf0)), (ball_y (ball rf0));
        try (destruct lb; [|discriminate]); inversion Eball; subst; auto. }
    split.
    + intros rf fr [= <-] [= <-]. exact H0.
    + intros [|i] rf fr fr' Hrf Hfr Hfr'; simpl in Hrf, Hfr, Hfr'.
      * inversion Hfr'; subst fr'; simpl.
        specialize (Hfirst rf fr Hrf Hfr).
        destruct (ball_x (ball rf)), (ball_y (ball rf)); try assumption;
          destruct Hfirst as [[= ->] ->]; auto.
      * exact (Hnext i rf fr fr' Hrf Hfr Hfr').
Qed.

Lemma canon_loop_notes (P : list string) :
  forall (raws : list (RawFrame F)) idx last lb lo frames,
    canon_loop P idx raws last lb lo = Ok frames ->
    forall i rf fr,
      nth_error raws i = Some rf -> nth_error frames i = Some fr ->
      note fr = rf_note rf.
Proof.
  induction raws as [|rf0 raws IH]; intros idx last lb lo frames E; simpl in E.
  - inversion E; subst. intros [|i] rf fr H0; discriminate.
  - bind_ok E as [pl last'] Efill. bind_ok E as [bpos bowner] Eball.
    bind_ok E as frames' Eloop. inversion E; subst; clear E.
    intros [|i] rf fr Hrf Hfr; simpl in Hrf, Hfr.
    + inversion Hrf; inversion Hfr; subst. reflexivity.
    + exact (IH _ _ _ _ _ Eloop i rf fr Hrf Hfr).
Qed.

(** X1.  Canonical frames hold exactly the players of frame 0: when the raw
    frames canonicalise to [frames] with player set [P] (the keys of a dict,
    so without repetition), there is one canonical frame per raw frame, and
    the [i]-th one has index [i], the note of raw frame [i], and as the keys
    of its [players] dict exactly [P], in the order of [P]: a player that
    shows up only after frame 0 is dropped from every frame. *)
Theorem canonical_frames_have_exactly_P (raw_frames : list (RawFrame F))
    (frames : list (Frame F)) (P : list string) :
  NoDup P ->
  canonicalize_frames raw_frames = Ok (frames, P) ->
  P = frame0_players raw_frames
  /\ List.length frames = List.length raw_frames
  /\ forall i rf fr,
       nth_error raw_frames i = Some rf -> nth_error frames i = Some fr ->
       frame_idx fr = i
       /\ note fr = rf_note rf
       /\ dkeys (players fr) = P
       /\ forall pid, ~ In pid P -> dget pid (players fr) = None.
Proof.
  intros HP E. unfold canonicalize_frames in E.
  destruct raw_frames as [|frame0 rest]; [discriminate|].
  bind_ok E as frames' Eloop. inversion E; subst; clear E.
  split; [reflexivity|]. split; [apply canon_loop_spec in Eloop; tauto|].
  intros i rf fr Hrf Hfr.
  destruct (canon_loop_frames _ HP _ _ _ _ _ _ Eloop i fr Hfr) as [Hi Hk].
  split; [exact Hi|]. split.
  { exact (canon_loop_notes _ _ _ _ _ _ _ Eloop i rf fr Hrf Hfr). }
  split; [exact Hk|].
  intros pid Hn. apply dget_None_keys. now rewrite Hk.
Qed.

(** X2.  The ball is carried forward together with its owner: in a
    canonical frame [i + 1] whose raw frame gives both ball coordinates, the
    ball position and the owner are the raw frame's; when a coordinate is
    missing, position and owner are both those of canonical frame [i], and
    the raw frame's own [owner_id] is ignored. *)
Theorem ball_carried_with_owner (raw_frames : list (RawFrame F))
    (frames : list (Frame F)) (P : list string) :
  canonicalize_frames raw_frames = Ok (frames, P) ->
  (forall rf fr,
     nth_error raw_frames 0 = Some rf -> nth_error frames 0 = Some fr ->
     exists bx by_,
       ball_x (ball rf) = Some bx /\ ball_y (ball rf) = Some by_
       /\ ball_pos fr = (bx, by_) /\ ball_owner_id fr = owner_id (ball rf))
  /\ forall i rf fr fr_prev,
      nth_error raw_frames (S i) = Some rf ->
      nth_error frames (S i) = Some fr ->
      nth_error frames i = Some fr_prev ->
      if ball_missing rf
      then ball_pos fr = ball_pos fr_prev
           /\ ball_owner_id fr = ball_owner_id fr_prev
      else exists bx by_,
          ball_x (ball rf) = Some bx /\ ball_y (ball rf) = Some by_
          /\ ball_pos fr = (bx, by_) /\ ball_owner_id fr = owner_id (ball rf).
Proof.
  intros E. unfold canonicalize_frames in E.
  destruct raw_frames as [|frame0 rest]; [discriminate|].
  bind_ok E as frames' Eloop. inversion E; subst; clear E.
  apply canon_loop_ball in Eloop as [Hfirst Hnext]. split.
  - intros rf fr Hrf Hfr. specialize (Hfirst rf fr Hrf Hfr).
    destruct (ball_x (ball rf)) as [bx|], (ball_y (ball rf)) as [by_|];
      try (destruct Hfirst; discriminate).
    exists bx, by_. tauto.
  - intros i rf fr fr_prev Hrf Hfr Hprev.
    specialize (Hnext i rf fr fr_prev Hrf Hfr Hprev). unfold ball_missing.
    destruct (ball_x (ball rf)) as [bx|], (ball_y (ball rf)) as [by_|];
      try assumption.
    exists bx, by_. tauto.
Qed.

End CanonExtra.


(* ================================================================== *)
(** * Further properties of the time base *)
(* ================================================================== *)

Section TimebaseExtra.

Lemma pymax_lower (a b : float) : not_nan a -> (a <=? pymax a b)%float = true.
Proof.
  intros Ha. unfold pymax. destruct (a <? b)%float eqn:E.
  - now apply float_ltb_leb.
  - exact Ha.
Qed.

Lemma pseudotime_loop_steps cfg :
  not_nan (min_dt cfg) ->
  forall (rest : list (Frame float)) prev t dts ts,
    pseudotime_loop cfg prev t rest = Ok (dts, ts) ->
    List.length dts = List.length rest
    /\ List.length ts = List.length rest
    /\ forall i d t_prev,
         nth_error dts i = Some d -> nth_error (t :: ts) i = Some t_prev ->
         (min_dt cfg <=? d)%float = true
         /\ nth_error ts i = Some (t_prev + d)%float.
Proof.
  intros Hmin. induction rest as [|cur more IH]; intros prev t dts ts E;
    simpl in E.
  - inversion E; subst. split; [reflexivity|]. split; [reflexivity|].
    intros [|i] d0 tp H; discriminate.
  - bind_ok E as dmax Ed. bind_ok E as [dts' ts'] El.
    inversion E; subst; clear E.
    apply IH in El as (Hd & Ht & Hstep).
    split; [simpl; congruence|]. split; [simpl; congruence|].
    intros [|i] d tp Hdi Hti; simpl in Hdi, Hti.
    + inversion Hdi; inversion Hti; subst. split; [|reflexivity].
      now apply pymax_lower.
    + exact (Hstep i d tp Hdi Hti).
Qed.

(** X3.  Pseudo-time: when [infer_pseudotime] returns [(dt, t_rel)], both
    lists have one entry per frame and start with [0.0]; every later
    [dt[i]] is at least [min_dt] (for a [min_dt] that is a number), however
    little the players moved, and [t_rel[i]] is [t_rel[i - 1] + dt[i]]. *)
Theorem pseudotime_steps_at_least_min_dt cfg (frames : list (Frame float))
    dt t_rel :
  not_nan (min_dt cfg) ->
  infer_pseudotime frames cfg = Ok (dt, t_rel) ->
  List.length dt = List.length frames
  /\ List.length t_rel = List.length frames
  /\ nth_error dt 0 = Some 0%float
  /\ nth_error t_rel 0 = Some 0%float
  /\ forall i d t_prev,
       nth_error dt (S i) = Some d -> nth_error t_rel i = Some t_prev ->
       (min_dt cfg <=? d)%float = true
       /\ nth_error t_rel (S i) = Some (t_prev + d)%float.
Proof.
  intros Hmin E. unfold infer_pseudotime in E.
  destruct frames as [|f0 rest]; [discriminate|].
  bind_ok E as [dts ts] El. inversion E; subst; clear E.
  apply (pseudotime_loop_steps cfg Hmin) in El as (Hd & Ht & Hstep).
  split; [simpl; congruence|]. split; [simpl; congruence|].
  split; [reflexivity|]. split; [reflexivity|].
  intros i d tp Hdi Hti. exact (Hstep i d tp Hdi Hti).
Qed.

Lemma frame_velocities_keys (prev cur : Frame float) denom :
  forall items v0 v_i,
    foldM (fun v_i '(pid, (x, y)) =>
             '(x0, y0) <- lookup pid (players prev) ;;
             Ok (dset pid ((x - x0) / denom, (y - y0) / denom)%float v_i))
          v0 items = Ok v_i ->
    forall pid, In pid (dkeys v_i) <-> In pid (dkeys v0) \/ In pid (dkeys items).
Proof.
  induction items as [|[pid0 [x y]] items IH]; intros v0 v_i E pid; simpl in E.
  - inversion E; subst. simpl. tauto.
  - bind_ok E as v1 E1. bind_ok E1 as [x0 y0] El. inversion E1; subst; clear E1.
    rewrite (IH _ _ E pid), In_dkeys_dset. simpl. intuition congruence.
Qed.

Lemma velocities_loop_entries (dt : list float) :
  forall (rest : list (Frame float)) i prev v v',
    velocities_loop i prev rest dt v = Ok v' ->
    (forall j, j < i -> dget j v' = dget j v)
    /\ (forall j, i + List.length rest <= j -> dget j v' = dget j v)
    /\ forall k fr,
         nth_error rest k = Some fr ->
         exists v_j,
           dget (i + k) v' = Some v_j
           /\ forall pid, In pid (dkeys v_j) <-> In pid (dkeys (players fr)).
Proof.
  induction rest as [|cur more IH]; intros i prev v v' E; simpl in E.
  - inversion E; subst. repeat split; auto. intros [|k] fr H; discriminate.
  - bind_ok E as dt_i Ei. bind_ok E as v_i Ev.
    apply IH in E as (Hlow & Hhigh & Hin).
    split; [|split].
    + intros j Hj. rewrite Hlow by lia. apply dget_dset_neq. lia.
    + intros j Hj. simpl in Hj. rewrite Hhigh by lia. apply dget_dset_neq. lia.
    + intros [|k] fr Hk; simpl in Hk.
      * inversion Hk; subst fr. exists v_i. split.
        -- rewrite Nat.add_0_r, Hlow by lia. apply dget_dset_eq.
        -- intros pid. unfold frame_velocities in Ev.
           rewrite (frame_velocities_keys prev cur _ _ _ _ Ev pid). simpl.
           tauto.
      * destruct (Hin k fr Hk) as (v_j & Hg & Hkeys). exists v_j.
        split; [|assumption]. now rewrite <- Nat.add_succ_comm.
Qed.

(** X4.  Velocities: [compute_velocities] raises a [ValueError] when
    [frames] and [dt] differ in length; when it returns, the result has one
    entry per frame index and no other, the entry of frame [j] has a
    velocity for exactly the players of frame [j], and every velocity of
    frame 0 is [(0.0, 0.0)]. *)
Theorem velocities_cover_frames_and_players (frames : list (Frame float))
    (dt : list float) :
  (List.length frames <> List.length dt ->
   compute_velocities frames dt
   = Raise (ValueError "frames and dt must have same length."))
  /\ forall v,
      compute_velocities frames dt = Ok v ->
      List.length frames = List.length dt
      /\ (forall j, List.length frames <= j -> dget j v = None)
      /\ (forall j fr,
            nth_error frames j = Some fr ->
            exists v_j,
              dget j v = Some v_j
              /\ (forall pid,
                    In pid (dkeys v_j) <-> In pid (dkeys (players fr)))
              /\ (j = 0 ->
                  forall pid, In pid (dkeys v_j) ->
                    dget pid v_j = Some (0, 0)%float)).
Proof.
  unfold compute_velocities. split.
  - intros Hne. apply Nat.eqb_neq in Hne. now rewrite Hne.
  - intros v E. destruct (Nat.eqb_spec (List.length frames) (List.length dt))
      as [Hlen|Hne]; [|discriminate].
    simpl in E. destruct frames as [|f0 rest]; [discriminate|].
    apply velocities_loop_entries in E as (Hlow & Hhigh & Hin).
    set (v0 := fold_left (fun d pid => dset pid (0, 0)%float d)
                 (dkeys (players f0)) ([] : dict string (Vec2 float))) in *.
    assert (H0 : dget 0 v = Some v0).
    { rewrite Hlow by lia. reflexivity. }
    split; [assumption|]. split; [|].
    + intros j Hj. simpl in Hj. rewrite Hhigh by (simpl; lia).
      simpl. destruct j; [lia | reflexivity].
    + intros [|j] fr Hj; simpl in Hj.
      * inversion Hj; subst fr. exists v0. split; [assumption|]. split.
        -- intros pid. unfold v0. rewrite In_dkeys_fold_dset. simpl. tauto.
        -- intros _ pid Hpid. unfold v0 in *.
           apply In_dkeys_fold_dset in Hpid as [[]|Hpid].
           rewrite dget_fold_dset.
           destruct (in_dec keqb_dec pid (dkeys (players f0))); tauto.
      * destruct (Hin j fr Hj) as (v_j & Hg & Hkeys). exists v_j.
        split; [assumption|]. split; [assumption|]. discriminate.
Qed.

End TimebaseExtra.


(* ================================================================== *)
(** * Further properties of the proximity graph *)
(* ================================================================== *)

Section GraphExtra.

Lemma In_enumerate_from {A} (l : list A) :
  forall s i (a : A),
    In (i, a) (combine (seq s (List.length l)) l)
    <-> s <= i /\ nth_error l (i - s) = Some a.
Proof.
  induction l as [|x l IH]; intros s i a; simpl.
  - split; [tauto|]. intros [_ H]. destruct (i - s); discriminate.
  - rewrite IH. split.
    + intros [Heq|[Hle Hn]].
      * inversion Heq; subst. rewrite Nat.sub_diag. split; [lia | reflexivity].
      * split; [lia|]. replace (i - s) with (S (i - S s)) by lia. exact Hn.
    + intros [Hle Hn]. destruct (Nat.eq_dec i s) as [->|Hne].
      * rewrite Nat.sub_diag in Hn. simpl in Hn. inversion Hn. now left.
      * right. split; [lia|].
        replace (i - s) with (S (i - S s)) in Hn by lia. exact Hn.
Qed.

Lemma In_enumerate_iff {A} (l : list A) (i : nat) (a : A) :
  In (i, a) (enumerate l) <-> nth_error l i = Some a.
Proof.
  unfold enumerate. rewrite In_enumerate_from, Nat.sub_0_r.
  split; [tauto | split; [lia | assumption]].
Qed.

Lemma nth_error_key_inj {V} (items : dict string V) a b pa va pb vb :
  NoDup (dkeys items) ->
  nth_error items a = Some (pa, va) -> nth_error items b = Some (pb, vb) ->
  (a = b <-> pa = pb).
Proof.
  intros Hnd Ha Hb. split.
  - intros ->. congruence.
  - intros ->. apply (proj1 (NoDup_nth_error (dkeys items)) Hnd).
    + apply nth_error_Some. unfold dkeys. rewrite nth_error_map, Ha.
      discriminate.
    + unfold dkeys. now rewrite !nth_error_map, Ha, Hb.
Qed.

(** The proximity edges are exactly the edges between two different
    players that are close enough. *)
Lemma In_proximity_edges cfg player_team (items : dict string (Vec2 float)) e :
  NoDup (dkeys items) ->
  (In e (proximity_edges cfg player_team items)
   <-> exists pa posa pb posb,
         In (pa, posa) items /\ In (pb, posb) items /\ pa <> pb
         /\ proximity_edge cfg player_team pa posa pb posb = Some e).
Proof.
  intros Hnd. unfold proximity_edges. rewrite in_flat_map. split.
  - intros ([a [pa posa]] & Ha & He).
    apply in_flat_map in He as ([b [pb posb]] & Hb & He).
    apply In_enumerate_iff in Ha, Hb.
    destruct (Nat.eqb_spec a b) as [Hab|Hab]; [destruct He|].
    exists pa, posa, pb, posb.
    split; [eapply nth_error_In; eassumption|].
    split; [eapply nth_error_In; eassumption|].
    split.
    { intros Heq. apply Hab.
      now apply (nth_error_key_inj items a b pa posa pb posb Hnd Ha Hb). }
    unfold proximity_edge, team_of.
    destruct (String.eqb _ _);
      match type of He with
      | In _ (if ?c then _ else _) => destruct c
      end; try destruct He as [<-|[]]; try destruct He; reflexivity.
  - intros (pa & posa & pb & posb & Ha & Hb & Hne & He).
    apply In_nth_error in Ha as (a & Ha). apply In_nth_error in Hb as (b & Hb).
    exists (a, (pa, posa)). split; [now apply In_enumerate_iff|].
    apply in_flat_map. exists (b, (pb, posb)).
    split; [now apply In_enumerate_iff|].
    destruct (Nat.eqb_spec a b) as [Hab|Hab].
    { exfalso. apply Hne.
      now apply (nth_error_key_inj items a b pa posa pb posb Hnd Ha Hb). }
    unfold proximity_edge, team_of in He.
    destruct (String.eqb _ _);
      match type of He with
      | (if ?c then _ else _) = _ => destruct c
      end; inversion He; subst; now left.
Qed.

Lemma nodes_loop_keys (i : nat) v_by_frame player_team player_role :
  forall (items : list (string * Vec2 float)) nodes0 nodes,
    foldM (fun nodes '(pid, p) =>
             let team := dget_default pid "A" player_team in
             let role := dget_default pid "" player_role in
             v_i <- lookup_idx i v_by_frame ;;
             vel <- lookup pid v_i ;;
             Ok (dset pid (mkGraphNode pid team role p vel) nodes))
          nodes0 items = Ok nodes ->
    NoDup (dkeys nodes0 ++ dkeys items) ->
    dkeys nodes = dkeys nodes0 ++ dkeys items.
Proof.
  induction items as [|[pid0 p0] items IH]; intros nodes0 nodes E Hnd;
    simpl in E.
  - inversion E; subst. simpl. now rewrite app_nil_r.
  - bind_ok E as nodes1 E1. bind_ok E1 as v_i Ev. bind_ok E1 as vel Evel.
    inversion E1; subst; clear E1.
    assert (Hni : ~ In pid0 (dkeys nodes0)).
    { simpl in Hnd. apply NoDup_remove_2 in Hnd. intros Hin. apply Hnd.
      apply in_or_app. now left. }
    rewrite (IH _ _ E); rewrite dkeys_dset_notin by assumption;
      rewrite <- app_assoc; [reflexivity | exact Hnd].
Qed.

Lemma nodes_loop_entries (i : nat) v_by_frame player_team player_role :
  forall (items : list (string * Vec2 float)) nodes0 nodes,
    foldM (fun nodes '(pid, p) =>
             let team := dget_default pid "A" player_team in
             let role := dget_default pid "" player_role in
             v_i <- lookup_idx i v_by_frame ;;
             vel <- lookup pid v_i ;;
             Ok (dset pid (mkGraphNode pid team role p vel) nodes))
          nodes0 items = Ok nodes ->
    forall pid n,
      dget pid nodes = Some n ->
      dget pid nodes0 = Some n
      \/ (In (pid, node_pos n) items
          /\ node_id n = pid
          /\ node_team n = team_of player_team pid
          /\ node_role n = dget_default pid "" player_role
          /\ exists v_i,
               dget i v_by_frame = Some v_i
               /\ dget pid v_i = Some (node_vel n)).
Proof.
  induction items as [|[pid0 p0] items IH]; intros nodes0 nodes E pid n Hg;
    simpl in E.
  - inversion E; subst. now left.
  - bind_ok E as nodes1 E1. bind_ok E1 as v_i Ev. bind_ok E1 as vel Evel.
    inversion E1; subst; clear E1.
    destruct (IH _ _ E pid n Hg) as [H0 | (Hin & Hrest)].
    + rewrite dget_dset in H0. destruct (keqb pid pid0) eqn:Ek.
      * apply keqb_eq in Ek. subst pid0. inversion H0; subst n; clear H0.
        right. simpl. split; [now left|]. repeat split.
        exists v_i. unfold lookup_idx in Ev. unfold lookup in Evel.
        destruct (dget i v_by_frame); [|discriminate].
        inversion Ev; subst. destruct (dget pid v_i); [|discriminate].
        inversion Evel; subst. auto.
      * now left.
    + right. split; [now right | exact Hrest].
Qed.

(** X5.  Nodes of a frame graph: when [build_frame_graph] returns the graph
    of a frame (whose players are the keys of a dict), the graph has the
    frame's index and ball position and the pseudo-time of that index, one
    node per player in the frame's order, and the node of a player has the
    player's id and position in the frame, the team and role of the tables
    (team A and the empty role for a player the tables do not list) and the
    velocity stored for that frame and player. *)
Theorem graph_nodes_are_the_frame_players t_rel_list v_by_frame player_team
    player_role cfg (fr : Frame float) g :
  NoDup (dkeys (players fr)) ->
  build_frame_graph t_rel_list v_by_frame player_team player_role cfg fr
  = Ok g ->
  graph_frame_idx g = frame_idx fr
  /\ graph_ball_pos g = ball_pos fr
  /\ nth_error t_rel_list (frame_idx fr) = Some (graph_t_rel g)
  /\ dkeys (nodes g) = dkeys (players fr)
  /\ forall pid n,
       dget pid (nodes g) = Some n ->
       node_id n = pid
       /\ dget pid (players fr) = Some (node_pos n)
       /\ node_team n = team_of player_team pid
       /\ node_role n = dget_default pid "" player_role
       /\ exists v_i,
            dget (frame_idx fr) v_by_frame = Some v_i
            /\ dget pid v_i = Some (node_vel n).
Proof.
  intros Hnd E. unfold build_frame_graph in E. cbv zeta in E.
  bind_ok E as nodes En. bind_ok E as t Et. inversion E; subst; clear E.
  simpl. split; [reflexivity|]. split; [reflexivity|].
  split; [now apply index_Ok in Et|]. split.
  - now apply (nodes_loop_keys _ _ _ _ _ _ _ En).
  - intros pid n Hg.
    destruct (nodes_loop_entries _ _ _ _ _ _ _ En pid n Hg)
      as [H0 | (Hin & Hid & Hteam & Hrole & Hvel)]; [discriminate|].
    split; [assumption|]. split; [now apply In_dget|]. tauto.
Qed.

Lemma NoDup_flat_map {A B} (f : A -> list B) (l : list A) :
  NoDup l ->
  (forall a, In a l -> NoDup (f a)) ->
  (forall a a' b, In a l -> In a' l -> In b (f a) -> In b (f a') -> a = a') ->
  NoDup (flat_map f l).
Proof.
  induction l as [|a l IH]; intros Hnd Hf Hinj; simpl; [constructor|].
  inversion Hnd as [|? ? Hni Hnd']; subst.
  apply NoDup_app.
  - apply Hf. now left.
  - apply IH; [assumption | |].
    + intros a0 H0. apply Hf. now right.
    + intros a0 a' b H0 H'. apply Hinj; now right.
  - intros b Hb Hin. apply in_flat_map in Hin as (a' & Ha' & Hb').
    assert (a = a') by (apply (Hinj a a' b); auto; [now left | now right]).
    subst a'. contradiction.
Qed.

Lemma NoDup_enumerate {A} (l : list A) : NoDup (enumerate l).
Proof.
  apply (NoDup_map_inv fst). unfold enumerate.
  assert (H : forall s, map fst (combine (seq s (List.length l)) l)
                        = seq s (List.length l)).
  { induction l as [|x l IH]; intros s; simpl; [reflexivity|].
    now rewrite IH. }
  rewrite H. apply seq_NoDup.
Qed.

(** Every ordered pair of different players gives at most one proximity
    edge, and different pairs give different edges. *)
Lemma NoDup_proximity_edges cfg player_team (items : dict string (Vec2 float)) :
  NoDup (dkeys items) ->
  NoDup (proximity_edges cfg player_team items).
Proof.
  intros Hnd. unfold proximity_edges.
  assert (Hsrc : forall a pa posa e,
            In e (flat_map (fun '(b, (pb, posb)) =>
                    if (a =? b)%nat then []
                    else
                      let tb := dget_default pb "A" player_team in
                      let d := dist posa posb in
                      if String.eqb (dget_default pa "A" player_team) tb then
                        if PrimFloat.leb d (teammate_radius cfg)
                        then [mkGraphEdge pa pb TEAM_NEAR [("d", d)]]
                        else []
                      else
                        if PrimFloat.leb d (opponent_radius cfg)
                        then [mkGraphEdge pa pb OPP_NEAR [("d", d)]]
                        else [])
                  (enumerate items)) ->
            src e = pa
            /\ exists b posb, nth_error items b = Some (dst e, posb)).
  { intros a pa posa e He.
    apply in_flat_map in He as ([b [pb posb]] & Hb & He).
    apply In_enumerate_iff in Hb.
    destruct (a =? b)%nat; [destruct He|]. cbv zeta in He.
    destruct (String.eqb _ _);
      match type of He with
      | In _ (if ?c then _ else _) => destruct c
      end; try destruct He as [<-|[]]; try destruct He;
      (split; [reflexivity | exists b, posb; exact Hb]). }
  apply NoDup_flat_map.
  - apply NoDup_enumerate.
  - intros [a [pa posa]] Ha. apply NoDup_flat_map.
    + apply NoDup_enumerate.
    + intros [b [pb posb]] _. destruct (a =? b)%nat; [constructor|].
      cbv zeta. destruct (String.eqb _ _);
        match goal with
        | |- NoDup (if ?c then _ else _) => destruct c
        end; repeat constructor; simpl; tauto.
    + intros [b [pb posb]] [b' [pb' posb']] e Hb Hb' He He'.
      apply In_enumerate_iff in Hb, Hb'.
      assert (Hd : dst e = pb /\ dst e = pb').
      { destruct (a =? b)%nat; [destruct He|].
        destruct (a =? b')%nat; [destruct He'|]. cbv zeta in He, He'.
        split.
        - destruct (String.eqb _ _);
            match type of He with
            | In _ (if ?c then _ else _) => destruct c
            end; try destruct He as [<-|[]]; try destruct He; reflexivity.
        - destruct (String.eqb _ (dget_default pb' _ _));
            match type of He' with
            | In _ (if ?c then _ else _) => destruct c
            end; try destruct He' as [<-|[]]; try destruct He'; reflexivity. }
      destruct Hd as [H1 H2].
      assert (Hbb : b = b').
      { apply (nth_error_key_inj items b b' pb posb pb' posb' Hnd Hb Hb').
        congruence. }
      subst b'. congruence.
  - intros [a [pa posa]] [a' [pa' posa']] e Ha Ha' He He'.
    apply In_enumerate_iff in Ha, Ha'.
    destruct (Hsrc _ _ _ _ He) as [H1 _].
    destruct (Hsrc _ _ _ _ He') as [H2 _].
    assert (Haa : a = a').
    { apply (nth_error_key_inj items a a' pa posa pa' posa' Hnd Ha Ha').
      congruence. }
    subst a'. congruence.
Qed.

(** X6.  Edges of a frame graph: the proximity edges are exactly one edge
    from [pa] to [pb] for every ordered pair of different players of the
    frame that are teammates at distance at most [teammate_radius]
    (TEAM_NEAR) or opponents at distance at most [opponent_radius]
    (OPP_NEAR), carrying the distance as feature [d]; they are followed by
    one BALL_LINK edge per player, in the frame's order, from the player to
    itself.  No proximity edge occurs twice, none joins a player to itself,
    and its type tells whether the two are of one team. *)
Theorem graph_edges_are_the_close_pairs t_rel_list v_by_frame player_team
    player_role cfg (fr : Frame float) g :
  NoDup (dkeys (players fr)) ->
  build_frame_graph t_rel_list v_by_frame player_team player_role cfg fr
  = Ok g ->
  exists prox,
    edges g = prox ++ ball_link_edges fr
    /\ NoDup prox
    /\ (forall e,
          In e prox
          <-> exists pa posa pb posb,
                In (pa, posa) (players fr) /\ In (pb, posb) (players fr)
                /\ pa <> pb
                /\ proximity_edge cfg player_team pa posa pb posb = Some e)
    /\ map src (ball_link_edges fr) = dkeys (players fr)
    /\ Forall (fun e => etype e = BALL_LINK /\ dst e = src e)
         (ball_link_edges fr).
Proof.
  intros Hnd E. unfold build_frame_graph in E. cbv zeta in E.
  bind_ok E as nodes En. bind_ok E as t Et. inversion E; subst; clear E.
  exists (proximity_edges cfg player_team (players fr)). simpl.
  split; [reflexivity|]. split; [now apply NoDup_proximity_edges|]. split.
  - intros e. now apply In_proximity_edges.
  - unfold ball_link_edges. destruct (ball_pos fr) as [bx by_]. split.
    + rewrite map_map. unfold dkeys. apply map_ext. now intros [pid p].
    + apply Forall_forall. intros e He.
      apply in_map_iff in He as ([pid p] & <- & _). now split.
Qed.

End GraphExtra.

Section SummaryExtra.

Lemma add_ones_succ_r (k : nat) (x : float) :
  add_ones (S k) x = add_ones k (PrimFloat.add x 1).
Proof. unfold add_ones. now rewrite Nat.iter_succ_r. Qed.

Lemma edges_from_cons (t : EdgeType) (pid : string) e es :
  edges_from t pid (e :: es)
  = if EdgeType_eqb (etype e) t && String.eqb (src e) pid
    then S (edges_from t pid es) else edges_from t pid es.
Proof. unfold edges_from. simpl. destruct (_ && _); reflexivity. Qed.

Lemma scan_edges_spec :
  forall (es : list GraphEdge) out s,
    foldM scan_edge out es = Ok s ->
    dkeys s = dkeys out
    /\ forall pid sm0,
         dget pid out = Some sm0 ->
         exists sm,
           dget pid s = Some sm
           /\ pressure_n sm = add_ones (edges_from OPP_NEAR pid es)
                                (pressure_n sm0)
           /\ support_n sm = add_ones (edges_from TEAM_NEAR pid es)
                               (support_n sm0)
           /\ (edges_from OPP_NEAR pid es = 0 -> min_opp_d sm = min_opp_d sm0)
           /\ (edges_from TEAM_NEAR pid es = 0 ->
               min_team_d sm = min_team_d sm0)
           /\ (edges_from BALL_LINK pid es = 0 -> ball_d sm = ball_d sm0).
Proof.
  induction es as [|e es IH]; intros out s E; simpl in E.
  - inversion E; subst. split; [reflexivity|]. intros pid sm0 Hg.
    exists sm0. repeat split; auto.
  - bind_ok E as out1 E1. destruct (IH _ _ E) as [Hk Hin].
    assert (Hstep : exists s0 s1,
               dget (src e) out = Some s0
               /\ out1 = dset (src e) s1 out
               /\ match etype e with
                  | OPP_NEAR =>
                      pressure_n s1 = PrimFloat.add (pressure_n s0) 1
                      /\ support_n s1 = support_n s0
                      /\ min_team_d s1 = min_team_d s0
                      /\ ball_d s1 = ball_d s0
                  | TEAM_NEAR =>
                      support_n s1 = PrimFloat.add (support_n s0) 1
                      /\ pressure_n s1 = pressure_n s0
                      /\ min_opp_d s1 = min_opp_d s0
                      /\ ball_d s1 = ball_d s0
                  | BALL_LINK =>
                      pressure_n s1 = pressure_n s0
                      /\ support_n s1 = support_n s0
                      /\ min_opp_d s1 = min_opp_d s0
                      /\ min_team_d s1 = min_team_d s0
                  end).
    { unfold scan_edge in E1.
      destruct (etype e); bind_ok E1 as d Ed; bind_ok E1 as s0 Es;
        apply lookup_Ok in Es; inversion E1; subst; clear E1;
        exists s0; eexists; (split; [exact Es|]); (split; [reflexivity|]);
        try match goal with
            | |- context [if ?c then _ else _] => destruct c
            end; simpl; auto. }
    destruct Hstep as (s0 & s1 & Hs0 & -> & Hs1). split.
    + rewrite Hk. apply dkeys_dset_in. apply dget_Some_keys. eauto.
    + intros pid sm0 Hg. rewrite !edges_from_cons.
      destruct (String.eqb_spec (src e) pid) as [Heq|Hne].
      * subst pid. assert (sm0 = s0) by congruence. subst sm0.
        destruct (Hin (src e) s1 (dget_dset_eq _ _ _))
          as (sm & Hsm & Hp & Hsu & Hmo & Hmt & Hb).
        exists sm. split; [assumption|].
        rewrite !andb_true_r.
        destruct (etype e); cbn [EdgeType_eqb]; rewrite ?add_ones_succ_r;
          destruct Hs1 as (H1 & H2 & H3 & H4);
          rewrite <- ?H1, <- ?H2, <- ?H3, <- ?H4;
          repeat split; try discriminate; assumption.
      * assert (Hg1 : dget pid (dset (src e) s1 out) = Some sm0).
        { rewrite dget_dset_neq by congruence. exact Hg. }
        destruct (Hin pid sm0 Hg1) as (sm & Hsm & Hrest).
        exists sm. split; [assumption|].
        rewrite !andb_false_r. exact Hrest.
Qed.

Lemma dget_fold_items {W V} (h : string -> W -> V) (items : dict string W) :
  NoDup (dkeys items) ->
  forall (d : dict string V) (k : string),
    (forall q, In q (dkeys items) -> ~ In q (dkeys d)) ->
    dkeys (fold_left (fun out '(pid, n) => dset pid (h pid n) out) items d)
    = dkeys d ++ dkeys items
    /\ dget k (fold_left (fun out '(pid, n) => dset pid (h pid n) out) items d)
       = match dget k items with
         | Some n => Some (h k n)
         | None => dget k d
         end.
Proof.
  induction items as [|[pid n] items IH]; intros Hnd d k Hdis; simpl.
  - now rewrite app_nil_r.
  - inversion Hnd as [|? ? Hni Hnd']; subst.
    assert (Hpd : ~ In pid (dkeys d)) by (apply Hdis; now left).
    destruct (IH Hnd' (dset pid (h pid n) d) k) as [Hk Hg].
    { intros q Hq Hin. apply In_dkeys_dset in Hin as [->|Hin].
      - contradiction.
      - apply (Hdis q); [now right | assumption]. }
    split.
    + rewrite Hk, dkeys_dset_notin by assumption. now rewrite <- app_assoc.
    + rewrite Hg. destruct (String.eqb_spec k pid) as [->|Hne].
      * destruct (dget pid items) eqn:Ei.
        { exfalso. apply Hni. apply dget_Some_keys. eauto. }
        apply dget_dset_eq.
      * destruct (dget k items); [reflexivity|].
        now apply dget_dset_neq.
Qed.

(** X7.  Summaries: when [summarize_pressure_support] returns, there is one
    summary per node of the graph, in the order of the nodes; for every
    player, [pressure_n] is [0.0] incremented once per OPP_NEAR edge that
    leaves the player and [support_n] once per TEAM_NEAR edge; a player that
    no OPP_NEAR (TEAM_NEAR) edge leaves has [min_opp_d] ([min_team_d]) equal
    to [inf]; and without a BALL_LINK edge [ball_d] is the distance from the
    node to the ball. *)
Theorem summaries_count_the_edges (g : FrameGraph) cfg s :
  NoDup (dkeys (nodes g)) ->
  summarize_pressure_support g cfg = Ok s ->
  dkeys s = dkeys (nodes g)
  /\ forall pid n,
       dget pid (nodes g) = Some n ->
       exists sm,
         dget pid s = Some sm
         /\ pressure_n sm = add_ones (edges_from OPP_NEAR pid (edges g)) 0
         /\ support_n sm = add_ones (edges_from TEAM_NEAR pid (edges g)) 0
         /\ (edges_from OPP_NEAR pid (edges g) = 0 -> min_opp_d sm = infinity)
         /\ (edges_from TEAM_NEAR pid (edges g) = 0 ->
             min_team_d sm = infinity)
         /\ (edges_from BALL_LINK pid (edges g) = 0 ->
             ball_d sm = dist (node_pos n) (graph_ball_pos g)).
Proof.
  intros Hnd E. unfold summarize_pressure_support in E.
  apply scan_edges_spec in E as [Hk Hin].
  pose proof (dget_fold_items
                (fun (_ : string) (n : GraphNode) =>
                   mkSummary 0 infinity 0 infinity
                     (dist (node_pos n) (graph_ball_pos g)))
                (nodes g) Hnd []) as H0.
  split.
  - rewrite Hk. destruct (H0 ""%string) as [Hk0 _]; [auto|]. exact Hk0.
  - intros pid n Hg. destruct (H0 pid) as [_ Hg0]; [auto|].
    rewrite Hg in Hg0. destruct (Hin pid _ Hg0) as (sm & Hsm & Hrest).
    exists sm. split; [assumption|]. exact Hrest.
Qed.

End SummaryExtra.


(* ================================================================== *)
(** * Further properties of candidate generation *)
(* ================================================================== *)

Section CandidatesExtra.

Lemma _nearest_opponent_is_opponent g pid player_team o d :
  _nearest_opponent g pid player_team = Ok (o, d) ->
  forall oid, o = Some oid ->
    In oid (dkeys (nodes g)) /\ oid <> pid
    /\ team_of player_team oid <> team_of player_team pid.
Proof.
  unfold _nearest_opponent. intros E. bind_ok E as node En.
  inversion E as [Efold]. clear E.
  match type of Efold with
  | fold_left ?f ?l ?s = _ =>
      pose proof (fold_left_invariant
                    (fun acc : option string * float =>
                       forall oid, fst acc = Some oid ->
                         In oid (dkeys l) /\ oid <> pid
                         /\ team_of player_team oid <> team_of player_team pid)
                    f l s) as Hinv
  end.
  rewrite Efold in Hinv. apply Hinv.
  - discriminate.
  - intros [bid bd] [oid n] Hacc Hitem. apply In_item_key in Hitem.
    destruct (String.eqb_spec oid pid) as [Heq|Hne]; [exact Hacc|].
    destruct (String.eqb_spec (dget_default oid "A" player_team)
                (dget_default pid "A" player_team)) as [Ht|Ht]; [exact Hacc|].
    match goal with
    | |- context [if ?c then _ else _] => destruct c
    end; [|exact Hacc].
    simpl. intros ? [= <-]. auto.
Qed.

Lemma _best_support_teammate_is_teammate g pid player_team cfg o d :
  _best_support_teammate g pid player_team cfg = Ok (o, d) ->
  forall mid, o = Some mid ->
    In mid (dkeys (nodes g)) /\ mid <> pid
    /\ team_of player_team mid = team_of player_team pid.
Proof.
  unfold _best_support_teammate. intros E. bind_ok E as node En.
  inversion E as [Efold]. clear E.
  match type of Efold with
  | fold_left ?f ?l ?s = _ =>
      pose proof (fold_left_invariant
                    (fun acc : option string * float =>
                       forall mid, fst acc = Some mid ->
                         In mid (dkeys l) /\ mid <> pid
                         /\ team_of player_team mid = team_of player_team pid)
                    f l s) as Hinv
  end.
  rewrite Efold in Hinv. apply Hinv.
  - discriminate.
  - intros [bid bd] [oid n] Hacc Hitem. apply In_item_key in Hitem.
    destruct (String.eqb_spec oid pid) as [Heq|Hne]; [exact Hacc|].
    destruct (String.eqb_spec (dget_default oid "A" player_team)
                (dget_default pid "A" player_team)) as [Ht|Ht];
      cbn [negb]; [|exact Hacc].
    cbv zeta.
    match goal with
    | |- forall _, fst (if ?c then _ else _) = _ -> _ => destruct c
    end; [|exact Hacc].
    simpl. intros ? [= <-]. auto.
Qed.

Lemma generate_candidates_spec fuel g pitch pid player_team cfg summaries cands :
  generate_candidates_for_player fuel g pitch pid player_team cfg summaries
  = Ok cands ->
  (dmem pid (nodes g) = false /\ cands = [])
  \/ (dmem pid (nodes g) = true
      /\ exists opp mate space,
           map ce_name cands
           = candidate_names (enable_ball_focus cfg) opp mate space
               (enable_goal_focus cfg)
           /\ (opp = true -> enable_marking_threats cfg = true)
           /\ (mate = true -> enable_pass_targets cfg = true)
           /\ (space = true -> enable_space_targets cfg = true)
           /\ Forall (target_as_named g pitch pid player_team cfg) cands).
Proof.
  unfold generate_candidates_for_player. intros E.
  destruct (dmem pid (nodes g)) eqn:Hm; cbn [negb] in E.
  2:{ left. inversion E. auto. }
  right. split; [reflexivity|].
  bind_ok E as node En. destruct (graph_ball_pos g) as [bx by_] eqn:Eb.
  bind_ok E as out1 E1. bind_ok E as out2 E2. bind_ok E as out3 E3.
  bind_ok E as out4 E4. inversion E; subst cands; clear E.
  (* ball *)
  assert (H1 : map ce_name out1
               = (if enable_ball_focus cfg then ["BALL_NEARBY"] else [])
               /\ Forall (target_as_named g pitch pid player_team cfg) out1).
  { destruct (enable_ball_focus cfg).
    - bind_ok E1 as s Es. inversion E1; subst. split; [reflexivity|].
      constructor; [|constructor]. unfold target_as_named. simpl.
      now rewrite Eb.
    - inversion E1; subst. split; [reflexivity | constructor]. }
  (* opponent *)
  assert (H2 : exists opp : bool,
             map ce_name out2 = (if opp then ["OPP_PRESSURE"] else [])
             /\ (opp = true -> enable_marking_threats cfg = true)
             /\ Forall (target_as_named g pitch pid player_team cfg) out2).
  { destruct (enable_marking_threats cfg).
    - bind_ok E2 as [o d] Eo. destruct o as [oid|].
      + bind_ok E2 as on Eon. bind_ok E2 as s Es. inversion E2; subst.
        exists true. split; [reflexivity|]. split; [auto|].
        repeat constructor. unfold target_as_named. simpl.
        destruct (_nearest_opponent_is_opponent _ _ _ _ _ Eo oid eq_refl)
          as (_ & Hne & Ht).
        exists oid, on. apply lookup_Ok in Eon. auto.
      + inversion E2; subst. exists false.
        split; [reflexivity|]. split; [discriminate | constructor].
    - inversion E2; subst. exists false.
      split; [reflexivity|]. split; [discriminate | constructor]. }
  (* teammate *)
  assert (H3 : exists mate : bool,
             map ce_name out3 = (if mate then ["TEAM_SUPPORT"] else [])
             /\ (mate = true -> enable_pass_targets cfg = true)
             /\ Forall (target_as_named g pitch pid player_team cfg) out3).
  { destruct (enable_pass_targets cfg).
    - bind_ok E3 as [o d] Eo. destruct o as [mid|].
      + bind_ok E3 as mn Emn. bind_ok E3 as s Es. inversion E3; subst.
        exists true. split; [reflexivity|]. split; [auto|].
        repeat constructor. unfold target_as_named. simpl.
        destruct (_best_support_teammate_is_teammate _ _ _ _ _ _ Eo mid
                    eq_refl) as (_ & Hne & Ht).
        exists mid, mn. apply lookup_Ok in Emn. auto.
      + inversion E3; subst. exists false.
        split; [reflexivity|]. split; [discriminate | constructor].
    - inversion E3; subst. exists false.
      split; [reflexivity|]. split; [discriminate | constructor]. }
  (* space *)
  assert (H4 : exists space : bool,
             map ce_name out4 = (if space then ["OPEN_SPACE"] else [])
             /\ (space = true -> enable_space_targets cfg = true)
             /\ Forall (target_as_named g pitch pid player_team cfg) out4).
  { destruct (enable_space_targets cfg).
    - bind_ok E4 as [a v] Ea. destruct a as [a|].
      + inversion E4; subst. exists true.
        split; [reflexivity|]. split; [auto|].
        repeat constructor. unfold target_as_named. simpl. eauto.
      + inversion E4; subst. exists false.
        split; [reflexivity|]. split; [discriminate | constructor].
    - inversion E4; subst. exists false.
      split; [reflexivity|]. split; [discriminate | constructor]. }
  destruct H1 as [N1 F1]. destruct H2 as (opp & N2 & C2 & F2).
  destruct H3 as (mate & N3 & C3 & F3). destruct H4 as (space & N4 & C4 & F4).
  exists opp, mate, space. unfold candidate_names.
  rewrite !map_app, N1, N2, N3, N4.
  split.
  { do 4 f_equal. destruct (enable_goal_focus cfg); reflexivity. }
  split; [assumption|]. split; [assumption|]. split; [assumption|].
  repeat (apply Forall_app; split; [assumption|]).
  destruct (enable_goal_focus cfg); repeat constructor.
Qed.

(** X8.  Candidates of one player at one frame: a player that is not a
    node of the graph has none; otherwise each generator gives at most one
    candidate, in the fixed order BALL_NEARBY, OPP_PRESSURE, TEAM_SUPPORT,
    OPEN_SPACE, GOAL (so at most five, with different names); BALL_NEARBY
    and GOAL are there exactly when their generator is enabled, and a
    disabled generator gives nothing. *)
Theorem candidates_are_one_per_generator fuel g pitch pid player_team cfg
    summaries cands :
  generate_candidates_for_player fuel g pitch pid player_team cfg summaries
  = Ok cands ->
  (dmem pid (nodes g) = false -> cands = [])
  /\ (dmem pid (nodes g) = true ->
      exists opp mate space,
        map ce_name cands
        = candidate_names (enable_ball_focus cfg) opp mate space
            (enable_goal_focus cfg)
        /\ (opp = true -> enable_marking_threats cfg = true)
        /\ (mate = true -> enable_pass_targets cfg = true)
        /\ (space = true -> enable_space_targets cfg = true)).
Proof.
  intros E.
  destruct (generate_candidates_spec _ _ _ _ _ _ _ _ E)
    as [[Hm ->] | (Hm & opp & mate & space & Hn & H2 & H3 & H4 & _)].
  - split; [reflexivity | congruence].
  - split; [congruence|]. intros _. exists opp, mate, space. auto.
Qed.

(** X9.  Focus targets of the candidates: BALL_NEARBY looks at the ball
    position of the graph and GOAL at the centre of the attacked goal;
    OPP_PRESSURE targets a player of the graph other than the player itself
    and of another team, TEAM_SUPPORT one other than the player itself and
    of the same team, each anchored at the position of that player's node;
    OPEN_SPACE is a zone with no target player.  The generators never point
    a player at itself, never mark a teammate and never pass to an
    opponent. *)
Theorem candidate_targets_match_their_names fuel g pitch pid player_team cfg
    summaries cands :
  generate_candidates_for_player fuel g pitch pid player_team cfg summaries
  = Ok cands ->
  Forall (target_as_named g pitch pid player_team cfg) cands.
Proof.
  intros E.
  destruct (generate_candidates_spec _ _ _ _ _ _ _ _ E)
    as [[Hm ->] | (Hm & opp & mate & space & _ & _ & _ & _ & HF)].
  - constructor.
  - exact HF.
Qed.

End CandidatesExtra.

Section OpenSpaceExtra.
Open Scope float_scope.

Lemma float_ltb_not_nan (a b : float) :
  (a <? b) = true -> not_nan a /\ not_nan b.
Proof.
  unfold not_nan. rewrite ltb_spec, !leb_spec. unfold SFltb, SFleb.
  intros H.
  assert (Ha : Prim2SF a <> S754_nan).
  { intros Hn. rewrite Hn in H. discriminate. }
  assert (Hb : Prim2SF b <> S754_nan).
  { intros Hn. rewrite Hn in H. destruct (Prim2SF a); discriminate. }
  now rewrite !SFcompare_refl.
Qed.

Lemma float_ltb_trans (a b c : float) :
  (a <? b) = true -> (b <? c) = true -> (a <? c) = true.
Proof.
  intros Hab Hbc.
  destruct (float_ltb_not_nan a b Hab) as [Ha Hb].
  destruct (float_ltb_not_nan b c Hbc) as [_ Hc].
  rewrite float_ltb_key in * by assumption.
  destruct (sf_key (Prim2SF a)) as [[c1 e1] m1].
  destruct (sf_key (Prim2SF b)) as [[c2 e2] m2].
  destruct (sf_key (Prim2SF c)) as [[c3 e3] m3]. simpl in *. lia.
Qed.

Lemma grid_column_best g pitch pid player_team cfg pos x y1 :
  forall fuel y best best',
    grid_column fuel g pitch pid player_team cfg pos x y y1 best = Ok best' ->
    space_best_ok g pitch pid player_team cfg pos best ->
    space_best_ok g pitch pid player_team cfg pos best'.
Proof.
  induction fuel as [|fuel IH]; intros y best best' E Hb; simpl in E;
    [discriminate|].
  destruct (y <=? y1 + 1e-6); [|now inversion E; subst].
  destruct (anchor_clearance g pid player_team (x, y)
            <? min_space_clearance cfg) eqn:Hclear.
  - exact (IH _ _ _ E Hb).
  - unfold pydiv in E.
    destruct (pitch_length pitch =? 0) eqn:Hlen; [discriminate|].
    cbn [bind] in E. apply (IH _ _ _ E). clear E IH.
    match goal with
    | |- context [if snd best <? ?v then _ else _] =>
        destruct (snd best <? v) eqn:Hlt; [|exact Hb];
        assert (Hv : v = space_value g pitch pid player_team cfg pos (x, y))
          by reflexivity
    end.
    unfold space_best_ok. simpl. split; [assumption|]. split; [assumption|].
    split; [|assumption].
    unfold space_best_ok in Hb. destruct (fst best) as [a|].
    + destruct Hb as (_ & _ & Hlow & _).
      exact (float_ltb_trans _ _ _ Hlow Hlt).
    + rewrite Hb in Hlt. exact Hlt.
Qed.

Lemma grid_rows_best g pitch pid player_team cfg pos x1 y0 y1 :
  forall fuel x best best',
    grid_rows fuel g pitch pid player_team cfg pos x x1 y0 y1 best = Ok best' ->
    space_best_ok g pitch pid player_team cfg pos best ->
    space_best_ok g pitch pid player_team cfg pos best'.
Proof.
  induction fuel as [|fuel IH]; intros x best best' E Hb; [discriminate|].
  cbn [grid_rows] in E.
  destruct (x <=? x1 + 1e-6); [|now inversion E; subst].
  bind_ok E as best1 E1.
  apply (IH _ _ _ E). exact (grid_column_best _ _ _ _ _ _ _ _ _ _ _ _ E1 Hb).
Qed.

(** X10.  The open-space anchor: when the grid search returns no anchor
    its value is [-1e9]; when it returns the anchor [a] with value [v], the
    clearance of [a] (the distance to the nearest opponent of the player) is
    not below [min_space_clearance], [v] is the value of [a] computed from
    clearance, forward progress and distance to the player, [v] is above
    [-1e9], and the pitch length is not zero.  The generator never proposes
    a cramped anchor. *)
Theorem open_space_anchor_is_clear fuel g pitch pid player_team cfg oa v :
  _best_open_space_anchor fuel g pitch pid player_team cfg = Ok (oa, v) ->
  exists node,
    dget pid (nodes g) = Some node
    /\ space_best_ok g pitch pid player_team cfg (node_pos node) (oa, v).
Proof.
  unfold _best_open_space_anchor. intros E. bind_ok E as node En.
  exists node. split; [now apply lookup_Ok in En|].
  destruct (node_pos node) as [px py] eqn:Hpos.
  assert (H0 : space_best_ok g pitch pid player_team cfg (px, py)
                 (None, -1e9)) by reflexivity.
  destruct (attack_direction cfg >? 0)%Z;
    bind_ok E as [a bv] Eg;
    pose proof (grid_rows_best _ _ _ _ _ _ _ _ _ _ _ _ _ Eg H0) as Hb;
    destruct a as [a|]; inversion E; subst; try exact Hb; reflexivity.
Qed.

End OpenSpaceExtra.

(* ================================================================== *)
(** * The nearest opponent and the best supporting teammate *)
(* ================================================================== *)

Section NearestExtra.
Open Scope float_scope.

Lemma float_ltb_irrefl (a : float) : (a <? a) = false.
Proof.
  destruct (a <? a) eqn:E; [|reflexivity].
  destruct (float_ltb_not_nan a a E) as [Ha _].
  apply (float_ltb_key a a Ha Ha) in E.
  destruct (sf_key (Prim2SF a)) as [[c e] m]. simpl in E. lia.
Qed.

Lemma fold_left_prefix_invariant {A S} (I : list A -> S -> Prop)
    (f : S -> A -> S) (l : list A) (s : S) :
  I [] s ->
  (forall done s a, I done s -> I (done ++ [a]) (f s a)) ->
  I l (fold_left f l s).
Proof.
  intros H0 Hstep.
  assert (H : forall rest done s,
             I done s -> I (done ++ rest) (fold_left f rest s)).
  { induction rest as [|a rest IH]; intros done s0 Hs; simpl.
    - now rewrite app_nil_r.
    - specialize (IH (done ++ [a]) (f s0 a) (Hstep _ _ _ Hs)).
      now rewrite <- app_assoc in IH. }
  exact (H l [] s H0).
Qed.

(** X22.  The nearest opponent is nearest: when [_nearest_opponent]
    returns [(o, d)] for a player whose node is at [pos], no opponent node
    of the graph is strictly closer than [d]; if [o] names a player, that
    player is an opponent with a node at distance exactly [d]; if [o] is
    [None], [d] is [inf] (there is no opponent at a distance below
    [inf]). *)
Theorem nearest_opponent_is_nearest g pid player_team o d :
  _nearest_opponent g pid player_team = Ok (o, d) ->
  exists node,
    dget pid (nodes g) = Some node
    /\ (forall oid n,
          In (oid, n) (nodes g) -> opponent_of player_team pid oid ->
          (dist (node_pos node) (node_pos n) <? d) = false)
    /\ match o with
       | Some oid =>
           opponent_of player_team pid oid
           /\ exists n, In (oid, n) (nodes g)
                        /\ d = dist (node_pos node) (node_pos n)
       | None => d = infinity
       end.
Proof.
  unfold _nearest_opponent. intros E. bind_ok E as node En.
  exists node. split; [now apply lookup_Ok in En|].
  inversion E as [Efold]. clear E.
  match type of Efold with
  | fold_left ?f ?l ?s = _ =>
      pose proof (fold_left_prefix_invariant
                    (fun done (acc : option string * float) =>
                       (forall oid n,
                          In (oid, n) done -> opponent_of player_team pid oid ->
                          (dist (node_pos node) (node_pos n) <? snd acc) = false)
                       /\ match fst acc with
                          | Some oid =>
                              opponent_of player_team pid oid
                              /\ exists n,
                                   In (oid, n) done
                                   /\ snd acc
                                      = dist (node_pos node) (node_pos n)
                          | None => snd acc = infinity
                          end)
                    f l s) as Hinv
  end.
  rewrite Efold in Hinv. apply Hinv; clear Hinv Efold.
  - split; [intros oid n []|reflexivity].
  - intros done [bid bd] [oid n] [Hall Hbest]. simpl in Hall, Hbest.
    assert (Hkeep : forall acc' : option string * float,
               acc' = (bid, bd) ->
               ~ opponent_of player_team pid oid
               \/ (dist (node_pos node) (node_pos n) <? bd) = false ->
               (forall oid0 n0,
                  In (oid0, n0) (done ++ [(oid, n)]) ->
                  opponent_of player_team pid oid0 ->
                  (dist (node_pos node) (node_pos n0) <? snd acc') = false)
               /\ match fst acc' with
                  | Some oid0 =>
                      opponent_of player_team pid oid0
                      /\ exists n0,
                           In (oid0, n0) (done ++ [(oid, n)])
                           /\ snd acc'
                              = dist (node_pos node) (node_pos n0)
                  | None => snd acc' = infinity
                  end).
    { intros acc' -> Hnew. simpl. split.
      - intros oid0 n0 Hin Hopp. apply in_app_or in Hin as [Hin|[Heq|[]]].
        + exact (Hall oid0 n0 Hin Hopp).
        + inversion Heq; subst. destruct Hnew as [Hn|Hn]; [contradiction|].
          exact Hn.
      - destruct bid as [b|]; [|exact Hbest].
        destruct Hbest as (Hopp & n0 & Hin & Hd). split; [assumption|].
        exists n0. split; [apply in_or_app; now left | assumption]. }
    destruct (String.eqb_spec oid pid) as [Heq|Hne].
    { apply Hkeep; [reflexivity|]. left. intros [H _]. contradiction. }
    destruct (String.eqb_spec (dget_default oid "A" player_team)
                (dget_default pid "A" player_team)) as [Ht|Ht].
    { apply Hkeep; [reflexivity|]. left. intros [_ H]. contradiction. }
    destruct (dist (node_pos node) (node_pos n) <? bd) eqn:Hlt.
    2:{ apply Hkeep; [reflexivity|]. now right. }
    clear Hkeep. simpl. split.
    + intros oid0 n0 Hin Hopp. apply in_app_or in Hin as [Hin|[Heq|[]]].
      * destruct (dist (node_pos node) (node_pos n0)
                  <? dist (node_pos node) (node_pos n)) eqn:Hc;
          [|reflexivity].
        rewrite <- (Hall oid0 n0 Hin Hopp). symmetry.
        exact (float_ltb_trans _ _ _ Hc Hlt).
      * inversion Heq; subst. apply float_ltb_irrefl.
    + split; [now split|]. exists n. split; [|reflexivity].
      apply in_or_app. right. now left.
Qed.

(** X23.  The best supporting teammate is best: when
    [_best_support_teammate] returns [(m, s)] for a player whose node is at
    [pos], no teammate node of the graph has a support score strictly above
    [s]; if [m] names a player, that player is a teammate other than the
    player itself with a node of support score exactly [s]; if [m] is
    [None], [s] is [-1e9]. *)
Theorem best_support_teammate_is_best g pid player_team cfg m s :
  _best_support_teammate g pid player_team cfg = Ok (m, s) ->
  exists node,
    dget pid (nodes g) = Some node
    /\ (forall mid n,
          In (mid, n) (nodes g) -> teammate_of player_team pid mid ->
          (s <? support_score cfg (node_pos node) (node_pos n)) = false)
    /\ match m with
       | Some mid =>
           teammate_of player_team pid mid
           /\ exists n, In (mid, n) (nodes g)
                        /\ s = support_score cfg (node_pos node) (node_pos n)
       | None => s = -1e9
       end.
Proof.
  unfold _best_support_teammate. intros E. bind_ok E as node En.
  exists node. split; [now apply lookup_Ok in En|].
  inversion E as [Efold]. clear E.
  match type of Efold with
  | fold_left ?f ?l ?s0 = _ =>
      pose proof (fold_left_prefix_invariant
                    (fun done (acc : option string * float) =>
                       (forall mid n,
                          In (mid, n) done -> teammate_of player_team pid mid ->
                          (snd acc
                           <? support_score cfg (node_pos node) (node_pos n))
                          = false)
                       /\ match fst acc with
                          | Some mid =>
                              teammate_of player_team pid mid
                              /\ exists n,
                                   In (mid, n) done
                                   /\ snd acc
                                      = support_score cfg (node_pos node)
                                          (node_pos n)
                          | None => snd acc = -1e9
                          end)
                    f l s0) as Hinv
  end.
  rewrite Efold in Hinv. apply Hinv; clear Hinv Efold.
  - split; [intros mid n []|reflexivity].
  - intros done [bid bs] [mid n] [Hall Hbest]. simpl in Hall, Hbest.
    assert (Hkeep : forall acc' : option string * float,
               acc' = (bid, bs) ->
               ~ teammate_of player_team pid mid
               \/ (bs <? support_score cfg (node_pos node) (node_pos n))
                  = false ->
               (forall mid0 n0,
                  In (mid0, n0) (done ++ [(mid, n)]) ->
                  teammate_of player_team pid mid0 ->
                  (snd acc'
                   <? support_score cfg (node_pos node) (node_pos n0))
                  = false)
               /\ match fst acc' with
                  | Some mid0 =>
                      teammate_of player_team pid mid0
                      /\ exists n0,
                           In (mid0, n0) (done ++ [(mid, n)])
                           /\ snd acc'
                              = support_score cfg (node_pos node)
                                  (node_pos n0)
                  | None => snd acc' = -1e9
                  end).
    { intros acc' -> Hnew. simpl. split.
      - intros mid0 n0 Hin Hmate. apply in_app_or in Hin as [Hin|[Heq|[]]].
        + exact (Hall mid0 n0 Hin Hmate).
        + inversion Heq; subst. destruct Hnew as [Hn|Hn]; [contradiction|].
          exact Hn.
      - destruct bid as [b|]; [|exact Hbest].
        destruct Hbest as (Hmate & n0 & Hin & Hd). split; [assumption|].
        exists n0. split; [apply in_or_app; now left | assumption]. }
    destruct (String.eqb_spec mid pid) as [Heq|Hne].
    { apply Hkeep; [reflexivity|]. left. intros [H _]. contradiction. }
    destruct (String.eqb_spec (dget_default mid "A" player_team)
                (dget_default pid "A" player_team)) as [Ht|Ht]; cbn [negb].
    2:{ apply Hkeep; [reflexivity|]. left. intros [_ H]. contradiction. }
    cbv zeta.
    change (2.0 * (if is_ahead (node_pos n) (node_pos node)
                        (attack_direction cfg) then 1 else 0)
            + 1.0 * (if in_forward_cone (node_pos node) (node_pos n)
                          (attack_direction cfg) 0.3 then 1 else 0)
            - 0.15 * dist (node_pos node) (node_pos n))
      with (support_score cfg (node_pos node) (node_pos n)).
    destruct (bs <? support_score cfg (node_pos node) (node_pos n)) eqn:Hlt.
    2:{ apply Hkeep; [reflexivity|]. now right. }
    clear Hkeep. simpl. split.
    + intros mid0 n0 Hin Hmate. apply in_app_or in Hin as [Hin|[Heq|[]]].
      * destruct (support_score cfg (node_pos node) (node_pos n)
                  <? support_score cfg (node_pos node) (node_pos n0)) eqn:Hc;
          [|reflexivity].
        rewrite <- (Hall mid0 n0 Hin Hmate). symmetry.
        exact (float_ltb_trans _ _ _ Hlt Hc).
      * inversion Heq; subst. apply float_ltb_irrefl.
    + split; [now split|]. exists n. split; [|reflexivity].
      apply in_or_app. right. now left.
Qed.

End NearestExtra.


(* ================================================================== *)
(** * Further properties of scoring *)
(* ================================================================== *)

Section ScoringExtra.

Lemma mapM_Forall2 {A B} (f : A -> result B) (l : list A) (bs : list B) :
  mapM f l = Ok bs -> Forall2 (fun a b => f a = Ok b) l bs.
Proof.
  revert bs. induction l as [|a l IH]; simpl; intros bs E.
  - inversion E. constructor.
  - bind_ok E as b Eb. bind_ok E as bs' Ebs. inversion E; subst.
    constructor; auto.
Qed.

Lemma score_event_scores_candidate g pid pos summaries cfg role c e :
  score_event g pid pos summaries cfg role c = Ok e -> scores_candidate c e.
Proof.
  unfold score_event. intros E. bind_ok E as [s reasons] Es.
  inversion E; subst. repeat split.
Qed.

(** X11.  Scoring keeps the candidates: for a player that is not a node of
    the graph [score_candidates] returns the empty list whatever the
    candidates; otherwise it returns one scored event per candidate, each
    with the name, focus target and metadata of its candidate, in an order
    that is a permutation of the candidates' order. *)
Theorem scoring_keeps_the_candidates g pid cands summaries cfg role scored :
  score_candidates g pid cands summaries cfg role = Ok scored ->
  (dmem pid (nodes g) = false -> scored = [])
  /\ (dmem pid (nodes g) = true ->
      List.length scored = List.length cands
      /\ exists evs,
           Permutation evs scored /\ Forall2 scores_candidate cands evs).
Proof.
  unfold score_candidates. intros E.
  destruct (dmem pid (nodes g)); cbn [negb] in E.
  - split; [discriminate|]. intros _.
    bind_ok E as node En. bind_ok E as evs Es. inversion E; subst; clear E.
    split.
    + rewrite (Permutation_length (sort_desc_perm evs)).
      exact (mapM_length _ _ _ Es).
    + exists evs. split; [symmetry; apply sort_desc_perm|].
      apply mapM_Forall2 in Es. induction Es; constructor; auto.
      eapply score_event_scores_candidate. eassumption.
  - inversion E. split; [reflexivity | discriminate].
Qed.

Lemma in_clamp_range_not_nan cfg c : in_clamp_range cfg c -> not_nan c.
Proof. intros [Hlo _]. exact (float_leb_refl_r _ _ Hlo). Qed.

(** X12.  With clamping enabled and [score_min <= score_max], the list that
    [score_candidates] returns is ranked: every score lies in
    [[score_min, score_max]] and no event has a score below that of an
    event after it. *)
Theorem scores_are_clamped_and_ranked g pid cands summaries cfg role scored :
  clamp_scores cfg = true ->
  PrimFloat.leb (score_min cfg) (score_max cfg) = true ->
  score_candidates g pid cands summaries cfg role = Ok scored ->
  Forall (fun e => in_clamp_range cfg (score e)) scored
  /\ StronglySorted
       (fun a b => PrimFloat.ltb (score a) (score b) = false) scored.
Proof.
  intros Hclamp Hrange E.
  pose proof (score_candidates_clamped cfg Hclamp Hrange _ _ _ _ _ _ E)
    as Hall.
  split; [exact Hall|].
  unfold score_candidates in E.
  destruct (dmem pid (nodes g)); cbn [negb] in E.
  - bind_ok E as node En. bind_ok E as evs Es. inversion E; subst; clear E.
    change (StronglySorted
              (fun a b : ScoredEvent float => nltb (score a) (score b) = false)
              (sort_desc evs)).
    apply sort_desc_sorted.
    apply (Permutation_Forall (sort_desc_perm evs)).
    eapply Forall_impl; [|exact Hall].
    intros e He. exact (in_clamp_range_not_nan cfg _ He).
  - inversion E. constructor.
Qed.

Lemma pymin_not_below (hi s : float) :
  PrimFloat.ltb s hi = false -> pymin hi s = hi.
Proof. intros H. unfold pymin. now rewrite H. Qed.

Lemma nan_not_below (s hi : float) :
  PrimFloat.leb s s = false -> PrimFloat.ltb s hi = false.
Proof.
  intros Hs. destruct (PrimFloat.ltb s hi) eqn:E; [|reflexivity].
  destruct (float_ltb_not_nan s hi E) as [Hn _]. unfold not_nan in Hn.
  congruence.
Qed.

(** X13.  Clamping turns NaN into the top score: with clamping enabled and
    [score_min < score_max], a candidate whose raw score is not below
    [score_max] gets exactly [score_max]; this includes a raw score that is
    NaN (for instance a zero weight times an infinite feature), so such a
    candidate ranks with the best. *)
Theorem nan_score_is_clamped_to_score_max g pid pos summaries cfg role c
    raw why :
  clamp_scores cfg = true ->
  PrimFloat.ltb (score_min cfg) (score_max cfg) = true ->
  _score_one g pid pos c summaries cfg role = Ok (raw, why) ->
  PrimFloat.ltb raw (score_max cfg) = false
  \/ PrimFloat.leb raw raw = false ->
  exists e,
    score_event g pid pos summaries cfg role c = Ok e
    /\ score e = score_max cfg
    /\ why = reasons e.
Proof.
  intros Hclamp Hlt E Hraw. unfold score_event. rewrite E. cbn [bind].
  rewrite Hclamp. eexists. split; [reflexivity|]. split; [|reflexivity].
  simpl. unfold clamp_score.
  assert (Hnb : PrimFloat.ltb raw (score_max cfg) = false).
  { destruct Hraw as [H|H]; [exact H | now apply nan_not_below]. }
  rewrite (pymin_not_below _ _ Hnb). unfold pymax. now rewrite Hlt.
Qed.

End ScoringExtra.

(* ================================================================== *)
(** * Further properties of smoothing *)
(* ================================================================== *)

Section SmoothingExtra.
Context {F : Type} {N : Num F} {O : ScoreOrder F}.

(** X14.  Smoothed frames are ranked: in the output of the smoother, the
    list of a frame that comes after a non-empty frame is in descending
    order of the adjusted scores (no event has a score below that of an
    event after it), provided the adjusted scores can be compared (in
    binary64: none is NaN). *)
Theorem smoothed_frames_are_ranked (cfg : AlgoConfig F)
    (d : dict nat (list (ScoredEvent F))) i events out_i :
  NoDup (dkeys d) ->
  dget i d = Some events ->
  dget i (apply_temporal_smoothing d cfg) = Some out_i ->
  ~ all_empty_before d i ->
  Forall (fun e =>
            comparable (nadd (score e) (persistence_bonus cfg))
            /\ comparable (nadd (score e) (nopp (switch_penalty cfg))))
         events ->
  StronglySorted (fun a b => nltb (score a) (score b) = false) out_i.
Proof.
  intros Hnd Hg Hout Hnot Hcmp.
  destruct (apply_temporal_smoothing_get cfg d i _ Hnd Hg)
    as (pre & post & E & Hpre & Hpost & Hout').
  rewrite Hout in Hout'. inversion Hout'; subst out_i; clear Hout'.
  destruct (carried cfg None pre) as [p|] eqn:Ec.
  - destruct events as [|e0 es]; [constructor|].
    cbn [smooth_frame fst]. apply sort_desc_sorted.
    apply Forall_map. eapply Forall_impl; [|exact Hcmp].
    intros e [Hb Hs]. unfold adjust. simpl.
    destruct (_same_focus e p); assumption.
  - exfalso. apply Hnot. intros j evs Hj Hgj.
    apply carried_None_inv in Ec. rewrite Forall_forall in Ec.
    assert (Hin : In (j, evs) (sorted_items d)).
    { eapply Permutation_in; [symmetry; apply sorted_items_perm|].
      now apply dget_In. }
    rewrite E in Hin. apply in_app_or in Hin as [Hin|[Heq|Hin]].
    + exact (Ec _ Hin).
    + inversion Heq. lia.
    + rewrite Forall_forall in Hpost. specialize (Hpost _ Hin). simpl in Hpost.
      lia.
Qed.

End SmoothingExtra.


(* ================================================================== *)
(** * Further properties of the final assembly *)
(* ================================================================== *)

Section AssemblyExtra.
Context {F : Type} {N : Num F}.

Lemma final_recommendations_all (R : PlayerFocusRecommendation F -> Prop)
    (cfg : AlgoConfig F) frames t_rel_list spp player_ids out :
  (forall pid i r, recommend_at cfg frames t_rel_list spp pid i = Ok r -> R r) ->
  final_recommendations cfg frames t_rel_list spp player_ids = Ok out ->
  dvalues_all (Forall R) out.
Proof.
  intros HR H. unfold final_recommendations in H.
  eapply (foldM_invariant (dvalues_all (Forall R))); [| | exact H].
  - clear H. intros out1 pid out2 Hout H. bind_ok H as recs Er.
    bind_ok H as cur Ec. inversion H; subst. apply lookup_Ok in Ec.
    apply dvalues_all_dset; [assumption|].
    apply Forall_app. split.
    + exact (dvalues_all_dget (Forall R) pid cur out1 Hout Ec).
    + eapply mapM_Forall; [|exact Er]. intros a b. apply HR.
  - apply (dvalues_all_fold_dset (Forall R) (fun _ => [])).
    + intros _. constructor.
    + apply dvalues_all_nil.
Qed.

Lemma firstn_cons_hd {A} (n : nat) (x : A) (l : list A) :
  1 <= n -> exists tl, firstn n (x :: l) = x :: tl.
Proof. destruct n; [lia|]. simpl. eauto. Qed.

Lemma recommend_at_led cfg frames (t_rel_list : list F) spp pid i r :
  recommend_at cfg frames t_rel_list spp pid i = Ok r ->
  led_by_top_event cfg r
  /\ nth_error t_rel_list i = Some (t_rel r).
Proof.
  unfold recommend_at. intros H. bind_ok H as scored Es.
  destruct (dget_default i [] scored) as [|e0 es].
  - bind_ok H as fr Ef. bind_ok H as t Et. inversion H; subst.
    split; [now split | now apply index_Ok in Et].
  - bind_ok H as t Et.
    destruct (firstn_cons_hd (Z.to_nat (Z.max 1 (cfg_top_k cfg))) e0 es)
      as (tl & Efirst); [lia|].
    assert (Hlen : List.length (firstn (Z.to_nat (Z.max 1 (cfg_top_k cfg)))
                                  (e0 :: es))
                   <= Z.to_nat (Z.max 1 (cfg_top_k cfg)))
      by (rewrite length_firstn; lia).
    rewrite Efirst in *. cbn [bind] in H. inversion H; subst.
    split; [|now apply index_Ok in Et].
    unfold led_by_top_event. simpl. repeat split. exact Hlen.
Qed.

Lemma recommend_at_fallback cfg frames (t_rel_list : list F) spp pid i r :
  (forall pid inner, dget pid spp = Some inner ->
     dvalues_all (fun l => l = []) inner) ->
  recommend_at cfg frames t_rel_list spp pid i = Ok r ->
  is_fallback frames r.
Proof.
  intros Hspp. unfold recommend_at. intros H. bind_ok H as scored Es.
  apply lookup_Ok in Es.
  assert (Hr : dget_default i [] scored = []).
  { unfold dget_default. destruct (dget i scored) as [l|] eqn:El; [|reflexivity].
    exact (Hspp pid scored Es i l (dget_In _ _ _ El)). }
  rewrite Hr in H. bind_ok H as fr Ef. bind_ok H as t Et. inversion H; subst.
  exists fr. simpl. apply index_Ok in Ef. repeat split. exact Ef.
Qed.

Lemma smooth_loop_all_empty (cfg : AlgoConfig F) :
  forall items prev out,
    Forall (fun kv : nat * list (ScoredEvent F) => snd kv = []) items ->
    dvalues_all (fun l => l = []) out ->
    dvalues_all (fun l => l = []) (smooth_loop cfg items prev out).
Proof.
  induction items as [|[i evs] items IH]; intros prev out Hall Hout; simpl.
  - exact Hout.
  - inversion Hall as [|? ? He Hrest]; subst. simpl in He. subst evs. simpl.
    apply IH; [assumption|]. now apply dvalues_all_dset.
Qed.

Lemma apply_temporal_smoothing_all_empty (cfg : AlgoConfig F)
    (d : dict nat (list (ScoredEvent F))) :
  dvalues_all (fun l => l = []) d ->
  dvalues_all (fun l => l = []) (apply_temporal_smoothing d cfg).
Proof.
  intros Hd. unfold apply_temporal_smoothing. destruct d as [|kv d']; [exact Hd|].
  apply smooth_loop_all_empty; [|apply dvalues_all_nil].
  apply (Permutation_Forall (Permutation_sym (sorted_items_perm _))).
  apply Forall_forall. intros [i evs] Hin. exact (Hd i evs Hin).
Qed.

End AssemblyExtra.

Section PipelineExtra.

Lemma generate_candidates_off fuel g pitch pid player_team cfg summaries cands :
  all_generators_off cfg ->
  generate_candidates_for_player fuel g pitch pid player_team cfg summaries
  = Ok cands ->
  cands = [].
Proof.
  intros (H1 & H2 & H3 & H4 & H5). unfold generate_candidates_for_player.
  rewrite H1, H2, H3, H4, H5. intros E.
  destruct (negb (dmem pid (nodes g))); [now inversion E|].
  bind_ok E as node En. destruct (graph_ball_pos g). cbn [bind] in E.
  now inversion E.
Qed.

Lemma score_candidates_nil g pid summaries cfg role scored :
  score_candidates g pid [] summaries cfg role = Ok scored -> scored = [].
Proof.
  unfold score_candidates. intros E.
  destruct (negb (dmem pid (nodes g))); [now inversion E|].
  bind_ok E as node En. cbn [mapM bind] in E. now inversion E.
Qed.

Lemma score_frame_off fuel pitch player_team player_role cfg player_ids spp g
    spp' :
  all_generators_off cfg ->
  (forall pid inner, dget pid spp = Some inner ->
     dvalues_all (fun l => l = []) inner) ->
  score_frame fuel pitch player_team player_role cfg player_ids spp g
  = Ok spp' ->
  forall pid inner, dget pid spp' = Some inner ->
    dvalues_all (fun l : list (ScoredEvent float) => l = []) inner.
Proof.
  intros Hoff Hspp H. unfold score_frame in H. bind_ok H as summaries Es.
  eapply (foldM_invariant
            (fun spp : dict string (dict nat (list (ScoredEvent float))) =>
               forall pid inner, dget pid spp = Some inner ->
                 dvalues_all (fun l => l = []) inner)); [| exact Hspp | exact H].
  clear H Hspp. intros spp1 pid spp2 Hspp1 H.
  bind_ok H as cands Ec. bind_ok H as scored Esc. bind_ok H as inner Ei.
  inversion H; subst; clear H. apply lookup_Ok in Ei.
  apply (generate_candidates_off _ _ _ _ _ _ _ _ Hoff) in Ec. subst cands.
  apply score_candidates_nil in Esc. subst scored.
  intros q innerq Hq. rewrite dget_dset in Hq.
  destruct (keqb q pid); [|eauto].
  inversion Hq; subst. apply dvalues_all_dset; [eauto | reflexivity].
Qed.

(** X15.  Every recommendation is led by its top event: in the output of
    the policy, a recommendation with an empty [top_k] is the fallback
    (rationale [["fallback_ball"]], score [0.0]); otherwise its primary
    target, primary score and rationale are the focus, score and reasons of
    the first event of [top_k], and [top_k] has at most [max(1, cfg.top_k)]
    events: a [top_k] setting of zero or less still keeps one event. *)
Theorem recommendations_are_led_by_top_event fuel frames pitch player_team
    player_role (cfg : AlgoConfig float) out :
  run_baseline_policy fuel frames pitch player_team player_role cfg = Ok out ->
  forall pid recs r,
    In (pid, recs) out -> In r recs -> led_by_top_event cfg r.
Proof.
  intros H pid recs r Hin Hr. unfold run_baseline_policy in H.
  bind_ok H as [dt t_rel_list] Et. bind_ok H as v_by_frame Ev.
  bind_ok H as graphs Eg. bind_ok H as f0 Ef.
  bind_ok H as spp1 E1. bind_ok H as spp2 E2.
  pose proof (final_recommendations_all (led_by_top_event cfg) cfg frames
                t_rel_list spp2 (dkeys (players f0)) out) as Hall.
  specialize (Hall (fun pid i r E => proj1 (recommend_at_led _ _ _ _ _ _ _ E)) H).
  specialize (Hall pid recs Hin). rewrite Forall_forall in Hall. auto.
Qed.

(** X16.  With all five generators disabled every recommendation is the
    fallback: whatever the frames, when the pipeline returns, each
    recommendation of each player looks at the ball position of its own
    canonical frame, with score [0.0], rationale [["fallback_ball"]] and
    an empty [top_k]. *)
Theorem all_generators_off_gives_fallbacks fuel meta
    (raw_frames : list (RawFrame float)) cfg frames P out :
  all_generators_off cfg ->
  canonicalize_frames raw_frames = Ok (frames, P) ->
  recommend_player_focus fuel meta raw_frames cfg = Ok out ->
  forall pid recs r,
    In (pid, recs) out -> In r recs -> is_fallback frames r.
Proof.
  intros Hoff Ec H pid recs r Hin Hr.
  rewrite recommend_player_focus_canon in H
    by (eapply canonicalize_frames_nonempty; eassumption).
  rewrite Ec in H. cbn [bind] in H.
  destruct (player_tables meta P) as [player_team player_role].
  unfold run_baseline_policy in H.
  bind_ok H as [dt t_rel_list] Et. bind_ok H as v_by_frame Ev.
  bind_ok H as graphs Eg. bind_ok H as f0 Ef.
  bind_ok H as spp1 E1. bind_ok H as spp2 E2.
  assert (H1 : forall pid inner, dget pid spp1 = Some inner ->
                 dvalues_all (fun l : list (ScoredEvent float) => l = [])
                   inner).
  { eapply (foldM_invariant
              (fun spp : dict string (dict nat (list (ScoredEvent float))) =>
                 forall pid inner, dget pid spp = Some inner ->
                   dvalues_all (fun l => l = []) inner)); [| | exact E1].
    - intros s g s' Hs Hg. exact (score_frame_off _ _ _ _ _ _ _ _ _ Hoff Hs Hg).
    - intros q inner Hq.
      rewrite (dget_fold_dset
                 (fun _ : string => ([] : dict nat (list (ScoredEvent float)))))
        in Hq.
      destruct (in_dec keqb_dec q (dkeys (players f0))); [|discriminate].
      inversion Hq. apply dvalues_all_nil. }
  assert (H2 : forall pid inner, dget pid spp2 = Some inner ->
                 dvalues_all (fun l : list (ScoredEvent float) => l = [])
                   inner).
  { eapply (foldM_invariant
              (fun spp : dict string (dict nat (list (ScoredEvent float))) =>
                 forall pid inner, dget pid spp = Some inner ->
                   dvalues_all (fun l => l = []) inner)); [| exact H1 | exact E2].
    intros s q s' Hs Hq. bind_ok Hq as inner Ei. inversion Hq; subst.
    apply lookup_Ok in Ei. intros q' inner' Hq'. rewrite dget_dset in Hq'.
    destruct (keqb q' q); [|eauto].
    inversion Hq'; subst. apply apply_temporal_smoothing_all_empty. eauto. }
  pose proof (final_recommendations_all (is_fallback frames) cfg frames
                t_rel_list spp2 (dkeys (players f0)) out) as Hall.
  specialize (Hall (fun pid i r E => recommend_at_fallback _ _ _ _ _ _ _ H2 E) H).
  specialize (Hall pid recs Hin). rewrite Forall_forall in Hall. auto.
Qed.

(** X17.  The pseudo-time of a recommendation is that of its frame: in the
    output of the policy the [t_rel] of a recommendation for frame [i] is
    the [i]-th pseudo-time that [infer_pseudotime] gives for the frames, so
    all players share it, and at frame 0 it is [0.0]. *)
Theorem recommendations_carry_frame_time fuel frames pitch player_team
    player_role (cfg : AlgoConfig float) out :
  run_baseline_policy fuel frames pitch player_team player_role cfg = Ok out ->
  exists dt t_rel_list,
    infer_pseudotime frames cfg = Ok (dt, t_rel_list)
    /\ nth_error t_rel_list 0 = Some 0%float
    /\ forall pid recs r,
         In (pid, recs) out -> In r recs ->
         nth_error t_rel_list (rec_frame_idx r) = Some (t_rel r).
Proof.
  intros H. unfold run_baseline_policy in H.
  bind_ok H as [dt t_rel_list] Et. bind_ok H as v_by_frame Ev.
  bind_ok H as graphs Eg. bind_ok H as f0 Ef.
  bind_ok H as spp1 E1. bind_ok H as spp2 E2.
  exists dt, t_rel_list. split; [exact Et|]. split.
  { unfold infer_pseudotime in Et. destruct frames; [discriminate|].
    bind_ok Et as [dts ts] El. now inversion Et. }
  intros pid recs r Hin Hr.
  pose proof (final_recommendations_all
                (fun r => nth_error t_rel_list (rec_frame_idx r)
                          = Some (t_rel r)) cfg frames
                t_rel_list spp2 (dkeys (players f0)) out) as Hall.
  assert (HR : forall pid i r,
             recommend_at cfg frames t_rel_list spp2 pid i = Ok r ->
             nth_error t_rel_list (rec_frame_idx r) = Some (t_rel r)).
  { intros q i r0 E. destruct (recommend_at_fields _ _ _ _ _ _ _ E) as [_ Hi].
    rewrite Hi. exact (proj2 (recommend_at_led _ _ _ _ _ _ _ E)). }
  specialize (Hall HR H pid recs Hin). rewrite Forall_forall in Hall. auto.
Qed.

End PipelineExtra.


(* ================================================================== *)
(** * Facts about tactic selection *)
(* ================================================================== *)

Section SelectFacts.
Variable py_str : json -> string.

(** X18.  Selection returns a dict of the input: a single tactic dict is
    returned as it is, whatever [tactic_id] and [tactic_index] say (its own
    id is not compared); from a list the result is one of its elements and
    is a dict.  So after [select_tactic] the schema check never reports
    "Tactic must be a dict.", and for a tactic found by [tactic_id] it can
    only report missing frames. *)
Theorem select_tactic_returns_a_dict_of_the_input (obj : json)
    (tactic_id : option string) (tactic_index : Z) (t : json) :
  select_tactic py_str obj tactic_id tactic_index = Ok t ->
  is_dict t
  /\ (is_dict obj -> t = obj)
  /\ (forall l, obj = JList l -> In t l)
  /\ ensure_tactic_schema t <> Raise (ValueError "Tactic must be a dict.")
  /\ (forall l tid,
        obj = JList l -> tactic_id = Some tid ->
        ensure_tactic_schema t = Ok tt
        \/ ensure_tactic_schema t
           = Raise (ValueError "Tactic missing 'frames' list.")).
Proof.
  intros E.
  assert (Hd : is_dict t /\ (is_dict obj -> t = obj)
               /\ (forall l, obj = JList l -> In t l)
               /\ (forall l tid, obj = JList l -> tactic_id = Some tid ->
                     has_tactic_id py_str tid t = true)).
  { unfold select_tactic in E. destruct obj as [| | | | |l|d];
      try discriminate.
    - destruct l as [|x l']; [discriminate|].
      destruct tactic_id as [tid|].
      + destruct (find (has_tactic_id py_str tid) (x :: l')) as [t0|] eqn:Ef;
          [|discriminate].
        inversion E; subst t0. apply find_some in Ef as [Hin Hm].
        split.
        { unfold has_tactic_id in Hm. destruct t; try discriminate.
          eexists; reflexivity. }
        split; [intros [d Hd]; discriminate|].
        split; [intros l [= <-]; exact Hin|].
        intros l tid0 _ [= <-]. exact Hm.
      + destruct ((tactic_index <? 0)
                  || (tactic_index >=? Z.of_nat (List.length (x :: l'))))%Z;
          [discriminate|].
        bind_ok E as t0 Ei. apply index_Ok in Ei.
        destruct t0; try discriminate. inversion E; subst t.
        split; [eexists; reflexivity|].
        split; [intros [d Hd]; discriminate|].
        split; [intros l0 [= <-]; eapply nth_error_In; eassumption|].
        intros l0 tid _ H. discriminate.
    - inversion E; subst t. split; [eexists; reflexivity|].
      split; [reflexivity|]. split; intros; discriminate. }
  destruct Hd as ([d ->] & Hobj & Hin & Hid).
  split; [eexists; reflexivity|]. split; [assumption|]. split; [assumption|].
  split.
  - unfold ensure_tactic_schema.
    destruct (dget "meta" d) as [[| | | | | |]|];
      try destruct (dget "frames" d) as [[| | | | | |]|]; discriminate.
  - intros l tid Hl Ht. specialize (Hid l tid Hl Ht).
    unfold has_tactic_id in Hid. unfold ensure_tactic_schema.
    destruct (dget "meta" d) as [[| | | | | |m]|]; try discriminate.
    destruct (dget "frames" d) as [[| | | | | |]|]; auto.
Qed.

(** X19.  Selection by id: on a non-empty list with a [tactic_id], the
    result is the first element that is a dict whose ["meta"] is a dict
    with that id (as [str] prints it; a missing id counts as [""]);
    [tactic_index] plays no part, not even when it is out of range; and
    when no element matches the call raises a [ValueError] naming the
    id. *)
Theorem select_tactic_by_id_takes_the_first_match (l : list json)
    (tid : string) (tactic_index : Z) :
  l <> [] ->
  (forall idx,
     select_tactic py_str (JList l) (Some tid) idx
     = select_tactic py_str (JList l) (Some tid) tactic_index)
  /\ (forall t,
        select_tactic py_str (JList l) (Some tid) tactic_index = Ok t
        <-> exists pre post,
              l = pre ++ t :: post
              /\ has_tactic_id py_str tid t = true
              /\ Forall (fun x => has_tactic_id py_str tid x = false) pre)
  /\ (Forall (fun x => has_tactic_id py_str tid x = false) l
      <-> select_tactic py_str (JList l) (Some tid) tactic_index
          = Raise (ValueError (msg_id_not_found tid))).
Proof.
  intros Hne. destruct l as [|x l']; [congruence|]. clear Hne.
  set (l := x :: l'). unfold select_tactic. fold l.
  assert (Hfind : forall ll t,
             find (has_tactic_id py_str tid) ll = Some t
             <-> exists pre post,
                   ll = pre ++ t :: post
                   /\ has_tactic_id py_str tid t = true
                   /\ Forall (fun x => has_tactic_id py_str tid x = false) pre).
  { induction ll as [|y ll IH]; intros t; simpl.
    - split; [discriminate|]. intros (pre & post & H & _).
      destruct pre; discriminate.
    - destruct (has_tactic_id py_str tid y) eqn:Hy.
      + split.
        * intros [= <-]. exists [], ll. auto.
        * intros (pre & post & Hl & Ht & Hpre). destruct pre as [|p pre].
          -- simpl in Hl. now inversion Hl.
          -- simpl in Hl. inversion Hl; subst.
             inversion Hpre; subst. congruence.
      + rewrite IH. split.
        * intros (pre & post & -> & Ht & Hpre). exists (y :: pre), post.
          simpl. auto.
        * intros (pre & post & Hl & Ht & Hpre). destruct pre as [|p pre].
          -- simpl in Hl. inversion Hl; subst. congruence.
          -- simpl in Hl. inversion Hl; subst. inversion Hpre; subst.
             exists pre, post. auto. }
  assert (Hnone : forall ll,
             find (has_tactic_id py_str tid) ll = None
             <-> Forall (fun x => has_tactic_id py_str tid x = false) ll).
  { induction ll as [|y ll IH]; simpl.
    - split; [constructor | reflexivity].
    - destruct (has_tactic_id py_str tid y) eqn:Hy.
      + split; [discriminate|]. intros H. inversion H; subst. congruence.
      + rewrite IH. split; [now constructor | now inversion 1]. }
  split; [reflexivity|]. split.
  - intros t. rewrite <- Hfind.
    destruct (find (has_tactic_id py_str tid) l); split; intros H;
      inversion H; reflexivity.
  - rewrite <- Hnone.
    destruct (find (has_tactic_id py_str tid) l); split; intros H;
      try discriminate; reflexivity.
Qed.

(** X20.  Selection by index: on a non-empty list without a [tactic_id],
    the call returns [t] exactly when [0 <= tactic_index < len(obj)] and the
    element at that index is [t], a dict.  A negative index does not count
    from the end: like an index past the end it raises the out-of-range
    [ValueError], and an element that is not a dict raises its own
    [ValueError]; no [IndexError] escapes. *)
Theorem select_tactic_by_index_checks_the_range (l : list json) (idx : Z) :
  l <> [] ->
  (forall t,
     select_tactic py_str (JList l) None idx = Ok t
     <-> (0 <= idx < Z.of_nat (List.length l))%Z
         /\ nth_error l (Z.to_nat idx) = Some t /\ is_dict t)
  /\ ((idx < 0 \/ Z.of_nat (List.length l) <= idx)%Z ->
      select_tactic py_str (JList l) None idx
      = Raise (ValueError (msg_index_out_of_range idx (List.length l))))
  /\ (forall t,
        (0 <= idx)%Z -> nth_error l (Z.to_nat idx) = Some t -> ~ is_dict t ->
        select_tactic py_str (JList l) None idx
        = Raise (ValueError (msg_not_a_dict idx))).
Proof.
  intros Hne. destruct l as [|x l']; [congruence|]. clear Hne.
  set (l := x :: l'). unfold select_tactic. fold l. cbv zeta.
  destruct (Z.ltb_spec idx 0) as [Hneg|Hnn];
    [|destruct (Z.geb_spec idx (Z.of_nat (List.length l))) as [Hge|Hlt]];
    cbn [orb].
  - split; [|split].
    + intros t. split; [discriminate | lia].
    + reflexivity.
    + intros t H0. lia.
  - split; [|split].
    + intros t. split; [discriminate | lia].
    + reflexivity.
    + intros t _ Hn. exfalso.
      assert (Z.to_nat idx < List.length l)
        by (apply nth_error_Some; congruence).
      lia.
  - assert (Hi : Z.to_nat idx < List.length l) by lia.
    destruct (nth_error l (Z.to_nat idx)) as [t0|] eqn:En;
      [|apply nth_error_None in En; lia].
    unfold index. rewrite En. cbn [bind]. split; [|split].
    + intros t. split.
      * intros E. destruct t0; try discriminate. inversion E; subst.
        split; [lia|]. split; [reflexivity | eexists; reflexivity].
      * intros (_ & [= ->] & [d ->]). reflexivity.
    + lia.
    + intros t _ [= ->] Hnd. destruct t; try reflexivity.
      exfalso. apply Hnd. eexists; reflexivity.
Qed.

End SelectFacts.


(* ================================================================== *)
(** * Role priors ignore case and surrounding blanks *)
(* ================================================================== *)

Section RoleExtra.

Lemma upper_ascii_idem (c : ascii) : upper_ascii (upper_ascii c) = upper_ascii c.
Proof.
  destruct c as [b0 b1 b2 b3 b4 b5 b6 b7];
    destruct b0, b1, b2, b3, b4, b5, b6, b7; reflexivity.
Qed.

Lemma is_space_upper (c : ascii) : is_space (upper_ascii c) = is_space c.
Proof.
  destruct c as [b0 b1 b2 b3 b4 b5 b6 b7];
    destruct b0, b1, b2, b3, b4, b5, b6, b7; reflexivity.
Qed.

Lemma upper_idem (s : string) : upper (upper s) = upper s.
Proof.
  induction s as [|c s IH]; simpl; [reflexivity|].
  now rewrite upper_ascii_idem, IH.
Qed.

Lemma upper_lstrip (s : string) : upper (lstrip s) = lstrip (upper s).
Proof.
  induction s as [|c s IH]; simpl; [reflexivity|].
  rewrite is_space_upper. destruct (is_space c); [assumption | reflexivity].
Qed.

Lemma upper_rstrip (s : string) : upper (rstrip s) = rstrip (upper s).
Proof.
  induction s as [|c s IH]; simpl; [reflexivity|].
  rewrite <- IH, is_space_upper.
  destruct (rstrip s) as [|a b]; simpl.
  - destruct (is_space c); reflexivity.
  - reflexivity.
Qed.

Lemma upper_strip (s : string) : upper (strip s) = strip (upper s).
Proof. unfold strip. now rewrite upper_rstrip, upper_lstrip. Qed.

Lemma rstrip_idem (s : string) : rstrip (rstrip s) = rstrip s.
Proof.
  induction s as [|c s IH]; simpl; [reflexivity|].
  destruct (rstrip s) as [|a b] eqn:E.
  - destruct (is_space c) eqn:Ec; simpl; [reflexivity|]. now rewrite Ec.
  - simpl in *. now rewrite IH.
Qed.

Lemma lstrip_head (s : string) :
  match lstrip s with
  | EmptyString => True
  | String c _ => is_space c = false
  end.
Proof.
  induction s as [|c s IH]; simpl; [exact I|].
  destruct (is_space c) eqn:Ec; [exact IH | exact Ec].
Qed.

Lemma lstrip_rstrip_head (s : string) :
  match s with
  | EmptyString => True
  | String c _ => is_space c = false
  end ->
  lstrip (rstrip s) = rstrip s.
Proof.
  destruct s as [|c s]; [reflexivity|]. intros Hc. simpl.
  destruct (rstrip s); rewrite ?Hc; simpl; now rewrite Hc.
Qed.

Lemma strip_idem (s : string) : strip (strip s) = strip s.
Proof.
  unfold strip. rewrite (lstrip_rstrip_head (lstrip s) (lstrip_head s)).
  apply rstrip_idem.
Qed.

(** X21.  Role priors ignore case and surrounding blanks: for a role
    written in ASCII, [_role_prior] gives the same prior for the role, for
    its upper-case form and for the role stripped of leading and trailing
    white space, so [" st "] counts as ["ST"]; white space inside the role
    is kept. *)
Theorem role_prior_ignores_case_and_blanks (role candidate_name : string) :
  is_ascii role ->
  _role_prior (upper role) candidate_name = _role_prior role candidate_name
  /\ _role_prior (strip role) candidate_name = _role_prior role candidate_name
  /\ _role_prior (strip (upper role)) candidate_name
     = _role_prior role candidate_name.
Proof.
  intros _. unfold _role_prior.
  rewrite upper_idem, <- (upper_strip role), <- upper_strip, upper_idem.
  rewrite !upper_strip, !strip_idem. auto.
Qed.

End RoleExtra.


(* ================================================================== *)
(** * Reasons and rationales *)
(* ================================================================== *)

Section ReasonsExtra.

Lemma app_one_not_nil {A} (l : list A) (x : A) : l ++ [x] <> [].
Proof. destruct l; discriminate. Qed.


Lemma _score_one_reasons g pid pos c summaries cfg role s why :
  _score_one g pid pos c summaries cfg role = Ok (s, why) -> why <> [].
Proof.
  unfold _score_one. intros H. bind_ok H as sm Esm.
  repeat match type of H with
         | (let '(_, _) := (if ?b then _ else _) in _) = _ => destruct b
         | (if ?b then _ else _) = _ => destruct b
         end;
    inversion H; subst; first [apply app_one_not_nil | (simpl; discriminate)].
Qed.


Lemma score_candidates_explained g pid cands summaries cfg role scored :
  score_candidates g pid cands summaries cfg role = Ok scored ->
  Forall explained scored.
Proof.
  unfold score_candidates. intros H.
  destruct (negb (dmem pid (nodes g))); [inversion H; constructor|].
  bind_ok H as node En. bind_ok H as evs Es. inversion H; subst.
  apply (Permutation_Forall (Permutation_sym (sort_desc_perm evs))).
  eapply mapM_Forall; [|exact Es].
  intros c e He. unfold score_event in He. bind_ok He as [s why] Ew.
  inversion He; subst. unfold explained. simpl.
  exact (_score_one_reasons _ _ _ _ _ _ _ _ _ Ew).
Qed.

Lemma smooth_frame_explained (cfg : AlgoConfig float) prev events :
  Forall explained events ->
  Forall explained (fst (smooth_frame cfg prev events)).
Proof.
  intros He. unfold smooth_frame. destruct events as [|e0 es]; [constructor|].
  destruct prev as [p|]; simpl; [|exact He].
  apply (Permutation_Forall
           (Permutation_sym (sort_desc_perm (map (adjust cfg p) (e0 :: es))))).
  apply Forall_map. apply Forall_forall. intros e _.
  unfold explained, adjust. simpl. apply app_one_not_nil.
Qed.

Lemma smooth_loop_explained (cfg : AlgoConfig float) items :
  forall prev out,
    Forall (fun kv => Forall explained (snd kv)) items ->
    dvalues_all (Forall explained) out ->
    dvalues_all (Forall explained) (smooth_loop cfg items prev out).
Proof.
  induction items as [|[i events] items IH]; intros prev out Hitems Hout;
    simpl; [assumption|].
  inversion Hitems as [|? ? He Hrest]; subst. simpl in He.
  pose proof (smooth_frame_explained cfg prev events He) as Hq.
  destruct (smooth_frame cfg prev events) as [o prev']. simpl in Hq.
  apply IH; [assumption|]. now apply dvalues_all_dset.
Qed.

Lemma apply_temporal_smoothing_explained (cfg : AlgoConfig float)
    (d : dict nat (list (ScoredEvent float))) :
  dvalues_all (Forall explained) d ->
  dvalues_all (Forall explained) (apply_temporal_smoothing d cfg).
Proof.
  intros Hd. unfold apply_temporal_smoothing.
  destruct d as [|kv d']; [exact Hd|].
  apply smooth_loop_explained; [|apply dvalues_all_nil].
  apply (Permutation_Forall (Permutation_sym (sorted_items_perm (kv :: d')))).
  apply Forall_forall. intros [i l] Hin. simpl. exact (Hd i l Hin).
Qed.

Lemma recommend_at_explained (cfg : AlgoConfig float) frames t_rel_list spp
    pid i r :
  (forall pid inner, dget pid spp = Some inner ->
     dvalues_all (Forall explained) inner) ->
  recommend_at cfg frames t_rel_list spp pid i = Ok r ->
  rationale r <> [] /\ Forall explained (top_k r).
Proof.
  intros Hspp H. unfold recommend_at in H. bind_ok H as scored Es.
  apply lookup_Ok in Es.
  assert (Hranked : Forall explained (dget_default i [] scored)).
  { unfold dget_default. destruct (dget i scored) as [l|] eqn:El; [|constructor].
    eapply dvalues_all_dget; [|exact El]. eauto. }
  destruct (dget_default i [] scored) as [|e0 es].
  - bind_ok H as fr Ef. bind_ok H as t Et. inversion H; subst. simpl.
    split; [discriminate | constructor].
  - bind_ok H as t Et. bind_ok H as prim Ep. inversion H; subst. simpl.
    split.
    + inversion Hranked; subst. assumption.
    + now apply Forall_firstn_of.
Qed.

(** X25.  No rationale is empty: in the output of the policy every
    recommendation has at least one rationale string, and every event of
    its [top_k] has at least one reason, with or without smoothing tags. *)
Theorem rationales_are_never_empty fuel frames pitch player_team player_role
    (cfg : AlgoConfig float) out :
  run_baseline_policy fuel frames pitch player_team player_role cfg = Ok out ->
  forall pid recs r,
    In (pid, recs) out -> In r recs ->
    rationale r <> [] /\ Forall explained (top_k r).
Proof.
  intros H. unfold run_baseline_policy in H.
  bind_ok H as [dt t_rel_list] Et. bind_ok H as v_by_frame Ev.
  bind_ok H as graphs Eg. bind_ok H as f0 Ef.
  bind_ok H as spp1 E1. bind_ok H as spp2 E2.
  set (I := fun spp : dict string (dict nat (list (ScoredEvent float))) =>
              forall pid inner, dget pid spp = Some inner ->
                dvalues_all (Forall explained) inner).
  assert (H1 : I spp1).
  { eapply (foldM_invariant I); [| | exact E1].
    - clear. intros spp g spp' Hspp Hs. unfold score_frame in Hs.
      bind_ok Hs as summaries Es.
      eapply (foldM_invariant I); [| exact Hspp | exact Hs].
      clear. intros spp pid0 spp' Hspp H.
      bind_ok H as cands Ec. bind_ok H as scored Esc. bind_ok H as inner0 Ei.
      inversion H; subst; clear H. apply lookup_Ok in Ei.
      intros pid inner Hg. rewrite dget_dset in Hg.
      destruct (keqb pid pid0); [|exact (Hspp pid inner Hg)].
      inversion Hg; subst; clear Hg.
      apply dvalues_all_dset; [exact (Hspp pid0 inner0 Ei)|].
      eapply score_candidates_explained; eassumption.
    - intros pid inner Hg.
      rewrite (dget_fold_dset
                 (fun _ : string => ([] : list (nat * list (ScoredEvent float)))))
        in Hg.
      destruct (in_dec keqb_dec pid (dkeys (players f0))); [|discriminate].
      inversion Hg. apply dvalues_all_nil. }
  assert (H2 : I spp2).
  { eapply (foldM_invariant I); [| exact H1 | exact E2].
    clear. intros spp pid0 spp' Hspp H. bind_ok H as inner0 Ei.
    inversion H; subst; clear H. apply lookup_Ok in Ei.
    intros pid inner Hg. rewrite dget_dset in Hg.
    destruct (keqb pid pid0); [|exact (Hspp pid inner Hg)].
    inversion Hg; subst; clear Hg.
    apply apply_temporal_smoothing_explained. exact (Hspp pid0 inner0 Ei). }
  intros pid recs r Hin Hr.
  pose proof (final_recommendations_all
                (fun r => rationale r <> [] /\ Forall explained (top_k r))
                cfg frames t_rel_list spp2 (dkeys (players f0)) out
                (fun pid i r => recommend_at_explained cfg frames t_rel_list
                                  spp2 pid i r H2) H) as Hall.
  exact (proj1 (Forall_forall _ _) (Hall pid recs Hin) r Hr).
Qed.

End ReasonsExtra.

(* ================================================================== *)
(** * Attack direction zero *)
(* ================================================================== *)

Section DirectionExtra.

Lemma float_mul_zero_not_positive (x : float) :
  PrimFloat.ltb 0 (PrimFloat.mul x 0) = false.
Proof.
  rewrite FloatAxioms.ltb_spec, FloatAxioms.mul_spec.
  change (Prim2SF 0) with (SpecFloat.S754_zero false).
  destruct (Prim2SF x) as [s|s| |s m e]; reflexivity.
Qed.

(** X26.  With [attack_direction = 0] nothing is ahead of anything:
    [is_ahead] is [False] for all points, also for coordinates that are
    infinite or NaN, while [attacking_goal_center] still names the goal at
    [x = 0.0], as for a negative direction. *)
Theorem nothing_is_ahead_without_direction (a b : Vec2 float)
    (pitch : Pitch float) :
  is_ahead a b 0 = false
  /\ attacking_goal_center pitch 0
     = (0%float, PrimFloat.mul (pitch_width pitch) 0.5).
Proof.
  split; [|reflexivity].
  unfold is_ahead. simpl float_of_Z. apply float_mul_zero_not_positive.
Qed.

End DirectionExtra.

(* ================================================================== *)
(** * The values of the velocities *)
(* ================================================================== *)

Section VelocityValues.

Lemma pymax_floor_not_zero (a : float) :
  PrimFloat.eqb (pymax a 1e-6) 0 = false.
Proof.
  unfold pymax. destruct (PrimFloat.ltb a 1e-6) eqn:E; [reflexivity|].
  rewrite FloatAxioms.ltb_spec in E. rewrite FloatAxioms.eqb_spec.
  set (z := Prim2SF 0) in *. vm_compute in z. subst z.
  set (f := Prim2SF 1e-6) in *. vm_compute in f. subst f.
  destruct (Prim2SF a) as [s|s| |s m e]; try reflexivity;
    destruct s; first [discriminate | reflexivity].
Qed.

Lemma frame_velocities_other (prev : Frame float) denom :
  forall (items : dict string (Vec2 float)) v0 v_i,
    foldM (fun v_i '(pid, (x, y)) =>
             '(x0, y0) <- lookup pid (players prev) ;;
             Ok (dset pid ((x - x0) / denom, (y - y0) / denom)%float v_i))
          v0 items = Ok v_i ->
    forall pid, ~ In pid (dkeys items) -> dget pid v_i = dget pid v0.
Proof.
  induction items as [|[pid0 [x y]] items IH]; intros v0 v_i E pid Hn;
    simpl in E.
  - now inversion E.
  - bind_ok E as v1 E1. bind_ok E1 as [x0 y0] El. inversion E1; subst; clear E1.
    rewrite (IH _ _ E pid) by (intros Hin; apply Hn; now right).
    apply dget_dset_neq. intros ->. apply Hn. now left.
Qed.

Lemma frame_velocities_get (prev : Frame float) denom :
  forall (items : dict string (Vec2 float)) v0 v_i,
    NoDup (dkeys items) ->
    foldM (fun v_i '(pid, (x, y)) =>
             '(x0, y0) <- lookup pid (players prev) ;;
             Ok (dset pid ((x - x0) / denom, (y - y0) / denom)%float v_i))
          v0 items = Ok v_i ->
    forall pid x y,
      In (pid, (x, y)) items ->
      exists x0 y0,
        dget pid (players prev) = Some (x0, y0)
        /\ dget pid v_i
           = Some ((x - x0) / denom, (y - y0) / denom)%float.
Proof.
  induction items as [|[pid0 [a b]] items IH]; intros v0 v_i Hnd E pid x y Hin;
    simpl in E; [destruct Hin|].
  bind_ok E as v1 E1. bind_ok E1 as [x0 y0] El. inversion E1; subst; clear E1.
  inversion Hnd as [|? ? Hni Hnd']; subst.
  destruct Hin as [Heq|Hin].
  - inversion Heq; subst. exists x0, y0. apply lookup_Ok in El.
    split; [exact El|].
    rewrite (frame_velocities_other prev denom _ _ _ E pid Hni).
    apply dget_dset_eq.
  - exact (IH _ _ Hnd' E pid x y Hin).
Qed.

Lemma velocities_loop_values (dt : list float) :
  forall (rest : list (Frame float)) i prev v v',
    velocities_loop i prev rest dt v = Ok v' ->
    forall k cur p,
      nth_error rest k = Some cur -> nth_error (prev :: rest) k = Some p ->
      exists dt_j v_j,
        nth_error dt (i + k) = Some dt_j
        /\ dget (i + k) v' = Some v_j
        /\ frame_velocities p cur (pymax dt_j 1e-6) = Ok v_j.
Proof.
  induction rest as [|cur0 more IH]; intros i prev v v' E k cur p Hk Hp.
  - destruct k; discriminate.
  - simpl in E. bind_ok E as dt_i Ei. bind_ok E as v_i Ev.
    destruct k as [|k]; simpl in Hk, Hp.
    + inversion Hk; inversion Hp; subst. exists dt_i, v_i.
      apply index_Ok in Ei. rewrite Nat.add_0_r.
      split; [exact Ei|]. split; [|exact Ev].
      destruct (velocities_loop_entries dt more (S i) cur _ _ E) as (Hlow & _).
      rewrite Hlow by lia. apply dget_dset_eq.
    + destruct (IH (S i) cur0 _ _ E k cur p Hk Hp) as (dt_j & v_j & H1 & H2 & H3).
      exists dt_j, v_j. rewrite <- Nat.add_succ_comm. auto.
Qed.

(** X27.  Velocities are finite differences over a divisor that is never
    zero: when [compute_velocities] returns, the velocity of a player in a
    frame after the first is the player's displacement from the previous
    frame, each coordinate divided by [max(dt[j], 1e-6)]; this divisor is
    not zero whatever [dt[j]] is (zero, negative, NaN), so the division
    cannot raise. *)
Theorem velocities_are_finite_differences (frames : list (Frame float))
    (dt : list float) v j prev cur pid x y :
  compute_velocities frames dt = Ok v ->
  nth_error frames j = Some prev ->
  nth_error frames (S j) = Some cur ->
  NoDup (dkeys (players cur)) ->
  In (pid, (x, y)) (players cur) ->
  exists dt_j v_j x0 y0,
    nth_error dt (S j) = Some dt_j
    /\ dget (S j) v = Some v_j
    /\ dget pid (players prev) = Some (x0, y0)
    /\ dget pid v_j
       = Some (PrimFloat.div (PrimFloat.sub x x0) (pymax dt_j 1e-6),
               PrimFloat.div (PrimFloat.sub y y0) (pymax dt_j 1e-6))
    /\ PrimFloat.eqb (pymax dt_j 1e-6) 0 = false.
Proof.
  intros E Hprev Hcur Hnd Hin. unfold compute_velocities in E.
  destruct (negb (Nat.eqb (List.length frames) (List.length dt)));
    [discriminate|].
  destruct frames as [|f0 rest]; [discriminate|]. simpl in Hcur.
  destruct (velocities_loop_values dt rest 1 f0 _ _ E j cur prev Hcur Hprev)
    as (dt_j & v_j & Hdt & Hv & Hf).
  unfold frame_velocities in Hf.
  destruct (frame_velocities_get prev _ _ _ _ Hnd Hf pid x y Hin)
    as (x0 & y0 & Hp & Hg).
  exists dt_j, v_j, x0, y0. repeat split; try assumption.
  apply pymax_floor_not_zero.
Qed.

End VelocityValues.

(* ================================================================== *)
(** * The further properties, instantiated *)
(* ================================================================== *)

Section MoreWitnesses.

Lemma canonical_frames_have_exactly_P_witness :
  ["p1"; "p2"] = frame0_players sparse_frames
  /\ List.length sparse_canonical = List.length sparse_frames
  /\ forall i rf fr,
       nth_error sparse_frames i = Some rf ->
       nth_error sparse_canonical i = Some fr ->
       frame_idx fr = i
       /\ note fr = rf_note rf
       /\ dkeys (players fr) = ["p1"; "p2"]
       /\ forall pid, ~ In pid ["p1"; "p2"] -> dget pid (players fr) = None.
Proof.
  apply (canonical_frames_have_exactly_P sparse_frames sparse_canonical
           ["p1"; "p2"]).
  - repeat constructor; simpl; intuition discriminate.
  - vm_compute. reflexivity.
Defined.

Lemma ball_carried_with_owner_witness :
  canonicalize_frames sparse_frames = Ok (sparse_canonical, ["p1"; "p2"])
  /\ forall i rf fr fr_prev,
      nth_error sparse_frames (S i) = Some rf ->
      nth_error sparse_canonical (S i) = Some fr ->
      nth_error sparse_canonical i = Some fr_prev ->
      if ball_missing rf
      then ball_pos fr = ball_pos fr_prev
           /\ ball_owner_id fr = ball_owner_id fr_prev
      else exists bx by_,
          ball_x (ball rf) = Some bx /\ ball_y (ball rf) = Some by_
          /\ ball_pos fr = (bx, by_) /\ ball_owner_id fr = owner_id (ball rf).
Proof.
  assert (E : canonicalize_frames sparse_frames
              = Ok (sparse_canonical, ["p1"; "p2"]))
    by (vm_compute; reflexivity).
  split; [exact E|].
  exact (proj2 (ball_carried_with_owner sparse_frames sparse_canonical
                  ["p1"; "p2"] E)).
Defined.

Lemma pseudotime_steps_at_least_min_dt_witness :
  exists dt t_rel,
    infer_pseudotime scenario_A_canonical default_config = Ok (dt, t_rel)
    /\ List.length dt = 3 /\ List.length t_rel = 3
    /\ nth_error dt 0 = Some 0%float
    /\ nth_error t_rel 0 = Some 0%float.
Proof.
  destruct (infer_pseudotime scenario_A_canonical default_config)
    as [[dt t_rel]| |] eqn:E; try (vm_compute in E; discriminate).
  exists dt, t_rel. split; [reflexivity|].
  destruct (pseudotime_steps_at_least_min_dt default_config
              scenario_A_canonical dt t_rel eq_refl E)
    as (H1 & H2 & H3 & H4 & _).
  auto.
Defined.

Lemma graph_nodes_are_the_frame_players_witness :
  build_frame_graph [0%float] duel_velocities duel_teams duel_roles
    default_config duel_frame = Ok duel_graph
  /\ dkeys (nodes duel_graph) = ["a1"; "a2"; "b1"]
  /\ forall pid n,
       dget pid (nodes duel_graph) = Some n ->
       node_id n = pid
       /\ dget pid (players duel_frame) = Some (node_pos n)
       /\ node_team n = team_of duel_teams pid.
Proof.
  assert (E : build_frame_graph [0%float] duel_velocities duel_teams
                duel_roles default_config duel_frame = Ok duel_graph)
    by (vm_compute; reflexivity).
  assert (Hnd : NoDup (dkeys (players duel_frame)))
    by (repeat constructor; simpl; intuition discriminate).
  destruct (graph_nodes_are_the_frame_players _ _ _ _ _ _ _ Hnd E)
    as (_ & _ & _ & Hk & Hn).
  split; [exact E|]. split; [exact Hk|].
  intros pid n Hg. destruct (Hn pid n Hg) as (H1 & H2 & H3 & _). auto.
Defined.

Lemma graph_edges_are_the_close_pairs_witness :
  exists prox,
    edges duel_graph = prox ++ ball_link_edges duel_frame
    /\ NoDup prox
    /\ (forall e,
          In e prox
          <-> exists pa posa pb posb,
                In (pa, posa) (players duel_frame)
                /\ In (pb, posb) (players duel_frame)
                /\ pa <> pb
                /\ proximity_edge default_config duel_teams pa posa pb posb
                   = Some e)
    /\ map src (ball_link_edges duel_frame) = dkeys (players duel_frame)
    /\ Forall (fun e => etype e = BALL_LINK /\ dst e = src e)
         (ball_link_edges duel_frame).
Proof.
  apply (graph_edges_are_the_close_pairs [0%float] duel_velocities duel_teams
           duel_roles default_config duel_frame duel_graph).
  - repeat constructor; simpl; intuition discriminate.
  - vm_compute. reflexivity.
Defined.

Lemma summaries_count_the_edges_witness :
  dkeys duel_summaries = dkeys (nodes duel_graph)
  /\ forall pid n,
       dget pid (nodes duel_graph) = Some n ->
       exists sm,
         dget pid duel_summaries = Some sm
         /\ pressure_n sm
            = add_ones (edges_from OPP_NEAR pid (edges duel_graph)) 0
         /\ support_n sm
            = add_ones (edges_from TEAM_NEAR pid (edges duel_graph)) 0
         /\ (edges_from OPP_NEAR pid (edges duel_graph) = 0 ->
             min_opp_d sm = infinity)
         /\ (edges_from TEAM_NEAR pid (edges duel_graph) = 0 ->
             min_team_d sm = infinity)
         /\ (edges_from BALL_LINK pid (edges duel_graph) = 0 ->
             ball_d sm = dist (node_pos n) (graph_ball_pos duel_graph)).
Proof.
  apply (summaries_count_the_edges duel_graph default_config duel_summaries).
  - repeat constructor; simpl; intuition discriminate.
  - vm_compute. reflexivity.
Defined.

Lemma candidates_are_one_per_generator_witness :
  exists cands,
    generate_candidates_for_player 100 duel_graph duel_pitch "a1" duel_teams
      default_config duel_summaries = Ok cands
    /\ exists opp mate space,
         map ce_name cands = candidate_names true opp mate space true.
Proof.
  destruct (generate_candidates_for_player 100 duel_graph duel_pitch "a1"
              duel_teams default_config duel_summaries)
    as [cands| |] eqn:E; try (vm_compute in E; discriminate).
  exists cands. split; [reflexivity|].
  destruct (candidates_are_one_per_generator _ _ _ _ _ _ _ _ E) as [_ H].
  destruct (H eq_refl) as (opp & mate & space & Hn & _).
  exists opp, mate, space. exact Hn.
Defined.

Lemma candidate_targets_match_their_names_witness :
  exists cands,
    generate_candidates_for_player 100 duel_graph duel_pitch "a1" duel_teams
      default_config duel_summaries = Ok cands
    /\ Forall (target_as_named duel_graph duel_pitch "a1" duel_teams
                 default_config) cands.
Proof.
  destruct (generate_candidates_for_player 100 duel_graph duel_pitch "a1"
              duel_teams default_config duel_summaries)
    as [cands| |] eqn:E; try (vm_compute in E; discriminate).
  exists cands. split; [reflexivity|].
  exact (candidate_targets_match_their_names _ _ _ _ _ _ _ _ E).
Defined.

Lemma open_space_anchor_is_clear_witness :
  exists oa v node,
    _best_open_space_anchor 100 duel_graph duel_pitch "a1" duel_teams
      default_config = Ok (oa, v)
    /\ dget "a1" (nodes duel_graph) = Some node
    /\ space_best_ok duel_graph duel_pitch "a1" duel_teams default_config
         (node_pos node) (oa, v).
Proof.
  destruct (_best_open_space_anchor 100 duel_graph duel_pitch "a1" duel_teams
              default_config) as [[oa v]| |] eqn:E;
    try (vm_compute in E; discriminate).
  destruct (open_space_anchor_is_clear _ _ _ _ _ _ _ _ E) as (node & Hg & Hb).
  exists oa, v, node. auto.
Defined.

Lemma scoring_keeps_the_candidates_witness :
  exists scored,
    score_candidates duel_graph "a1" [unbounded_space] duel_summaries
      default_config "CM" = Ok scored
    /\ List.length scored = 1
    /\ exists evs,
         Permutation evs scored
         /\ Forall2 scores_candidate [unbounded_space] evs.
Proof.
  destruct (score_candidates duel_graph "a1" [unbounded_space] duel_summaries
              default_config "CM") as [scored| |] eqn:E;
    try (vm_compute in E; discriminate).
  exists scored. split; [reflexivity|].
  destruct (scoring_keeps_the_candidates _ _ _ _ _ _ _ E) as [_ H].
  exact (H eq_refl).
Defined.

Lemma scores_are_clamped_and_ranked_witness :
  exists scored,
    score_candidates duel_graph "a1" [unbounded_space] duel_summaries
      default_config "CM" = Ok scored
    /\ Forall (fun e => in_clamp_range default_config (score e)) scored
    /\ StronglySorted
         (fun a b => PrimFloat.ltb (score a) (score b) = false) scored.
Proof.
  destruct (score_candidates duel_graph "a1" [unbounded_space] duel_summaries
              default_config "CM") as [scored| |] eqn:E;
    try (vm_compute in E; discriminate).
  exists scored. split; [reflexivity|].
  apply (scores_are_clamped_and_ranked duel_graph "a1" [unbounded_space]
           duel_summaries default_config "CM" scored);
    [reflexivity | reflexivity | exact E].
Defined.

Lemma nan_score_is_clamped_to_score_max_witness :
  exists raw why e,
    _score_one duel_graph "a1" (40, 30)%float unbounded_space duel_summaries
      default_config "CM" = Ok (raw, why)
    /\ score_event duel_graph "a1" (40, 30)%float duel_summaries
         default_config "CM" unbounded_space = Ok e
    /\ score e = score_max default_config.
Proof.
  destruct (_score_one duel_graph "a1" (40, 30)%float unbounded_space
              duel_summaries default_config "CM") as [[raw why]| |] eqn:E;
    try (vm_compute in E; discriminate).
  assert (Hraw : PrimFloat.ltb raw (score_max default_config) = false).
  { vm_compute in E. inversion E. reflexivity. }
  destruct (nan_score_is_clamped_to_score_max duel_graph "a1" (40, 30)%float
              duel_summaries default_config "CM" unbounded_space raw why
              eq_refl eq_refl E (or_introl Hraw)) as (e & He & Hs & _).
  exists raw, why, e. auto.
Defined.

Lemma smoothed_frames_are_ranked_witness :
  exists out_1,
    dget 1 (apply_temporal_smoothing lag_scored default_config) = Some out_1
    /\ StronglySorted
         (fun a b => PrimFloat.ltb (score a) (score b) = false) out_1.
Proof.
  destruct (dget 1 (apply_temporal_smoothing lag_scored default_config))
    as [out_1|] eqn:E; [|vm_compute in E; discriminate].
  exists out_1. split; [reflexivity|].
  change (StronglySorted
            (fun a b : ScoredEvent float => nltb (score a) (score b) = false)
            out_1).
  apply (smoothed_frames_are_ranked default_config lag_scored 1
           [float_goal 6%float; float_ball 4%float] out_1).
  - repeat constructor; simpl; intuition discriminate.
  - reflexivity.
  - exact E.
  - intros H. specialize (H 0 [float_ball 5%float] (Nat.lt_0_1) eq_refl).
    discriminate.
  - repeat constructor.
Defined.

Lemma recommendations_are_led_by_top_event_witness :
  exists out,
    run_baseline_policy 100 scenario_A_canonical (tm_pitch scenario_A_meta)
      (fst (player_tables scenario_A_meta ["p1"; "p2"]))
      (snd (player_tables scenario_A_meta ["p1"; "p2"])) default_config
    = Ok out
    /\ forall pid recs r,
         In (pid, recs) out -> In r recs -> led_by_top_event default_config r.
Proof.
  destruct (run_baseline_policy 100 scenario_A_canonical
              (tm_pitch scenario_A_meta)
              (fst (player_tables scenario_A_meta ["p1"; "p2"]))
              (snd (player_tables scenario_A_meta ["p1"; "p2"]))
              default_config) as [out| |] eqn:E;
    try (vm_compute in E; discriminate).
  exists out. split; [reflexivity|].
  exact (recommendations_are_led_by_top_event _ _ _ _ _ _ _ E).
Defined.

Lemma all_generators_off_gives_fallbacks_witness :
  exists out,
    recommend_player_focus 0 scenario_A_meta scenario_A_frames
      no_generators_config = Ok out
    /\ forall pid recs r,
         In (pid, recs) out -> In r recs -> is_fallback scenario_A_canonical r.
Proof.
  destruct (recommend_player_focus 0 scenario_A_meta scenario_A_frames
              no_generators_config) as [out| |] eqn:E;
    try (vm_compute in E; discriminate).
  exists out. split; [reflexivity|].
  apply (all_generators_off_gives_fallbacks 0 scenario_A_meta
           scenario_A_frames no_generators_config scenario_A_canonical
           ["p1"; "p2"] out).
  - repeat split.
  - vm_compute. reflexivity.
  - exact E.
Defined.

Lemma recommendations_carry_frame_time_witness :
  exists out dt t_rel_list,
    run_baseline_policy 100 scenario_A_canonical (tm_pitch scenario_A_meta)
      (fst (player_tables scenario_A_meta ["p1"; "p2"]))
      (snd (player_tables scenario_A_meta ["p1"; "p2"])) default_config
    = Ok out
    /\ infer_pseudotime scenario_A_canonical default_config
       = Ok (dt, t_rel_list)
    /\ nth_error t_rel_list 0 = Some 0%float
    /\ forall pid recs r,
         In (pid, recs) out -> In r recs ->
         nth_error t_rel_list (rec_frame_idx r) = Some (t_rel r).
Proof.
  destruct (run_baseline_policy 100 scenario_A_canonical
              (tm_pitch scenario_A_meta)
              (fst (player_tables scenario_A_meta ["p1"; "p2"]))
              (snd (player_tables scenario_A_meta ["p1"; "p2"]))
              default_config) as [out| |] eqn:E;
    try (vm_compute in E; discriminate).
  destruct (recommendations_carry_frame_time _ _ _ _ _ _ _ E)
    as (dt & t_rel_list & H1 & H2 & H3).
  exists out, dt, t_rel_list. auto.
Defined.

Lemma select_tactic_returns_a_dict_of_the_input_witness :
  select_tactic str_on_strings (JList demo_db) (Some "t2") 0
  = Ok (demo_tactic "t2")
  /\ is_dict (demo_tactic "t2")
  /\ In (demo_tactic "t2") demo_db
  /\ ensure_tactic_schema (demo_tactic "t2") = Ok tt.
Proof.
  assert (E : select_tactic str_on_strings (JList demo_db) (Some "t2") 0
              = Ok (demo_tactic "t2")) by reflexivity.
  destruct (select_tactic_returns_a_dict_of_the_input str_on_strings _ _ _ _ E)
    as (Hd & _ & Hin & _ & _).
  split; [exact E|]. split; [exact Hd|]. split; [now apply Hin|]. reflexivity.
Defined.

Lemma select_tactic_by_id_takes_the_first_match_witness :
  (forall idx,
     select_tactic str_on_strings (JList demo_db) (Some "t1") idx
     = select_tactic str_on_strings (JList demo_db) (Some "t1") 99)
  /\ select_tactic str_on_strings (JList demo_db) (Some "t1") 99
     = Ok (demo_tactic "t1")
  /\ select_tactic str_on_strings (JList demo_db) (Some "t9") 99
     = Raise (ValueError (msg_id_not_found "t9")).
Proof.
  assert (Hne : demo_db <> []) by discriminate.
  split; [|split].
  - exact (proj1 (select_tactic_by_id_takes_the_first_match str_on_strings
                    demo_db "t1" 99 Hne)).
  - reflexivity.
  - apply (proj2 (select_tactic_by_id_takes_the_first_match str_on_strings
                    demo_db "t9" 99 Hne)).
    repeat constructor.
Defined.

Lemma select_tactic_by_index_checks_the_range_witness :
  select_tactic str_on_strings (JList demo_db) None (-1)
  = Raise (ValueError (msg_index_out_of_range (-1) 4))
  /\ select_tactic str_on_strings (JList demo_db) None 0
     = Raise (ValueError (msg_not_a_dict 0))
  /\ select_tactic str_on_strings (JList demo_db) None 2
     = Ok (demo_tactic "t2").
Proof.
  assert (Hne : demo_db <> []) by discriminate.
  split; [|split].
  - apply (select_tactic_by_index_checks_the_range str_on_strings demo_db
             (-1) Hne). lia.
  - apply (proj2 (proj2 (select_tactic_by_index_checks_the_range
                           str_on_strings demo_db 0 Hne)) (JInt 7));
      [lia | reflexivity | intros [d Hd]; discriminate].
  - apply (proj1 (select_tactic_by_index_checks_the_range str_on_strings
                    demo_db 2 Hne)).
    split; [simpl; lia|]. split; [reflexivity | eexists; reflexivity].
Defined.

Lemma role_prior_ignores_case_and_blanks_witness :
  _role_prior (strip (upper " st ")) "GOAL" = _role_prior " st " "GOAL".
Proof.
  apply (role_prior_ignores_case_and_blanks " st " "GOAL").
  repeat constructor.
Defined.

Lemma nearest_opponent_is_nearest_witness :
  exists o d node,
    _nearest_opponent duel_graph "a1" duel_teams = Ok (o, d)
    /\ dget "a1" (nodes duel_graph) = Some node
    /\ forall oid n,
         In (oid, n) (nodes duel_graph) -> opponent_of duel_teams "a1" oid ->
         PrimFloat.ltb (dist (node_pos node) (node_pos n)) d = false.
Proof.
  destruct (_nearest_opponent duel_graph "a1" duel_teams)
    as [[o d]| |] eqn:E; try (vm_compute in E; discriminate).
  destruct (nearest_opponent_is_nearest _ _ _ _ _ E) as (node & Hg & Hall & _).
  exists o, d, node. auto.
Defined.

Lemma best_support_teammate_is_best_witness :
  exists m s node,
    _best_support_teammate duel_graph "a1" duel_teams default_config
    = Ok (m, s)
    /\ dget "a1" (nodes duel_graph) = Some node
    /\ forall mid n,
         In (mid, n) (nodes duel_graph) -> teammate_of duel_teams "a1" mid ->
         PrimFloat.ltb s
           (support_score default_config (node_pos node) (node_pos n))
         = false.
Proof.
  destruct (_best_support_teammate duel_graph "a1" duel_teams default_config)
    as [[m s]| |] eqn:E; try (vm_compute in E; discriminate).
  destruct (best_support_teammate_is_best _ _ _ _ _ _ E)
    as (node & Hg & Hall & _).
  exists m, s, node. auto.
Defined.

Lemma rationales_are_never_empty_witness :
  exists out,
    run_baseline_policy 100 scenario_A_canonical (tm_pitch scenario_A_meta)
      (fst (player_tables scenario_A_meta ["p1"; "p2"]))
      (snd (player_tables scenario_A_meta ["p1"; "p2"])) default_config
    = Ok out
    /\ forall pid recs r,
         In (pid, recs) out -> In r recs ->
         rationale r <> [] /\ Forall explained (top_k r).
Proof.
  destruct (run_baseline_policy 100 scenario_A_canonical
              (tm_pitch scenario_A_meta)
              (fst (player_tables scenario_A_meta ["p1"; "p2"]))
              (snd (player_tables scenario_A_meta ["p1"; "p2"]))
              default_config) as [out| |] eqn:E;
    try (vm_compute in E; discriminate).
  exists out. split; [reflexivity|].
  exact (rationales_are_never_empty _ _ _ _ _ _ _ E).
Defined.

Lemma velocities_are_finite_differences_witness :
  exists v prev cur,
    compute_velocities scenario_A_canonical [0; 1; 1]%float = Ok v
    /\ nth_error scenario_A_canonical 0 = Some prev
    /\ nth_error scenario_A_canonical 1 = Some cur
    /\ forall x y,
         In ("p1", (x, y)) (players cur) ->
         exists dt_j v_j x0 y0,
           nth_error [0; 1; 1]%float 1 = Some dt_j
           /\ dget 1 v = Some v_j
           /\ dget "p1" (players prev) = Some (x0, y0)
           /\ dget "p1" v_j
              = Some (PrimFloat.div (PrimFloat.sub x x0) (pymax dt_j 1e-6),
                      PrimFloat.div (PrimFloat.sub y y0) (pymax dt_j 1e-6))
           /\ PrimFloat.eqb (pymax dt_j 1e-6) 0 = false.
Proof.
  destruct (compute_velocities scenario_A_canonical [0; 1; 1]%float)
    as [v| |] eqn:E; try (vm_compute in E; discriminate).
  destruct (nth_error scenario_A_canonical 0) as [prev|] eqn:Ep;
    [|vm_compute in Ep; discriminate].
  destruct (nth_error scenario_A_canonical 1) as [cur|] eqn:Ec;
    [|vm_compute in Ec; discriminate].
  assert (Hnd : NoDup (dkeys (players cur))).
  { pose proof Ec as Ec'. vm_compute in Ec'. inversion Ec'.
    repeat constructor; simpl; intuition discriminate. }
  exists v, prev, cur. split; [reflexivity|]. split; [reflexivity|].
  split; [reflexivity|]. intros x y Hin.
  exact (velocities_are_finite_differences scenario_A_canonical
           [0; 1; 1]%float v 0 prev cur "p1" x y E Ep Ec Hnd Hin).
Defined.

End MoreWitnesses.

(* ================================================================== *)
(** * The fallback in the output of the policy *)
(* ================================================================== *)

Section FallbackFacts.

(** The policy is its scoring and smoothing stages followed by the final
    loop. *)
Lemma run_baseline_policy_stages fuel frames pitch player_team player_role
    cfg :
  run_baseline_policy fuel frames pitch player_team player_role cfg
  = ('(t_rel, spp) <- smoothed_scores fuel frames pitch player_team
                        player_role cfg ;;
     f0 <- index 0 frames ;;
     final_recommendations cfg frames t_rel spp (dkeys (players f0))).
Proof.
  unfold run_baseline_policy, smoothed_scores.
  destruct (infer_pseudotime frames cfg) as [[dt t_rel]| |]; cbn [bind];
    try reflexivity.
  destruct (compute_velocities frames dt) as [v| |]; cbn [bind];
    try reflexivity.
  destruct (build_frame_graphs frames t_rel v player_team player_role cfg)
    as [graphs| |]; cbn [bind]; try reflexivity.
  destruct (index 0 frames) as [f0| |]; cbn [bind]; try reflexivity.
  match goal with
  | |- context [foldM (score_frame ?a ?b ?c ?d ?e ?f) ?s ?l] =>
      destruct (foldM (score_frame a b c d e f) s l) as [spp1| |]
  end; cbn [bind]; try reflexivity.
  match goal with
  | |- context [foldM ?f spp1 ?l] => destruct (foldM f spp1 l) as [spp2| |]
  end; cbn [bind]; reflexivity.
Qed.

(** With all generators off the smoothed table holds empty lists only. *)
Lemma smoothed_scores_off fuel frames pitch player_team player_role cfg
    t_rel spp :
  all_generators_off cfg ->
  smoothed_scores fuel frames pitch player_team player_role cfg
  = Ok (t_rel, spp) ->
  forall pid scored i,
    dget pid spp = Some scored -> dget_default i [] scored = [].
Proof.
  intros Hoff H. unfold smoothed_scores in H.
  bind_ok H as [dt t_rel_list] Et. bind_ok H as v_by_frame Ev.
  bind_ok H as graphs Eg. bind_ok H as f0 Ef.
  bind_ok H as spp1 E1. bind_ok H as spp2 E2. inversion H; subst; clear H.
  set (I := fun s : dict string (dict nat (list (ScoredEvent float))) =>
              forall pid inner, dget pid s = Some inner ->
                dvalues_all (fun l => l = []) inner).
  assert (H1 : I spp1).
  { eapply (foldM_invariant I); [| | exact E1].
    - intros s g s' Hs Hg. exact (score_frame_off _ _ _ _ _ _ _ _ _ Hoff Hs Hg).
    - intros q inner Hq.
      rewrite (dget_fold_dset
                 (fun _ : string => ([] : dict nat (list (ScoredEvent float)))))
        in Hq.
      destruct (in_dec keqb_dec q (dkeys (players f0))); [|discriminate].
      inversion Hq. apply dvalues_all_nil. }
  assert (H2 : I spp).
  { eapply (foldM_invariant I); [| exact H1 | exact E2].
    intros s q s' Hs Hq. bind_ok Hq as inner Ei. inversion Hq; subst.
    apply lookup_Ok in Ei. intros q' inner' Hq'. rewrite dget_dset in Hq'.
    destruct (keqb q' q); [|exact (Hs q' inner' Hq')].
    inversion Hq'; subst. apply apply_temporal_smoothing_all_empty.
    exact (Hs q inner Ei). }
  intros pid scored i Hg. unfold dget_default.
  destruct (dget i scored) as [l|] eqn:El; [|reflexivity].
  apply dget_In in El. exact (H2 pid scored Hg i l El).
Qed.

(** C8.  Fallback: when the policy returns, its output holds, for every
    player of frame 0 and every frame [i], a recommendation at place [i] of
    the player's list; and when the smoothed, ranked list of that player at
    that frame is empty (or the frame has no list), this recommendation has
    as primary the BALL target anchored at the ball position of frame [i]
    (no target player, tag ball), primary score [0.0], rationale
    [fallback_ball] alone, and an empty top-k.  With all five generators
    disabled every list is empty, so every recommendation is this one. *)
Theorem fallback_when_no_candidates fuel (frames : list (Frame float)) pitch
    player_team player_role cfg f0 out :
  nth_error frames 0 = Some f0 ->
  NoDup (dkeys (players f0)) ->
  run_baseline_policy fuel frames pitch player_team player_role cfg = Ok out ->
  exists t_rel spp,
    smoothed_scores fuel frames pitch player_team player_role cfg
    = Ok (t_rel, spp)
    /\ (forall pid i fr,
          In pid (dkeys (players f0)) -> nth_error frames i = Some fr ->
          exists scored recs r,
            dget pid spp = Some scored
            /\ dget pid out = Some recs
            /\ nth_error recs i = Some r
            /\ (dget_default i [] scored = [] ->
                player_id r = pid /\ rec_frame_idx r = i
                /\ primary r
                   = mkFocusTarget BALL (ball_pos fr) None (Some "ball")
                /\ primary_score r = 0%float
                /\ rationale r = ["fallback_ball"]
                /\ top_k r = []))
    /\ (all_generators_off cfg ->
        forall pid scored i,
          dget pid spp = Some scored -> dget_default i [] scored = []).
Proof.
  intros H0 Hnd H. rewrite run_baseline_policy_stages in H.
  bind_ok H as [t_rel spp] Es. bind_ok H as f0' Ef.
  apply index_Ok in Ef. assert (f0' = f0) by congruence. subst f0'.
  exists t_rel, spp. split; [exact Es|]. split.
  2:{ intros Hoff. exact (smoothed_scores_off _ _ _ _ _ _ _ _ Hoff Es). }
  apply final_recommendations_spec in H as [_ Hin]; [|exact Hnd].
  intros pid i fr Hpid Hfr.
  destruct (Hin pid Hpid) as (recs & Hg & Hm).
  assert (Hi : i < List.length frames).
  { apply nth_error_Some. congruence. }
  destruct (recommendations_shape _ _ _ _ _ _ Hm) as [Hlen _].
  destruct (nth_error recs i) as [r|] eqn:Er.
  2:{ apply nth_error_None in Er. lia. }
  destruct (mapM_nth _ _ _ Hm i r Er) as (a & Ha & Hrec).
  assert (a = i).
  { rewrite nth_error_nth' with (d := 0) in Ha by (rewrite length_seq; exact Hi).
    rewrite seq_nth in Ha by exact Hi. inversion Ha. reflexivity. }
  subst a. unfold recommend_at in Hrec. bind_ok Hrec as scored Esc.
  apply lookup_Ok in Esc.
  exists scored, recs, r. split; [exact Esc|]. split; [exact Hg|].
  split; [exact Er|]. intros Hempty. rewrite Hempty in Hrec.
  bind_ok Hrec as fr' Efr. bind_ok Hrec as t Et. apply index_Ok in Efr.
  assert (fr' = fr) by congruence. subst fr'.
  inversion Hrec; subst. cbn. repeat split.
Qed.

End FallbackFacts.

Section FallbackWitness.

Lemma fallback_when_no_candidates_witness :
  exists out t_rel spp fr scored recs r,
    run_baseline_policy 0 scenario_A_canonical (tm_pitch scenario_A_meta)
      (fst (player_tables scenario_A_meta ["p1"; "p2"]))
      (snd (player_tables scenario_A_meta ["p1"; "p2"])) no_generators_config
    = Ok out
    /\ smoothed_scores 0 scenario_A_canonical (tm_pitch scenario_A_meta)
         (fst (player_tables scenario_A_meta ["p1"; "p2"]))
         (snd (player_tables scenario_A_meta ["p1"; "p2"]))
         no_generators_config
       = Ok (t_rel, spp)
    /\ nth_error scenario_A_canonical 1 = Some fr
    /\ dget "p1" spp = Some scored
    /\ dget_default 1 [] scored = []
    /\ dget "p1" out = Some recs
    /\ nth_error recs 1 = Some r
    /\ primary r = mkFocusTarget BALL (ball_pos fr) None (Some "ball")
    /\ primary_score r = 0%float
    /\ rationale r = ["fallback_ball"]
    /\ top_k r = [].
Proof.
  destruct (run_baseline_policy 0 scenario_A_canonical
              (tm_pitch scenario_A_meta)
              (fst (player_tables scenario_A_meta ["p1"; "p2"]))
              (snd (player_tables scenario_A_meta ["p1"; "p2"]))
              no_generators_config) as [out| |] eqn:E;
    try (vm_compute in E; discriminate).
  destruct (nth_error scenario_A_canonical 0) as [f0|] eqn:E0;
    [|vm_compute in E0; discriminate].
  destruct (nth_error scenario_A_canonical 1) as [fr|] eqn:E1;
    [|vm_compute in E1; discriminate].
  assert (Hf0 : NoDup (dkeys (players f0)) /\ In "p1" (dkeys (players f0))).
  { pose proof E0 as E0'. vm_compute in E0'. inversion E0'. split.
    - repeat constructor; simpl; intuition discriminate.
    - simpl. auto. }
  destruct Hf0 as [Hnd Hp].
  destruct (fallback_when_no_candidates 0 scenario_A_canonical _ _ _
              no_generators_config f0 out E0 Hnd E)
    as (t_rel & spp & Es & Hall & Hoff).
  destruct (Hall "p1" 1 fr Hp E1) as (scored & recs & r & Hs & Hg & Hr & Hfb).
  assert (Hempty : dget_default 1 [] scored = []).
  { apply (Hoff ltac:(repeat split) "p1" scored 1 Hs). }
  destruct (Hfb Hempty) as (_ & _ & H1 & H2 & H3 & H4).
  exists out, t_rel, spp, fr, scored, recs, r. repeat split; assumption.
Defined.

End FallbackWitness.
(* ================================================================== *)
(** * The pipeline returns when the grid search ends *)
(* ================================================================== *)

Section Returns.
Variables (cfg : AlgoConfig float) (pitch : Pitch float).
Hypothesis Hlen : PrimFloat.eqb (pitch_length pitch) 0 = false.









End Returns.



Section ReturnsWitness.


End ReturnsWitness.
